(** * concorde.js: the browser and cookie modules, embedded and verified

    Shallow embedding of [modules/browser/src/browser.js] and
    [modules/cookie/src/cookie.js].  JavaScript strings are sequences of
    UTF-16 code units ([list Z]), abrupt completions (thrown errors) are
    explicit, and the ambient objects the modules read and write
    ([navigator], [window], [document.cookie]) are explicit arguments. *)

From Stdlib Require Import ZArith List Bool Lia String Ascii Setoid.
Import ListNotations.
Open Scope Z_scope.

(* ================================================================== *)
(** * JavaScript values, strings and completions *)
(* ================================================================== *)

Module JS.

(** A JavaScript string: its UTF-16 code units. *)
Definition jsstring := list Z.

(** String literals of the source, written as Rocq strings. *)
Definition str (s : string) : jsstring :=
  map (fun a => Z.of_N (N_of_ascii a)) (list_ascii_of_string s).

(** The errors the built-ins used by the two modules can throw. *)
Inductive error := TypeError | URIError | SyntaxError.

(** The outcome of a call: a normal return or a thrown error. *)
Inductive completion (A : Type) :=
| Normal (a : A)
| Throw (e : error).
Arguments Normal {A} a.
Arguments Throw {A} e.

Definition bind {A B} (c : completion A) (f : A -> completion B) : completion B :=
  match c with
  | Normal a => f a
  | Throw e => Throw e
  end.

Definition fmap {A B} (f : A -> B) (c : completion A) : completion B :=
  bind c (fun a => Normal (f a)).

(** The values that reach the two modules as arguments. *)
#[warnings="-register-all"]
Inductive value :=
| VUndefined
| VNull
| VBool (b : bool)
| VStr (s : jsstring)
| VArr (l : list value).

Fixpoint list_eqb (a b : jsstring) : bool :=
  match a, b with
  | [], [] => true
  | x :: a', y :: b' => (x =? y) && list_eqb a' b'
  | _, _ => false
  end.

(** [prefixb p s]: [s] starts with [p]. *)
Fixpoint prefixb (p s : jsstring) : bool :=
  match p, s with
  | [], _ => true
  | x :: p', y :: s' => (x =? y) && prefixb p' s'
  | _ :: _, [] => false
  end.

(** [String.prototype.includes]: [n] occurs in [h] at some index. *)
Fixpoint includes (h n : jsstring) : bool :=
  prefixb n h ||
  match h with
  | [] => false
  | _ :: t => includes t n
  end.

(** The class [\s] of a regular expression: WhiteSpace and LineTerminator. *)
Definition is_ws (c : Z) : bool :=
  ((9 <=? c) && (c <=? 13)) || (c =? 32) || (c =? 160) || (c =? 5760) ||
  ((8192 <=? c) && (c <=? 8202)) || (c =? 8232) || (c =? 8233) ||
  (c =? 8239) || (c =? 8287) || (c =? 12288) || (c =? 65279).

(** [s.split(/\s+/)]: the pieces of [s] between maximal runs of white
    space.  [in_sep] says that the previous unit was white space, [cur] is
    the piece being read, in reverse. *)
Fixpoint split_go (in_sep : bool) (cur : jsstring) (s : jsstring) : list jsstring :=
  match s with
  | [] => [rev cur]
  | c :: s' =>
      if is_ws c then
        if in_sep then split_go true cur s'
        else rev cur :: split_go true [] s'
      else split_go false (c :: cur) s'
  end.

Definition split_ws (s : jsstring) : list jsstring := split_go false [] s.

(** [Array.prototype.join]. *)
Fixpoint join (sep : jsstring) (l : list jsstring) : jsstring :=
  match l with
  | [] => []
  | [a] => a
  | a :: rest => a ++ sep ++ join sep rest
  end.

(** [s.split(sep)] for a separator of one unit, given as the test that
    recognises it: the pieces of [s] between the separators; [cur] is the
    piece being read, in reverse. *)
Fixpoint split_go1 (sep : Z -> bool) (cur : jsstring) (s : jsstring) : list jsstring :=
  match s with
  | [] => [rev cur]
  | x :: t => if sep x then rev cur :: split_go1 sep [] t else split_go1 sep (x :: cur) t
  end.

Definition split_on (sep : Z -> bool) (s : jsstring) : list jsstring :=
  split_go1 sep [] s.

(** A template literal with one substitution of an array element:
    an absent element is [undefined]. *)
Definition template (x : option jsstring) : jsstring :=
  match x with
  | Some s => s
  | None => str "undefined"
  end.

(** Canonicalize of a case-insensitive regular expression without the
    [u] flag, on the units that can equal an ASCII pattern character: a
    unit above 127 never canonicalizes to an ASCII one. *)
Definition canon (c : Z) : Z :=
  if (97 <=? c) && (c <=? 122) then c - 32 else c.

Fixpoint ci_prefixb (p s : jsstring) : bool :=
  match p, s with
  | [], _ => true
  | x :: p', y :: s' => (canon x =? canon y) && ci_prefixb p' s'
  | _ :: _, [] => false
  end.

(** [/p/i.test(s)] for a literal ASCII pattern [p]. *)
Fixpoint ci_test (p s : jsstring) : bool :=
  ci_prefixb p s ||
  match s with
  | [] => false
  | _ :: t => ci_test p t
  end.

(** [/p/.test(s)] for a literal pattern [p]. *)
Definition test (p s : jsstring) : bool := includes s p.

(** [/p1|p2|.../i.test(s)]. *)
Definition ci_test_any (ps : list jsstring) (s : jsstring) : bool :=
  existsb (fun p => ci_test p s) ps.

(** ** encodeURIComponent and decodeURIComponent *)

(** uriUnescaped: letters, digits and the marks - _ . ! ~ * ( ) and the
    apostrophe. *)
Definition unreserved (c : Z) : bool :=
  ((65 <=? c) && (c <=? 90)) || ((97 <=? c) && (c <=? 122)) ||
  ((48 <=? c) && (c <=? 57)) ||
  (c =? 45) || (c =? 95) || (c =? 46) || (c =? 33) || (c =? 126) ||
  (c =? 42) || (c =? 39) || (c =? 40) || (c =? 41).

Definition is_lead (c : Z) : bool := (55296 <=? c) && (c <=? 56319).
Definition is_trail (c : Z) : bool := (56320 <=? c) && (c <=? 57343).
Definition is_unit (c : Z) : bool := (0 <=? c) && (c <? 65536).

(** The code point of a surrogate pair. *)
Definition pair_cp (hi lo : Z) : Z := (hi - 55296) * 1024 + (lo - 56320) + 65536.

(** The UTF-8 octets of a code point. *)
Definition utf8 (cp : Z) : list Z :=
  if cp <? 128 then [cp]
  else if cp <? 2048 then [192 + cp / 64; 128 + cp mod 64]
  else if cp <? 65536 then
    [224 + cp / 4096; 128 + (cp / 64) mod 64; 128 + cp mod 64]
  else
    [240 + cp / 262144; 128 + (cp / 4096) mod 64;
     128 + (cp / 64) mod 64; 128 + cp mod 64].

(** The code units of a code point. *)
Definition utf16 (cp : Z) : jsstring :=
  if cp <? 65536 then [cp]
  else [55296 + (cp - 65536) / 1024; 56320 + (cp - 65536) mod 1024].

Definition hexdigit (d : Z) : Z := if d <? 10 then 48 + d else 55 + d.

Definition hexval (c : Z) : option Z :=
  if (48 <=? c) && (c <=? 57) then Some (c - 48)
  else if (65 <=? c) && (c <=? 70) then Some (c - 55)
  else if (97 <=? c) && (c <=? 102) then Some (c - 87)
  else None.

(** The escape of an octet: a percent sign and two hexadecimal digits. *)
Definition pct (b : Z) : jsstring := [37; hexdigit (b / 16); hexdigit (b mod 16)].

Definition pct_all (bs : list Z) : jsstring := flat_map pct bs.

(** Encode of ECMAScript with the unreserved set of encodeURIComponent:
    an unreserved unit is kept, any other code point is written as the
    escapes of its UTF-8 octets, and an unpaired surrogate is a URIError. *)
Fixpoint encodeURIComponent (s : jsstring) : completion jsstring :=
  match s with
  | [] => Normal []
  | c :: rest =>
      if unreserved c then
        bind (encodeURIComponent rest) (fun r => Normal (c :: r))
      else if is_lead c then
        match rest with
        | d :: rest' =>
            if is_trail d then
              bind (encodeURIComponent rest')
                   (fun r => Normal (pct_all (utf8 (pair_cp c d)) ++ r))
            else Throw URIError
        | [] => Throw URIError
        end
      else if is_trail c then Throw URIError
      else
        bind (encodeURIComponent rest) (fun r => Normal (pct_all (utf8 c) ++ r))
  end.

(** Decode of ECMAScript with an empty reserved set, in two passes that
    throw on the same inputs as the one-pass algorithm: first every
    escape becomes an octet (a percent sign without two hexadecimal digits
    is a URIError), then the octets are read as UTF-8. *)
Inductive item := Raw (c : Z) | Octet (b : Z).

Fixpoint unescape (s : jsstring) : completion (list item) :=
  match s with
  | [] => Normal []
  | c :: rest =>
      if c =? 37 then
        match rest with
        | h1 :: h2 :: rest' =>
            match hexval h1, hexval h2 with
            | Some a, Some b =>
                bind (unescape rest') (fun r => Normal (Octet (16 * a + b) :: r))
            | _, _ => Throw URIError
            end
        | _ => Throw URIError
        end
      else bind (unescape rest) (fun r => Normal (Raw c :: r))
  end.

Definition is_cont (b : Z) : bool := (128 <=? b) && (b <=? 191).

(** A code point that UTF-8 may encode in [n] octets: not overlong, not a
    surrogate, at most U+10FFFF. *)
Definition valid_cp (n cp : Z) : bool :=
  if n =? 2 then (128 <=? cp) && (cp <? 2048)
  else if n =? 3 then (2048 <=? cp) && (cp <? 65536) && negb ((55296 <=? cp) && (cp <=? 57343))
  else (65536 <=? cp) && (cp <=? 1114111).

Fixpoint read_utf8 (l : list item) : completion jsstring :=
  match l with
  | [] => Normal []
  | Raw c :: rest => bind (read_utf8 rest) (fun r => Normal (c :: r))
  | Octet b :: rest =>
      if b <? 128 then bind (read_utf8 rest) (fun r => Normal (b :: r))
      else if b <? 192 then Throw URIError                 (* n = 1 *)
      else if b <? 224 then                                 (* n = 2 *)
        match rest with
        | Octet b2 :: rest' =>
            let cp := (b - 192) * 64 + (b2 - 128) in
            if is_cont b2 && valid_cp 2 cp
            then bind (read_utf8 rest') (fun r => Normal (utf16 cp ++ r))
            else Throw URIError
        | _ => Throw URIError
        end
      else if b <? 240 then                                 (* n = 3 *)
        match rest with
        | Octet b2 :: Octet b3 :: rest' =>
            let cp := (b - 224) * 4096 + (b2 - 128) * 64 + (b3 - 128) in
            if is_cont b2 && is_cont b3 && valid_cp 3 cp
            then bind (read_utf8 rest') (fun r => Normal (utf16 cp ++ r))
            else Throw URIError
        | _ => Throw URIError
        end
      else if b <? 248 then                                 (* n = 4 *)
        match rest with
        | Octet b2 :: Octet b3 :: Octet b4 :: rest' =>
            let cp := (b - 240) * 262144 + (b2 - 128) * 4096
                      + (b3 - 128) * 64 + (b4 - 128) in
            if is_cont b2 && is_cont b3 && is_cont b4 && valid_cp 4 cp
            then bind (read_utf8 rest') (fun r => Normal (utf16 cp ++ r))
            else Throw URIError
        | _ => Throw URIError
        end
      else Throw URIError                                   (* n > 4 *)
  end.

Definition decodeURIComponent (s : jsstring) : completion jsstring :=
  bind (unescape s) read_utf8.

(** A string of code units in which every surrogate is paired. *)
Fixpoint well_formed (s : jsstring) : bool :=
  match s with
  | [] => true
  | c :: rest =>
      if is_lead c then
        match rest with
        | d :: rest' => is_trail d && well_formed rest'
        | [] => false
        end
      else is_unit c && negb (is_trail c) && well_formed rest
  end.


(** ** Regular expressions

    The fragment of the pattern language that [new RegExp] can meet in
    [Cookie.get].  The pattern is a non-capturing group (start of input,
    or a semicolon and a space), the encoded key, an equals sign and a
    capturing group of units other than a semicolon.  The encoded key is
    made of letters, digits, percent signs and the nine marks of
    [unreserved], of which the dot, the star and the two parentheses are
    pattern syntax. *)

Inductive re :=
| REmpty
| RChar (c : Z)
| RAny                          (* .     *)
| RNotSemi                      (* [^;]  *)
| RBol                          (* ^     *)
| RSeq (r1 r2 : re)
| RAlt (r1 r2 : re)             (* r1|r2 *)
| RStar (r : re)                (* r*    *)
| RGroup (i : nat) (r : re)     (* (r), the i-th left parenthesis *)
| RNonCap (r : re).             (* (?:r) *)

(** A group being read: its number when it captures, the alternatives
    already closed by a bar, and the terms of the current alternative,
    last first. *)
Record frame := {
  f_cap : option nat;
  f_alts : option re;
  f_cur : list re
}.

Definition seq_of (terms : list re) : re :=
  fold_left (fun acc t => RSeq t acc) terms REmpty.

Definition disjunction (f : frame) : re :=
  match f_alts f with
  | None => seq_of (f_cur f)
  | Some a => RAlt a (seq_of (f_cur f))
  end.

Definition close_group (f : frame) : re :=
  match f_cap f with
  | Some i => RGroup i (disjunction f)
  | None => RNonCap (disjunction f)
  end.

Definition push_term (t : re) (f : frame) : frame :=
  {| f_cap := f_cap f; f_alts := f_alts f; f_cur := t :: f_cur f |}.

Definition open_frame (cap : option nat) : frame :=
  {| f_cap := cap; f_alts := None; f_cur := [] |}.

(** An assertion or an already quantified term has nothing to repeat. *)
Definition quantifiable (t : re) : bool :=
  match t with
  | RStar _ | RBol => false
  | _ => true
  end.

Inductive parsed :=
| Parsed (r : re) (ngroups : nat)
| BadSyntax                      (* new RegExp throws a SyntaxError *)
| Unsupported.                   (* syntax outside the fragment *)

(** The pattern parser: [ng] capturing groups were opened so far, [cur] is
    the innermost open group and [stack] the groups around it. *)
Fixpoint parse (p : jsstring) (ng : nat) (cur : frame) (stack : list frame) : parsed :=
  match p with
  | [] =>
      match stack with
      | [] => Parsed (disjunction cur) ng
      | _ :: _ => BadSyntax                      (* unterminated group *)
      end
  | c :: rest =>
      if c =? 40 then                            (* ( *)
        match rest with
        | q :: rest1 =>
            if q =? 63 then                      (* (? *)
              match rest1 with
              | d :: rest2 =>
                  if d =? 58 then parse rest2 ng (open_frame None) (cur :: stack)
                  else Unsupported
              | [] => BadSyntax
              end
            else parse rest (S ng) (open_frame (Some (S ng))) (cur :: stack)
        | [] => BadSyntax                        (* unterminated group *)
        end
      else if c =? 41 then                       (* ) *)
        match stack with
        | parent :: stack' => parse rest ng (push_term (close_group cur) parent) stack'
        | [] => BadSyntax                        (* unmatched ) *)
        end
      else if c =? 124 then                      (* | *)
        parse rest ng
          {| f_cap := f_cap cur; f_alts := Some (disjunction cur); f_cur := [] |}
          stack
      else if c =? 42 then                       (* * *)
        match f_cur cur with
        | t :: ts =>
            if quantifiable t
            then parse rest ng
                   {| f_cap := f_cap cur; f_alts := f_alts cur; f_cur := RStar t :: ts |}
                   stack
            else BadSyntax                       (* nothing to repeat *)
        | [] => BadSyntax                        (* nothing to repeat *)
        end
      else if c =? 46 then parse rest ng (push_term RAny cur) stack
      else if c =? 94 then parse rest ng (push_term RBol cur) stack
      else if c =? 91 then                       (* [^;] *)
        match rest with
        | c1 :: c2 :: c3 :: rest' =>
            if (c1 =? 94) && (c2 =? 59) && (c3 =? 93)
            then parse rest' ng (push_term RNotSemi cur) stack
            else Unsupported
        | _ => Unsupported
        end
      else if (c =? 92) || (c =? 43) || (c =? 63) || (c =? 123) || (c =? 125)
              || (c =? 93) || (c =? 36)
      then Unsupported                           (* \ + ? { } ] $ *)
      else parse rest ng (push_term (RChar c) cur) stack
  end.

(** A compiled pattern: its syntax tree and the number of its capturing
    groups. *)
Record regexp := { rx_tree : re; rx_groups : nat }.

(** [new RegExp(pattern)].  The patterns [Cookie.get] builds stay inside
    the fragment (lemma [get_pattern_in_fragment]), so the [Unsupported]
    branch is never taken there. *)
Definition RegExp (pattern : jsstring) : completion regexp :=
  match parse pattern 0 (open_frame None) [] with
  | Parsed r n => Normal {| rx_tree := r; rx_groups := n |}
  | BadSyntax => Throw SyntaxError
  | Unsupported => Throw SyntaxError
  end.

(** The state of a match: the index reached, the input from that index
    on, and the captures of groups 1, 2, ... *)
Record mstate := {
  m_pos : nat;
  m_rest : jsstring;
  m_caps : list (option jsstring)
}.

Definition advance (x : mstate) (t : jsstring) : mstate :=
  {| m_pos := S (m_pos x); m_rest := t; m_caps := m_caps x |}.

Fixpoint set_at {A} (i : nat) (v : A) (l : list A) : list A :=
  match l, i with
  | [], _ => []
  | _ :: t, O => v :: t
  | a :: t, S i' => a :: set_at i' v t
  end.

Definition set_cap (i : nat) (v : option jsstring) (x : mstate) : mstate :=
  {| m_pos := m_pos x; m_rest := m_rest x; m_caps := set_at (pred i) v (m_caps x) |}.

(** The numbers of the capturing groups inside a term. *)
Fixpoint groups_of (r : re) : list nat :=
  match r with
  | RSeq r1 r2 | RAlt r1 r2 => groups_of r1 ++ groups_of r2
  | RStar r1 | RNonCap r1 => groups_of r1
  | RGroup i r1 => i :: groups_of r1
  | _ => []
  end.

Definition clear_caps (gs : list nat) (x : mstate) : mstate :=
  fold_left (fun y i => set_cap i None y) gs x.

Definition is_line_terminator (c : Z) : bool :=
  (c =? 10) || (c =? 13) || (c =? 8232) || (c =? 8233).

(** The rounds of a star whose body is matched by [body] and holds the
    groups [gs]: at most [n] rounds, each one resetting the captures of
    the body and consuming at least one unit, the longest run first; after
    the rounds the continuation [k] takes over. *)
Fixpoint star_rounds (body : mstate -> (mstate -> option mstate) -> option mstate)
    (gs : list nat) (k : mstate -> option mstate) (n : nat) (x : mstate)
  : option mstate :=
  match n with
  | O => k x
  | S n' =>
      match body (clear_caps gs x)
              (fun y => if (m_pos x <? m_pos y)%nat
                        then star_rounds body gs k n' y else None) with
      | Some z => Some z
      | None => k x
      end
  end.

(** The backtracking matcher of ECMAScript, in continuation-passing
    style: [rmatch r x k] matches [r] at [x] and hands every way of doing
    so, in priority order, to the continuation [k] until one succeeds.
    A star is greedy and rejects a round that consumes nothing, so the
    units left bound the number of its rounds (lemma
    [star_rounds_enough]). *)
Fixpoint rmatch (r : re) (x : mstate) (k : mstate -> option mstate) {struct r}
  : option mstate :=
  match r with
  | REmpty => k x
  | RChar c =>
      match m_rest x with
      | d :: t => if c =? d then k (advance x t) else None
      | [] => None
      end
  | RAny =>
      match m_rest x with
      | d :: t => if is_line_terminator d then None else k (advance x t)
      | [] => None
      end
  | RNotSemi =>
      match m_rest x with
      | d :: t => if d =? 59 then None else k (advance x t)
      | [] => None
      end
  | RBol => if (m_pos x =? 0)%nat then k x else None
  | RSeq r1 r2 => rmatch r1 x (fun y => rmatch r2 y k)
  | RAlt r1 r2 =>
      match rmatch r1 x k with
      | Some z => Some z
      | None => rmatch r2 x k
      end
  | RStar r1 =>
      star_rounds (rmatch r1) (groups_of r1) k (S (List.length (m_rest x))) x
  | RGroup i r1 =>
      rmatch r1 x
        (fun y => k (set_cap i (Some (firstn (m_pos y - m_pos x) (m_rest x))) y))
  | RNonCap r1 => rmatch r1 x k
  end.

(** [RegExp.prototype.exec] without the [g] flag: the first index, from
    the left, at which the pattern matches.  The result is the array of
    the match and of the captures; a group that took no part is
    [undefined] ([None]). *)
Fixpoint exec_from (rx : regexp) (pos : nat) (s : jsstring)
  : option (list (option jsstring)) :=
  match rmatch (rx_tree rx)
          {| m_pos := pos; m_rest := s; m_caps := repeat None (rx_groups rx) |}
          Some with
  | Some y => Some (Some (firstn (m_pos y - pos) s) :: m_caps y)
  | None =>
      match s with
      | [] => None
      | _ :: t => exec_from rx (S pos) t
      end
  end.

(** [s.match(rx)]. *)
Definition match_ (s : jsstring) (rx : regexp) : option (list (option jsstring)) :=
  exec_from rx 0 s.

End JS.

Import JS.

Declare Scope js_scope.
Delimit Scope js_scope with js.
Notation "x <- c ;; k" := (JS.bind c (fun x => k))
  (at level 61, c at next level, right associativity) : js_scope.

(* ================================================================== *)
(** * The browser module *)
(* ================================================================== *)

(** [BrowserInfo] and [PlatformInfo]: the objects [Search] returns. *)
Record Info := {
  string_ : jsstring;
  subString : option jsstring;
  identity : jsstring
}.

Definition Version := list Z.

(** The ambient objects the browser module reads. *)
Record Window := {
  userAgent : jsstring;            (* navigator.userAgent *)
  platform_ : jsstring;            (* navigator.platform *)
  ontouchstart : bool;             (* 'ontouchstart' in window *)
  DocumentTouch : option bool      (* window.DocumentTouch: absent, or a
                                      constructor and whether document is
                                      an instance of it *)
}.

(** What [browser.js] imports: [Search] from ./search, [compareVersion]
    from ./version, and the built-in [String.prototype.toLowerCase].
    [compareVersion] returns a boolean, as the specification says; its
    second and third arguments are elements of an array, [None] being the
    [undefined] of an absent one. *)
Class Imports := {
  Search_browser : Window -> Info;
  Search_platform : Window -> Info;
  Search_version : Window -> Info -> Version;
  compareVersion : Version -> option jsstring -> option jsstring -> bool;
  toLowerCase : jsstring -> jsstring
}.

Module Browser.
Section WithImports.
Context {I : Imports}.
Variable w : Window.

Definition currentBrowser : Info := Search_browser w.
Definition currentPlatform : Info := Search_platform w.
Definition currentVersion : Version := Search_version w currentBrowser.

Definition isMobile : bool :=
  ci_test_any
    [str "Android"; str "CriOS"; str "FxiOS"; str "webOS"; str "iPhone";
     str "iPod"; str "BlackBerry"; str "IEMobile"; str "Opera Mini"]
    (userAgent w).

Definition isIphone : bool := test (str "iPhone") (platform_ w).

Definition isAndroid : bool := test (str "Android") (userAgent w).

Definition isTablet : bool := ci_test (str "iPad") (userAgent w).

(** [(isMobile || isTablet) && ('ontouchstart' in window ||
    (window.DocumentTouch && document instanceof window.DocumentTouch))]:
    [&&] and [||] return one of their operands, so the result is a boolean
    or the [undefined] of an absent [DocumentTouch]. *)
Definition supportsTouchEvents : value :=
  if isMobile || isTablet then
    if ontouchstart w then VBool true
    else match DocumentTouch w with
         | None => VUndefined
         | Some inst => VBool inst
         end
  else VBool false.

Definition matches (query : value) : completion bool :=
  match query with
  | VStr q =>
      let result := split_ws q in
      let browser := nth_error result 0 in
      if negb (includes (toLowerCase (identity currentBrowser))
                        (toLowerCase (template browser)))
      then Normal false
      else if (List.length result <=? 1)%nat then Normal true
      else
        let operator := nth_error result 1 in
        let version := nth_error result 2 in
        Normal (compareVersion currentVersion operator version)
  | _ => Throw TypeError   (* query.split is not a function / of undefined *)
  end.

(** [lines.filter((line) => this.matches(line))], left to right; an error
    thrown by the callback ends the call. *)
Fixpoint filter_matches (lines : list value) : completion (list value) :=
  match lines with
  | [] => Normal []
  | line :: rest =>
      (b <- matches line ;;
       kept <- filter_matches rest ;;
       Normal (if b then line :: kept else kept))%js
  end.

Definition oneOf (lines : value) : completion bool :=
  match lines with
  | VUndefined => Normal false            (* lines = [] *)
  | VStr s =>
      (kept <- filter_matches [VStr s] ;; Normal (0 <? List.length kept)%nat)%js
  | VArr l =>
      (kept <- filter_matches l ;; Normal (0 <? List.length kept)%nat)%js
  | _ => Throw TypeError                  (* lines.filter is not a function *)
  end.

Definition isOutdated (supportedBrowsers : value) : completion bool :=
  (b <- oneOf supportedBrowsers ;; Normal (negb b))%js.

End WithImports.
End Browser.

(* ================================================================== *)
(** * The host of the cookie module: the clock and document.cookie *)
(* ================================================================== *)

(** What the host supplies for dates: the text [toUTCString] writes for
    a time value (milliseconds since the epoch), the date parser the user
    agent applies to an Expires attribute, and the offset of the local
    time zone, [LocalTZA(t, isUTC)] of ECMAScript: the offset in
    milliseconds at the instant [t] when [isUTC] holds, and at the local
    time [t] otherwise. *)
Class Host := {
  toUTCString : Z -> jsstring;
  parse_cookie_date : jsstring -> option Z;
  LocalTZA : Z -> bool -> Z
}.

(** A stored cookie; [c_expires] is absent for a session cookie. *)
Record cookie := {
  c_name : jsstring;
  c_value : jsstring;
  c_expires : option Z
}.

(** The ambient state: the clock read by [new Date()] and the cookie
    store behind [document.cookie].  Every cookie is held for the
    document itself: the Path, Domain, Secure and Max-Age attributes and
    the limits on size and number are outside the model. *)
Record Document := {
  now : Z;
  jar : list cookie
}.

Module Doc.
Section WithHost.
Context {H : Host}.

Definition msPerDay : Z := 86400000.

(** A cookie is expired once its expiry date is reached: a cookie that
    expires at the current instant is no longer shown. *)
Definition expired (t : Z) (c : cookie) : bool :=
  match c_expires c with
  | Some e => e <=? t
  | None => false
  end.

Definition pair_text (c : cookie) : jsstring := c_name c ++ str "=" ++ c_value c.

(** Reading [document.cookie]: the name=value pairs of the cookies that
    are not expired, joined by a semicolon and a space. *)
Definition read_cookie (d : Document) : jsstring :=
  join (str "; ") (map pair_text (filter (fun c => negb (expired (now d) c)) (jar d))).

(** [cut c s]: [s] up to its first [c], and what follows that [c] when
    there is one. *)
Fixpoint cut (c : Z) (s : jsstring) : jsstring * option jsstring :=
  match s with
  | [] => ([], None)
  | x :: t =>
      if x =? c then ([], Some t)
      else let (a, b) := cut c t in (x :: a, b)
  end.

Definition is_wsp (c : Z) : bool := (c =? 32) || (c =? 9).

Fixpoint trim_left (s : jsstring) : jsstring :=
  match s with
  | c :: t => if is_wsp c then trim_left t else s
  | [] => []
  end.

Definition trim (s : jsstring) : jsstring := rev (trim_left (rev (trim_left s))).

(** The value of a cookie-av when it is an Expires attribute whose value
    parses as a date. *)
Definition expires_av (av : jsstring) : option Z :=
  let (n, v) := cut 61 av in
  if list_eqb (map canon (trim n)) (str "EXPIRES") then
    match v with
    | Some v' => parse_cookie_date (trim v')
    | None => None
    end
  else None.

(** The expiry time of an attribute list: that of its last Expires. *)
Fixpoint expiry_of (avs : list jsstring) : option Z :=
  match avs with
  | [] => None
  | av :: rest =>
      match expiry_of rest with
      | Some t => Some t
      | None => expires_av av
      end
  end.

(** Replace the cookie of that name where it stands, or append it. *)
Fixpoint store (c : cookie) (l : list cookie) : list cookie :=
  match l with
  | [] => [c]
  | o :: rest =>
      if list_eqb (c_name o) (c_name c) then c :: rest
      else o :: store c rest
  end.

(** Writing [document.cookie], after RFC 6265, section 5.2: the text up
    to the first semicolon is the name=value pair, the rest is the
    attributes; the cookie replaces the one of the same name, and expired
    cookies are evicted.  A pair without an equals sign or with an empty
    name is ignored, as step 5 of that section asks; user agents that
    follow the later drafts keep a pair with an empty name, which only
    the empty key of the cookie module can write. *)
Definition write_cookie (s : jsstring) (d : Document) : Document :=
  let (nvp, avs) := cut 59 s in
  match cut 61 nvp with
  | (_, None) => d
  | (n, Some v) =>
      let name := trim n in
      let value := trim v in
      match name with
      | [] => d
      | _ :: _ =>
          let e := match avs with
                   | Some a => expiry_of (split_on (fun c => c =? 59) a)
                   | None => None
                   end in
          let c := {| c_name := name; c_value := value; c_expires := e |} in
          {| now := now d;
             jar := filter (fun c => negb (expired (now d) c)) (store c (jar d)) |}
      end
  end.

End WithHost.
End Doc.

(* ================================================================== *)
(** * Dates *)
(* ================================================================== *)

(** A Date object: its time value, or the NaN of an invalid date. *)
Inductive Date := Time (t : Z) | Invalid.

(** The day arithmetic of ECMAScript (Time Values and Time Range, Day
    Number and Time within Day, Year Number, Month Number, Date Number,
    MakeDay, MakeDate, TimeClip), on the integers.  A number that is NaN
    is [None]. *)
Section Dates.
Context {H : Host}.

Definition msPerDay : Z := Doc.msPerDay.

Definition Day (t : Z) : Z := t / msPerDay.

Definition TimeWithinDay (t : Z) : Z := t mod msPerDay.

Definition DaysInYear (y : Z) : Z :=
  if negb (y mod 4 =? 0) then 365
  else if negb (y mod 100 =? 0) then 366
  else if negb (y mod 400 =? 0) then 365
  else 366.

Definition DayFromYear (y : Z) : Z :=
  365 * (y - 1970) + (y - 1969) / 4 - (y - 1901) / 100 + (y - 1601) / 400.

(** The largest year that begins on or before the day of [t]: an
    estimate from the mean length of a year, put right by one year
    where needed (lemma [YearFromTime_spec]). *)
Definition YearFromTime (t : Z) : Z :=
  let y := 1970 + (Day t * 400) / 146097 in
  if Day t <? DayFromYear y then y - 1
  else if DayFromYear (y + 1) <=? Day t then y + 1
  else y.

Definition InLeapYear (t : Z) : Z :=
  if DaysInYear (YearFromTime t) =? 366 then 1 else 0.

Definition DayWithinYear (t : Z) : Z := Day t - DayFromYear (YearFromTime t).

Definition MonthFromTime (t : Z) : Z :=
  let d := DayWithinYear t in
  let l := InLeapYear t in
  if d <? 31 then 0
  else if d <? 59 + l then 1
  else if d <? 90 + l then 2
  else if d <? 120 + l then 3
  else if d <? 151 + l then 4
  else if d <? 181 + l then 5
  else if d <? 212 + l then 6
  else if d <? 243 + l then 7
  else if d <? 273 + l then 8
  else if d <? 304 + l then 9
  else if d <? 334 + l then 10
  else 11.

Definition DateFromTime (t : Z) : Z :=
  let d := DayWithinYear t in
  let l := InLeapYear t in
  let m := MonthFromTime t in
  if m =? 0 then d + 1
  else if m =? 1 then d - 30
  else if m =? 2 then d - 58 - l
  else if m =? 3 then d - 89 - l
  else if m =? 4 then d - 119 - l
  else if m =? 5 then d - 150 - l
  else if m =? 6 then d - 180 - l
  else if m =? 7 then d - 211 - l
  else if m =? 8 then d - 242 - l
  else if m =? 9 then d - 272 - l
  else if m =? 10 then d - 303 - l
  else d - 333 - l.

(** The day within a year on which the month [mn] begins, [l] being 1
    in a leap year. *)
Definition month_start (mn l : Z) : Z :=
  if mn =? 0 then 0
  else if mn =? 1 then 31
  else if mn =? 2 then 59 + l
  else if mn =? 3 then 90 + l
  else if mn =? 4 then 120 + l
  else if mn =? 5 then 151 + l
  else if mn =? 6 then 181 + l
  else if mn =? 7 then 212 + l
  else if mn =? 8 then 243 + l
  else if mn =? 9 then 273 + l
  else if mn =? 10 then 304 + l
  else 334 + l.

(** [MakeDay(year, month, date)]: the day number of the first of the
    month, plus [date - 1]. *)
Definition MakeDay (year month date : Z) : Z :=
  let ym := year + month / 12 in
  let mn := month mod 12 in
  let l := if DaysInYear ym =? 366 then 1 else 0 in
  DayFromYear ym + month_start mn l + date - 1.

Definition MakeDate (day time : Z) : Z := day * msPerDay + time.

(** [TimeClip]: a time value is at most 8.64e15 milliseconds from the
    epoch. *)
Definition TimeClip (t : Z) : Date :=
  if 8640000000000000 <? Z.abs t then Invalid else Time t.

Definition LocalTime (t : Z) : Z := t + LocalTZA t true.

Definition UTC (t : Z) : Z := t - LocalTZA t false.

(** [Date.prototype.getDate]: the day of the month in local time. *)
Definition getDate (e : Date) : option Z :=
  match e with
  | Time t => Some (DateFromTime (LocalTime t))
  | Invalid => None
  end.

(** [Date.prototype.setDate]: the day of the month is replaced in local
    time, the time within the day is kept, and the result is clipped. *)
Definition setDate (e : Date) (date : option Z) : Date :=
  match e, date with
  | Time t, Some dt =>
      let tl := LocalTime t in
      TimeClip (UTC (MakeDate (MakeDay (YearFromTime tl) (MonthFromTime tl) dt)
                       (TimeWithinDay tl)))
  | _, _ => Invalid
  end.

(** [Date.prototype.toUTCString]. *)
Definition Date_toUTCString (e : Date) : jsstring :=
  match e with
  | Time t => toUTCString t
  | Invalid => str "Invalid Date"
  end.

End Dates.

(* ================================================================== *)
(** * The cookie module *)
(* ================================================================== *)

Module Cookie.

(** A number as [Number.isInteger] sees it. *)
Inductive number := Int (n : Z) | NotInt.

(** The options object of [configure] and [set]; an absent property is
    [None].  [expires], when present, is a Date, as the documentation
    asks. *)
Record Options := {
  expires : option Date;
  path : option jsstring;
  domain : option jsstring;
  secure : option bool;
  days : option number;
  raw : option bool
}.

(** The literal [{}]. *)
Definition no_options : Options :=
  {| expires := None; path := None; domain := None; secure := None;
     days := None; raw := None |}.

Definition or_else {A} (b a : option A) : option A :=
  match b with
  | Some x => Some x
  | None => a
  end.

(** [Object.assign({}, a, b)]: a property of [b] wins over that of [a]. *)
Definition assign (a b : Options) : Options :=
  {| expires := or_else (expires b) (expires a);
     path := or_else (path b) (path a);
     domain := or_else (domain b) (domain a);
     secure := or_else (secure b) (secure a);
     days := or_else (days b) (days a);
     raw := or_else (raw b) (raw a) |}.

(** [Number.isInteger(opts.days)], with the integer when it holds. *)
Definition integer_days (o : Options) : option Z :=
  match days o with
  | Some (Int n) => Some n
  | _ => None
  end.

(** The module object: its [options] property. *)
Record Module_ := { options : Options }.

(** The module as exported, before any call. *)
Definition initial : Module_ := {| options := no_options |}.

(** [String(value)]. *)
Fixpoint ToString (v : value) : jsstring :=
  match v with
  | VUndefined => str "undefined"
  | VNull => str "null"
  | VBool true => str "true"
  | VBool false => str "false"
  | VStr s => s
  | VArr l =>
      join (str ",")
        (map (fun e => match e with
                       | VUndefined | VNull => []
                       | _ => ToString e
                       end) l)
  end.

Definition truthy_bool (b : option bool) : bool :=
  match b with
  | Some true => true
  | _ => false
  end.

Section WithHost.
Context {H : Host}.

Definition configure (opts : Options) (this : Module_) : Module_ :=
  {| options := assign no_options opts |}.

(** The body of [get(key, { defaultValue = null, raw = false } = {})],
    given what the two destructured properties read as: [defaultValue],
    which takes the default [null] when it is [undefined], and whether
    [raw] is truthy.  The call itself, with the second argument as the
    caller passes it, is [get_call] below. *)
Definition get (key : jsstring) (defaultValue : value) (raw : bool) (d : Document)
  : completion value :=
  let defaultValue := match defaultValue with VUndefined => VNull | v => v end in
  match Doc.read_cookie d with
  | [] => Normal defaultValue                     (* !document.cookie *)
  | text =>
      (k <- encodeURIComponent key ;;
       regexp <- RegExp (str "(?:^|; )" ++ k ++ str "=([^;]*)") ;;
       match match_ text regexp with
       | None => Normal defaultValue
       | Some result =>
           match nth 1 result None with
           | Some r1 => if raw then Normal (VStr r1)
                        else (v <- decodeURIComponent r1 ;; Normal (VStr v))
           | None => if raw then Normal VUndefined
                     else (v <- decodeURIComponent (str "undefined") ;; Normal (VStr v))
           end
       end)%js
  end.

(** [new Date()]: the current instant. *)
Definition new_Date (d : Document) : Date := Time (now d).

(** The first half of [set]: the merged options after the two
    adjustments, [days = -1] for the null value and, for an integer
    [days], [expires = new Date()] followed by
    [expires.setDate(expires.getDate() + days)].  The sum is taken on
    the integers: a sum that a number would round is so large that the
    date is invalid either way. *)
Definition merged (this : Module_) (value : value) (opts : Options) (d : Document)
  : Options :=
  let opts := assign (options this) opts in
  let opts :=
    match value with
    | VNull =>
        {| expires := expires opts; path := path opts; domain := domain opts;
           secure := secure opts; days := Some (Int (-1)); raw := raw opts |}
    | _ => opts
    end in
  match integer_days opts with
  | Some n =>
      let e := new_Date d in
      {| expires := Some (setDate e (option_map (fun date => date + n) (getDate e)));
         path := path opts; domain := domain opts; secure := secure opts;
         days := days opts; raw := raw opts |}
  | None => opts
  end.

(** The second half of [set]: the array [cookieBuilder]. *)
Definition cookieBuilder (safeKey safeValue : jsstring) (opts : Options)
  : list jsstring :=
  [safeKey ++ str "=" ++ safeValue]
  ++ match expires opts with
     | Some e => [str "expires=" ++ Date_toUTCString e]
     | None => []
     end
  ++ match path opts with
     | Some (c :: p) => [str "path=" ++ c :: p]
     | _ => []                               (* absent, or the empty string *)
     end
  ++ match domain opts with
     | Some (c :: p) => [str "domain=" ++ c :: p]
     | _ => []
     end
  ++ (if truthy_bool (secure opts) then [str "secure"] else []).

(** The text [set] assigns to [document.cookie]. *)
Definition cookie_text (this : Module_) (key : jsstring) (value : value)
    (opts : Options) (d : Document) : completion jsstring :=
  let value := match value with VUndefined => VNull | v => v end in
  let opts := merged this value opts d in
  (safeKey <- encodeURIComponent key ;;
   safeValue <- (if truthy_bool (raw opts) then Normal (ToString value)
                 else encodeURIComponent (ToString value)) ;;
   Normal (join (str "; ") (cookieBuilder safeKey safeValue opts)))%js.

Definition set (this : Module_) (key : jsstring) (value : value)
    (opts : Options) (d : Document) : completion Document :=
  (text <- cookie_text this key value opts d ;;
   Normal (Doc.write_cookie text d))%js.

Definition unset (this : Module_) (key : jsstring) (opts : Options) (d : Document)
  : completion Document :=
  set this key VNull opts d.

(** The second argument of [get] as the caller passes it: a value that
    carries neither property (the [undefined] of an absent argument,
    [null], a boolean, a text, a list), or an object, given by what its
    properties [defaultValue] and [raw] read as, [undefined] for one it
    does not have. *)
Inductive get_argument :=
| Passed (v : value)
| Properties (defaultValue raw : value).

(** ToBoolean. *)
Definition truthy (v : value) : bool :=
  match v with
  | VUndefined | VNull => false
  | VBool b => b
  | VStr [] => false
  | VStr (_ :: _) => true
  | VArr _ => true
  end.

(** The call [get(key, argument)]: [undefined] takes the default [{}];
    [null] cannot be destructured, which is a TypeError; any other value
    is read as an object, and a property it does not have takes its
    default. *)
Definition get_call (key : jsstring) (argument : get_argument) (d : Document)
  : completion value :=
  match argument with
  | Passed VNull => Throw TypeError
  | Passed _ => get key VUndefined false d
  | Properties defaultValue raw => get key defaultValue (truthy raw) d
  end.

End WithHost.
End Cookie.


(* ================================================================== *)
(** * The two imported modules, from their specification *)
(* ================================================================== *)

Module Search.

(** Modelled from the spec: a row of the signature table of search.js,
    which is not in the sources.  It holds the signature, a substring or
    a regular expression given by its test; the identity it stands for;
    and the version pattern kept under that signature, given by the text
    it extracts from a user-agent string. *)
Record entry := {
  e_subString : jsstring;
  e_regex : option (jsstring -> bool);
  e_identity : jsstring;
  e_version : jsstring -> option jsstring
}.

(** Modelled from the spec: the signature of a row occurs in the
    string. *)
Definition found (ua : jsstring) (e : entry) : bool :=
  match e_regex e with
  | Some t => t ua
  | None => includes ua (e_subString e)
  end.

(** Modelled from the spec: the sentinel of search.js, which is not in
    the sources.  It carries the identity unknown and no matched
    signature. *)
Definition unknown (ua : jsstring) : Info :=
  {| string_ := ua; subString := None; identity := str "unknown" |}.

(** Modelled from the spec: [identify] of search.js, which is not in the
    sources.  It scans the ordered table and returns the first row whose
    signature is found in the string, else the sentinel. *)
Definition identify (table : list entry) (ua : jsstring) : Info :=
  match find (found ua) table with
  | Some e => {| string_ := ua; subString := Some (e_subString e);
                 identity := e_identity e |}
  | None => unknown ua
  end.

(** Modelled from the spec: decimal digits read as an integer. *)
Fixpoint digits_value (acc : Z) (s : jsstring) : Z :=
  match s with
  | c :: t =>
      if (48 <=? c) && (c <=? 57) then digits_value (acc * 10 + (c - 48)) t
      else acc
  | [] => acc
  end.

(** Modelled from the spec: a component of a version text as an
    integer. *)
Definition to_int (s : jsstring) : Z := digits_value 0 s.

(** Modelled from the spec: [extractVersion] of search.js, which is not in
    the sources.  It looks up the version pattern kept under the
    signature of the browser, applies it to the user-agent string, splits
    the text found on dots and underscores and reads the pieces as
    integers; without a pattern or a match the version is empty. *)
Definition extractVersion (table : list entry) (b : Info) : Version :=
  match subString b with
  | None => []
  | Some key =>
      match find (fun e => list_eqb (e_subString e) key) table with
      | None => []
      | Some e =>
          match e_version e (string_ b) with
          | None => []
          | Some text =>
              map to_int (split_on (fun c => (c =? 46) || (c =? 95)) text)
          end
      end
  end.

End Search.

Module Version_.

(** Modelled from the spec: a version sequence against nothing, every
    missing component being 0. *)
Fixpoint compare_rest (a : Version) : comparison :=
  match a with
  | [] => Eq
  | x :: a' =>
      match x ?= 0 with
      | Eq => compare_rest a'
      | c => c
      end
  end.

(** Modelled from the spec: the order of two version sequences,
    component by component from the left, a component missing on either
    side counting as 0. *)
Fixpoint compare_components (a b : Version) : comparison :=
  match a, b with
  | [], _ => CompOpp (compare_rest b)
  | _ :: _, [] => compare_rest a
  | x :: a', y :: b' =>
      match x ?= y with
      | Eq => compare_components a' b'
      | c => c
      end
  end.

(** Modelled from the spec: the operator is the one written [name]. *)
Definition is_op (op : jsstring) (name : string) : bool := list_eqb op (str name).

(** Modelled from the spec: what each of the seven operators asks of
    the order. *)
Definition holds (op : jsstring) (c : comparison) : bool :=
  if is_op op "<" then match c with Lt => true | _ => false end
  else if is_op op "<=" then match c with Gt => false | _ => true end
  else if is_op op ">" then match c with Gt => true | _ => false end
  else if is_op op ">=" then match c with Lt => false | _ => true end
  else if is_op op "==" || is_op op "=" then match c with Eq => true | _ => false end
  else if is_op op "!=" then match c with Eq => false | _ => true end
  else false.

(** Modelled from the spec: the components of a dotted version text. *)
Definition components (expected : jsstring) : Version :=
  map Search.to_int (split_on (fun c => c =? 46) expected).

(** Modelled from the spec: [compareVersion] of version.js, which is not
    in the sources.  The expected text is split on dots and compared with
    the actual sequence component by component, left to right, missing
    components counting as 0; the operator is one of the seven of the
    specification, any other text holds of nothing. *)
Definition compareVersion (actual : Version) (operator expected : jsstring) : bool :=
  holds operator (compare_components actual (components expected)).

End Version_.

(* ================================================================== *)
(** * A reference assembly for the examples *)
(* ================================================================== *)

Module Reference.

(** [toLowerCase] on ASCII text. *)
Definition ascii_lower (s : jsstring) : jsstring :=
  map (fun c => if (65 <=? c) && (c <=? 90) then c + 32 else c) s.

(** The text that follows the first occurrence of [marker]. *)
Fixpoint after (marker s : jsstring) : option jsstring :=
  if prefixb marker s then Some (skipn (List.length marker) s)
  else match s with
       | [] => None
       | _ :: t => after marker t
       end.

Fixpoint take_while (f : Z -> bool) (s : jsstring) : jsstring :=
  match s with
  | c :: t => if f c then c :: take_while f t else []
  | [] => []
  end.

(** The dotted number that follows [marker], if any. *)
Definition version_after (marker : string) (ua : jsstring) : option jsstring :=
  match after (str marker) ua with
  | Some t =>
      match take_while (fun c => ((48 <=? c) && (c <=? 57)) || (c =? 46) || (c =? 95)) t with
      | [] => None
      | v => Some v
      end
  | None => None
  end.

Definition row (sub id marker : string) : Search.entry :=
  {| Search.e_subString := str sub; Search.e_regex := None;
     Search.e_identity := str id; Search.e_version := version_after marker |}.

(** A small signature table in the shape the specification describes. *)
Definition table : list Search.entry :=
  [row "Chrome" "Chrome" "Chrome/";
   row "Firefox" "Firefox" "Firefox/";
   row "MSIE" "Explorer" "MSIE ";
   row "Safari" "Safari" "Version/"].

Definition imports : Imports :=
  {| Search_browser := fun w => Search.identify table (userAgent w);
     Search_platform := fun w => Search.unknown (platform_ w);
     Search_version := fun _ b => Search.extractVersion table b;
     compareVersion := fun v op e =>
       match op, e with
       | Some o, Some x => Version_.compareVersion v o x
       | _, _ => false
       end;
     toLowerCase := ascii_lower |}.

(** The user agent of the documentation of [currentBrowser]. *)
Definition chrome62 : Window :=
  {| userAgent := str "Mozilla/5.0 (Macintosh; Intel Mac OS X 10_12_6) AppleWebKit/537.36 (KHTML, like Gecko) Chrome/62.0.3202.94 Safari/537.36";
     platform_ := str "MacIntel";
     ontouchstart := false;
     DocumentTouch := None |}.

Definition iphone : Window :=
  {| userAgent := str "Mozilla/5.0 (iPhone; CPU iPhone OS 11_0 like Mac OS X) AppleWebKit/604.1.38 (KHTML, like Gecko) Version/11.0 Mobile/15A372 Safari/604.1";
     platform_ := str "iPhone";
     ontouchstart := true;
     DocumentTouch := None |}.

(** A desktop with a touch screen. *)
Definition touch_desktop : Window :=
  {| userAgent := userAgent chrome62;
     platform_ := str "Win32";
     ontouchstart := true;
     DocumentTouch := None |}.

(** ** A host for the dates: RFC 1123 text, as [toUTCString] writes it *)

Definition two_digits (n : Z) : jsstring := [48 + n / 10; 48 + n mod 10].

Definition four_digits (n : Z) : jsstring :=
  [48 + n / 1000; 48 + (n / 100) mod 10; 48 + (n / 10) mod 10; 48 + n mod 10].

Definition day_names : list string :=
  ["Sun"; "Mon"; "Tue"; "Wed"; "Thu"; "Fri"; "Sat"]%string.

Definition month_names : list string :=
  ["Jan"; "Feb"; "Mar"; "Apr"; "May"; "Jun";
   "Jul"; "Aug"; "Sep"; "Oct"; "Nov"; "Dec"]%string.

(** The civil date (year, month, day) of a day number counted from
    1 January 1970. *)
Definition civil_from_days (days : Z) : Z * Z * Z :=
  let z := days + 719468 in
  let era := z / 146097 in
  let doe := z - era * 146097 in
  let yoe := (doe - doe / 1460 + doe / 36524 - doe / 146096) / 365 in
  let doy := doe - (365 * yoe + yoe / 4 - yoe / 100) in
  let mp := (5 * doy + 2) / 153 in
  let d := doy - (153 * mp + 2) / 5 + 1 in
  let m := if mp <? 10 then mp + 3 else mp - 9 in
  let y := yoe + era * 400 in
  (if m <=? 2 then y + 1 else y, m, d).

Definition days_from_civil (y m d : Z) : Z :=
  let y' := if m <=? 2 then y - 1 else y in
  let era := y' / 400 in
  let yoe := y' - era * 400 in
  let doy := (153 * (if 2 <? m then m - 3 else m + 9) + 2) / 5 + d - 1 in
  let doe := yoe * 365 + yoe / 4 - yoe / 100 + doy in
  era * 146097 + doe - 719468.

(** [Date.prototype.toUTCString] of a time value. *)
Definition utc_text (t : Z) : jsstring :=
  let days := t / 86400000 in
  let ms := t mod 86400000 in
  let '(y, m, d) := civil_from_days days in
  str (nth (Z.to_nat ((days + 4) mod 7)) day_names ""%string) ++ str ", "
  ++ two_digits d ++ str " "
  ++ str (nth (Z.to_nat (m - 1)) month_names ""%string) ++ str " "
  ++ four_digits y ++ str " "
  ++ two_digits (ms / 3600000) ++ str ":"
  ++ two_digits ((ms / 60000) mod 60) ++ str ":"
  ++ two_digits ((ms / 1000) mod 60) ++ str " GMT".

Definition digit (c : Z) : option Z :=
  if (48 <=? c) && (c <=? 57) then Some (c - 48) else None.

Fixpoint number (acc : Z) (s : jsstring) : option Z :=
  match s with
  | [] => Some acc
  | c :: t =>
      match digit c with
      | Some d => number (acc * 10 + d) t
      | None => None
      end
  end.

Fixpoint month_number (name : jsstring) (names : list string) (i : Z) : option Z :=
  match names with
  | [] => None
  | n :: rest => if list_eqb name (str n) then Some i else month_number name rest (i + 1)
  end.

(** The reading of a date in that layout:
    day name, comma, day, month name, year, time, GMT. *)
Definition read_utc_text (s : jsstring) : option Z :=
  match s with
  | _ :: _ :: _ :: 44 :: 32 :: d1 :: d2 :: 32 :: m1 :: m2 :: m3 :: 32 ::
    y1 :: y2 :: y3 :: y4 :: 32 :: h1 :: h2 :: 58 :: i1 :: i2 :: 58 ::
    s1 :: s2 :: 32 :: 71 :: 77 :: 84 :: [] =>
      match number 0 [d1; d2], month_number [m1; m2; m3] month_names 1,
            number 0 [y1; y2; y3; y4], number 0 [h1; h2], number 0 [i1; i2],
            number 0 [s1; s2] with
      | Some d, Some m, Some y, Some h, Some i, Some sec =>
          Some ((days_from_civil y m d * 86400 + h * 3600 + i * 60 + sec) * 1000)
      | _, _, _, _, _, _ => None
      end
  | _ => None
  end.

(** A host in the zone of Greenwich: local time is universal time. *)
Definition host : Host :=
  {| toUTCString := utc_text; parse_cookie_date := read_utc_text;
     LocalTZA := fun _ _ => 0 |}.

(** The instant of the documentation of [unset]. *)
Definition instant : Z := 1513853859000.

(** A host in a zone that is two hours ahead of Greenwich until twelve
    hours after that instant, and one hour ahead from then on: the clocks
    go back. *)
Definition autumn_host : Host :=
  {| toUTCString := utc_text; parse_cookie_date := read_utc_text;
     LocalTZA := fun t isUTC =>
       let change := instant + 12 * 3600000 in
       if isUTC then (if t <? change then 7200000 else 3600000)
       else (if t <? change + 7200000 then 7200000 else 3600000) |}.

End Reference.

(** Two states of the cookie store for the examples. *)
Definition empty_store : Document := {| now := Reference.instant; jar := [] |}.

Definition foo_bar_store : Document :=
  {| now := Reference.instant;
     jar := [{| c_name := str "foo"; c_value := str "bar"; c_expires := None |}] |}.

(** An unpaired surrogate: the first half of an emoji. *)
Definition half_emoji : jsstring := [55357].

Definition raw_options : Cookie.Options :=
  {| Cookie.expires := None; Cookie.path := None; Cookie.domain := None;
     Cookie.secure := None; Cookie.days := None; Cookie.raw := Some true |}.

(** Options that ask for an expiry a hundred million days away. *)
Definition far_options : Cookie.Options :=
  {| Cookie.expires := None; Cookie.path := None; Cookie.domain := None;
     Cookie.secure := None; Cookie.days := Some (Cookie.Int 100000000);
     Cookie.raw := None |}.

(** Options that ask for an expiry tomorrow. *)
Definition tomorrow_options : Cookie.Options :=
  {| Cookie.expires := None; Cookie.path := None; Cookie.domain := None;
     Cookie.secure := None; Cookie.days := Some (Cookie.Int 1);
     Cookie.raw := None |}.

Definition foo_percent_store : Document :=
  {| now := Reference.instant;
     jar := [{| c_name := str "foo"; c_value := str "%"; c_expires := None |}] |}.


(* ================================================================== *)
(** * The vocabulary of the statements *)
(* ================================================================== *)

(** A text without white space. *)
Definition no_ws (t : jsstring) : Prop := existsb is_ws t = false.

(** A text split on white space, in the words of the specification:
    the text is its pieces with a run of white space between each two;
    no piece holds white space, a run is not empty and is as long as it
    can be, so that only the first and the last piece can be empty. *)
Inductive splits : jsstring -> list jsstring -> Prop :=
| splits_last (p : jsstring) : no_ws p -> splits p [p]
| splits_more (p run q : jsstring) (ps : list jsstring) :
    no_ws p -> run <> [] -> forallb is_ws run = true ->
    splits q ps ->
    match q with
    | [] => True
    | c :: _ => is_ws c = false
    end ->
    splits (p ++ run ++ q) (p :: ps).

(** The ASCII texts, and the lower case of an ASCII letter. *)
Definition ascii (s : jsstring) : bool :=
  forallb (fun c => (0 <=? c) && (c <? 128)) s.

Definition lower (c : Z) : Z :=
  if (65 <=? c) && (c <=? 90) then c + 32 else c.

(** [toLowerCase] as it acts on ASCII text: each capital letter becomes
    its small letter and nothing else changes. *)
Definition lowers_ascii (toLowerCase : jsstring -> jsstring) : Prop :=
  forall s, ascii s = true -> toLowerCase s = map lower s.

(** [token] occurs in [text], the case of ASCII letters apart. *)
Definition occurs_ignoring_case (token text : jsstring) : Prop :=
  exists pre mid post,
    text = pre ++ mid ++ post /\ map lower mid = map lower token.

(** The answer of [matches] on a text, as a boolean. *)
Definition matches_text {I : Imports} (w : Window) (q : jsstring) : bool :=
  match Browser.matches w (VStr q) with
  | Normal b => b
  | Throw _ => false
  end.

(** The argument the documentation of [oneOf] and [isOutdated] allows: a
    query or a list of queries. *)
Inductive supported := One (q : jsstring) | Many (l : list jsstring).

Definition arg (X : supported) : value :=
  match X with
  | One q => VStr q
  | Many l => VArr (map VStr l)
  end.

Definition queries (X : supported) : list jsstring :=
  match X with
  | One q => [q]
  | Many l => l
  end.

(** The [i]-th component of a version sequence, a missing one being 0. *)
Definition component (v : Version) (i : nat) : Z := nth i v 0.

(** Two sequences with the same components. *)
Definition version_eq (a b : Version) : Prop :=
  forall i, component a i = component b i.

(** [a] is below [b] in the lexicographic order: at the first index where
    they differ, the component of [a] is the smaller. *)
Definition version_lt (a b : Version) : Prop :=
  exists i, component a i < component b i /\
            forall j, (j < i)%nat -> component a j = component b j.

(** The units [encodeURIComponent] can write: the unreserved ones and the
    percent sign. *)
Definition enc_char (c : Z) : bool := unreserved c || (c =? 37).

(** An octet. *)
Definition octet (b : Z) : Prop := 0 <= b < 256.

(** A Unicode scalar value: a code point that is not a surrogate. *)
Definition scalar (cp : Z) : Prop :=
  0 <= cp <= 1114111 /\ ~ (55296 <= cp <= 57343).

(** The units of an escape: the percent sign and the sixteen digits. *)
Definition pct_char (c : Z) : bool :=
  (c =? 37) || ((48 <=? c) && (c <=? 57)) || ((65 <=? c) && (c <=? 70)).

(** The units of an encoded text are unreserved units of the text itself
    or units of escapes. *)
Definition encoded_from (s : jsstring) (c : Z) : Prop :=
  (In c s /\ unreserved c = true) \/ pct_char c = true.

(** The units of an encoded key that the pattern language reads as
    syntax: the dot, the star and the two parentheses. *)
Definition meta (c : Z) : bool :=
  (c =? 46) || (c =? 42) || (c =? 40) || (c =? 41).

(** A key without such units: its encoding is a pattern that stands for
    itself. *)
Definition literal_key (key : jsstring) : bool :=
  forallb (fun c => negb (meta c)) key.

(** A unit of an encoded key that the pattern language reads as itself. *)
Definition plain (c : Z) : bool := enc_char c && negb (meta c).

(** The pattern of a text that stands for itself, followed by [tail]. *)
Fixpoint lit (s : jsstring) (tail : re) : re :=
  match s with
  | [] => tail
  | c :: t => RSeq (RChar c) (lit t tail)
  end.

(** The two ways a cookie pair can begin: at the start of the text, or
    after a semicolon and a space. *)
Definition pair_start : re :=
  RNonCap (RAlt (RSeq RBol REmpty) (RSeq (RChar 59) (RSeq (RChar 32) REmpty))).

(** The capturing group of the value: units other than a semicolon. *)
Definition value_group : re := RGroup 1 (RSeq (RStar RNotSemi) REmpty).

(** The syntax tree of the pattern of [Cookie.get] for an encoded key
    that stands for itself. *)
Definition cookie_pattern (k : jsstring) : regexp :=
  {| rx_tree := RSeq pair_start (lit (k ++ [61]) (RSeq value_group REmpty));
     rx_groups := 1 |}.

(** The state [n] units further on. *)
Definition skip (n : nat) (x : mstate) : mstate :=
  {| m_pos := m_pos x + n; m_rest := skipn n (m_rest x); m_caps := m_caps x |}.

(** The length of the longest prefix without a semicolon. *)
Fixpoint span (s : jsstring) : nat :=
  match s with
  | c :: t => if c =? 59 then O else S (span t)
  | [] => O
  end.

(** What the pattern of [Cookie.get] finds when a pair begins at [x]:
    the key and the equals sign must follow, and the value is the run of
    units up to the next semicolon. *)
Definition pair_at (k : jsstring) (x : mstate) : option mstate :=
  if prefixb (k ++ [61]) (m_rest x) then
    let y := skip (List.length (k ++ [61])) x in
    Some (set_cap 1 (Some (firstn (span (m_rest y)) (m_rest y)))
            (skip (span (m_rest y)) y))
  else None.

(** One attempt of the pattern at a given index of the text. *)
Definition attempt (k : jsstring) (x : mstate) : option mstate :=
  match (if (m_pos x =? 0)%nat then pair_at k x else None) with
  | Some z => Some z
  | None =>
      match m_rest x with
      | c1 :: c2 :: t =>
          if (59 =? c1) && (32 =? c2) then pair_at k (advance (advance x (c2 :: t)) t)
          else None
      | _ => None
      end
  end.

(** The unit [c] occurs in [s]. *)
Definition has (c : Z) (s : jsstring) : bool := existsb (Z.eqb c) s.

(** A cookie as the store holds it: a name that is not empty and has no
    semicolon and no equals sign, a value without a semicolon. *)
Definition cookie_ok (c : cookie) : bool :=
  negb (has 59 (c_name c)) && negb (has 61 (c_name c)) &&
  negb (has 59 (c_value c)) &&
  match c_name c with
  | [] => false
  | _ :: _ => true
  end.

Fixpoint distinct (l : list jsstring) : bool :=
  match l with
  | [] => true
  | a :: t => negb (existsb (list_eqb a) t) && distinct t
  end.

(** A cookie store: well-formed cookies, one for each name. *)
Definition jar_ok (d : Document) : bool :=
  forallb cookie_ok (jar d) && distinct (map c_name (jar d)).

(** The cookies [document.cookie] shows. *)
Definition live (d : Document) : list cookie :=
  filter (fun c => negb (Doc.expired (now d) c)) (jar d).

(** The value of the first cookie of a given name. *)
Definition lookup (name : jsstring) (l : list cookie) : option jsstring :=
  option_map c_value (find (fun c => list_eqb (c_name c) name) l).

(** The text of the cookies after the first: each one behind a semicolon
    and a space. *)
Definition rest_text (l : list cookie) : jsstring :=
  flat_map (fun c => str "; " ++ Doc.pair_text c) l.

(** The first capture of a match. *)
Definition first_capture (r : option (list (option jsstring))) : option (option jsstring) :=
  option_map (fun a => nth 1 a None) r.

(** The default of the [defaultValue] parameter of [get]. *)
Definition default_of (defaultValue : value) : value :=
  match defaultValue with
  | VUndefined => VNull
  | v => v
  end.

(** The default of the [value] parameter of [set]. *)
Definition value_of (v : value) : value :=
  match v with
  | VUndefined => VNull
  | _ => v
  end.

(** Options without a path, a domain or the secure flag. *)
Definition no_attributes (o : Cookie.Options) : bool :=
  match Cookie.path o with Some (_ :: _) => false | _ => true end &&
  match Cookie.domain o with Some (_ :: _) => false | _ => true end &&
  negb (Cookie.truthy_bool (Cookie.secure o)).

(** The default options: no attribute, no expiry, and values encoded. *)
Definition bare (o : Cookie.Options) : bool :=
  no_attributes o &&
  match Cookie.expires o with Some _ => false | None => true end &&
  match Cookie.integer_days o with Some _ => false | None => true end &&
  negb (Cookie.truthy_bool (Cookie.raw o)).

(** The attributes of a cookie text: expires, path, domain and secure,
    in this order, each behind a semicolon and a space, and each only for
    an option that is present and truthy. *)
Definition attributes {H : Host} (o : Cookie.Options) : jsstring :=
  match Cookie.expires o with
  | Some e => str "; expires=" ++ Date_toUTCString e
  | None => []
  end
  ++ match Cookie.path o with
     | Some (c :: p) => str "; path=" ++ c :: p
     | _ => []
     end
  ++ match Cookie.domain o with
     | Some (c :: p) => str "; domain=" ++ c :: p
     | _ => []
     end
  ++ (if Cookie.truthy_bool (Cookie.secure o) then str "; secure" else []).

(** The date [n] days from the current instant on the local calendar,
    at the same local time of day, when it is within the range of
    dates. *)
Definition in_days {H : Host} (d : Document) (n : Z) : Date :=
  TimeClip (UTC (LocalTime (now d) + n * msPerDay)).

(** The options [o] with the expiry [e] in place of theirs. *)
Definition expiring (o : Cookie.Options) (e : Date) : Cookie.Options :=
  {| Cookie.expires := Some e; Cookie.path := Cookie.path o;
     Cookie.domain := Cookie.domain o; Cookie.secure := Cookie.secure o;
     Cookie.days := Cookie.days o; Cookie.raw := Cookie.raw o |}.

(** [y] is [x] some units further on: what was consumed is what the
    index moved by. *)
Definition further (x y : mstate) : Prop :=
  (m_pos x <= m_pos y)%nat /\
  (List.length (m_rest y) + (m_pos y - m_pos x) = List.length (m_rest x))%nat.

(** ** Tactics *)

(** Comparisons on [Z] from booleans to propositions. *)
Ltac zbool :=
  repeat (rewrite ?andb_true_iff, ?andb_false_iff, ?orb_true_iff, ?orb_false_iff,
            ?negb_true_iff, ?negb_false_iff, ?Z.leb_le, ?Z.leb_gt, ?Z.ltb_lt,
            ?Z.ltb_ge, ?Z.eqb_eq, ?Z.eqb_neq in *).

(** Linear arithmetic with division and remainder by constants. *)
Ltac zdiv := Z.div_mod_to_equations; lia.

(* ================================================================== *)
(** * The browser module: the identity and the platform test *)
(* ================================================================== *)

From Stdlib Require DecimalString DecimalZ DecimalPos.

(** [Number.prototype.toString] of a safe integer, as
    [Array.prototype.join] applies it to the components of a version: the
    decimal digits, behind a minus sign for a negative number.  (From
    ten to the power 21 on, a number is printed with an exponent.) *)
Definition Number_toString (n : Z) : jsstring :=
  str (DecimalString.NilZero.string_of_int (Z.to_int n)).

(** A version whose components are safe integers: the whole numbers
    that a JavaScript number holds exactly. *)
Definition safe_version (v : Version) : bool :=
  forallb (fun n => (-9007199254740991 <=? n) && (n <=? 9007199254740991)) v.

(** The object the [identity] getter returns. *)
Module Identity.
Record t := {
  platform : jsstring;
  browser : jsstring;
  version : jsstring
}.
End Identity.

Module BrowserMore.
Section WithImports.
Context {I : Imports}.
Variable w : Window.

(** [platform(query = null)]: an absent query is [null], and the
    template literal turns the query into a text whatever it is. *)
Definition platform (query : value) : bool :=
  let query := match query with VUndefined => VNull | v => v end in
  includes (toLowerCase (identity (Browser.currentPlatform w)))
           (toLowerCase (Cookie.ToString query)).

(** The [identity] getter.  The current version is an array, which has a
    [join]: the other branch of the conditional is never taken. *)
Definition identity : Identity.t :=
  {| Identity.platform := identity (Browser.currentPlatform w);
     Identity.browser := identity (Browser.currentBrowser w);
     Identity.version :=
       join (str ".") (map Number_toString (Browser.currentVersion w)) |}.

End WithImports.
End BrowserMore.

(* ================================================================== *)
(** * The browser module when its imports can throw *)
(* ================================================================== *)

(** What [browser.js] imports, each call with its outcome: [Search] and
    [compareVersion] are not in the sources, and nothing in [browser.js]
    catches what they throw.  [toLowerCase] is the built-in, which
    returns on every text. *)
Class Calls := {
  call_browser : Window -> completion Info;
  call_platform : Window -> completion Info;
  call_version : Window -> Info -> completion Version;
  call_compareVersion :
    Version -> option jsstring -> option jsstring -> completion bool;
  call_toLowerCase : jsstring -> jsstring
}.

(** Imports that return: those of [Imports]. *)
Definition returning (I : Imports) : Calls :=
  {| call_browser := fun w => Normal (Search_browser w);
     call_platform := fun w => Normal (Search_platform w);
     call_version := fun w b => Normal (Search_version w b);
     call_compareVersion := fun v operator version =>
       Normal (compareVersion v operator version);
     call_toLowerCase := toLowerCase |}.

Module BrowserCalls.
Section WithCalls.
Context {C : Calls}.
Variable w : Window.

Definition currentBrowser : completion Info := call_browser w.

Definition currentVersion : completion Version :=
  (browser <- currentBrowser ;; call_version w browser)%js.

(** [matches], in the order of evaluation of the source: the split, the
    current browser for the name test, and, past the two returns, the
    current version and the comparison. *)
Definition matches (query : value) : completion bool :=
  match query with
  | VStr q =>
      let result := split_ws q in
      let browser := nth_error result 0 in
      (current <- currentBrowser ;;
       if negb (includes (call_toLowerCase (identity current))
                         (call_toLowerCase (template browser)))
       then Normal false
       else if (List.length result <=? 1)%nat then Normal true
       else
         let operator := nth_error result 1 in
         let version := nth_error result 2 in
         version_ <- currentVersion ;;
         call_compareVersion version_ operator version)%js
  | _ => Throw TypeError
  end.

Fixpoint filter_matches (lines : list value) : completion (list value) :=
  match lines with
  | [] => Normal []
  | line :: rest =>
      (b <- matches line ;;
       kept <- filter_matches rest ;;
       Normal (if b then line :: kept else kept))%js
  end.

Definition oneOf (lines : value) : completion bool :=
  match lines with
  | VUndefined => Normal false
  | VStr s =>
      (kept <- filter_matches [VStr s] ;; Normal (0 <? List.length kept)%nat)%js
  | VArr l =>
      (kept <- filter_matches l ;; Normal (0 <? List.length kept)%nat)%js
  | _ => Throw TypeError
  end.

Definition isOutdated (supportedBrowsers : value) : completion bool :=
  (b <- oneOf supportedBrowsers ;; Normal (negb b))%js.

End WithCalls.
End BrowserCalls.

(** The calls [matches] can make on the window [w] return: the current
    browser, its version, and every comparison with that version. *)
Definition imports_return {C : Calls} (w : Window) : Prop :=
  exists browser version,
    call_browser w = Normal browser /\
    call_version w browser = Normal version /\
    forall operator expected,
      exists b, call_compareVersion version operator expected = Normal b.

(** One of the calls [matches] can make on the window [w] throws [e]. *)
Definition import_throws {C : Calls} (w : Window) (e : error) : Prop :=
  call_browser w = Throw e \/
  (exists browser, call_version w browser = Throw e) \/
  (exists version operator expected,
      call_compareVersion version operator expected = Throw e).

(** An operator that is none of the seven of the specification. *)
Definition unknown_operator (op : jsstring) : bool :=
  negb (existsb (Version_.is_op op) ["<"; "<="; ">"; ">="; "=="; "="; "!="]%string).

(** Imports of which the comparison always throws. *)
Definition failing_calls : Calls :=
  {| call_browser := fun w => Normal (Search.unknown (userAgent w));
     call_platform := fun w => Normal (Search.unknown (platform_ w));
     call_version := fun _ _ => Normal [];
     call_compareVersion := fun _ _ _ => Throw TypeError;
     call_toLowerCase := Reference.ascii_lower |}.

(** ** More user agents *)

(** Chrome on an Android telephone. *)
Definition android_phone : Window :=
  {| userAgent := str "Mozilla/5.0 (Linux; Android 8.0.0; Pixel 2) AppleWebKit/537.36 (KHTML, like Gecko) Chrome/62.0.3202.84 Mobile Safari/537.36";
     platform_ := str "Linux armv8l";
     ontouchstart := true;
     DocumentTouch := None |}.

(** Options that let a cookie expire at once: no day from now. *)
Definition today_options : Cookie.Options :=
  {| Cookie.expires := None; Cookie.path := None; Cookie.domain := None;
     Cookie.secure := None; Cookie.days := Some (Cookie.Int 0);
     Cookie.raw := None |}.

(** Options that keep a cookie for a week. *)
Definition week_options : Cookie.Options :=
  {| Cookie.expires := None; Cookie.path := None; Cookie.domain := None;
     Cookie.secure := None; Cookie.days := Some (Cookie.Int 7);
     Cookie.raw := None |}.

(** The same user agent in capital letters. *)
Definition android_phone_upper : Window :=
  {| userAgent := map canon (userAgent android_phone);
     platform_ := platform_ android_phone;
     ontouchstart := ontouchstart android_phone;
     DocumentTouch := DocumentTouch android_phone |}.

(* ================================================================== *)
(** * The vocabulary of further statements *)
(* ================================================================== *)

(** The store after the host took a cookie in: the cookie replaces the
    one of its name or comes last, and what is expired goes. *)
Definition put (c : cookie) (d : Document) : Document :=
  {| now := now d;
     jar := filter (fun o => negb (Doc.expired (now d) o)) (Doc.store c (jar d)) |}.

(** Options that set the raw flag and no attribute and no expiry. *)
Definition raw_only (o : Cookie.Options) : bool :=
  no_attributes o &&
  match Cookie.expires o with Some _ => false | None => true end &&
  match Cookie.integer_days o with Some _ => false | None => true end &&
  Cookie.truthy_bool (Cookie.raw o).

(** The expiry [set] writes for a value that is not null: the date
    computed from an integer [days], else the [expires] passed. *)
Definition expiry_for {H : Host} (o : Cookie.Options) (d : Document) : option Date :=
  match Cookie.integer_days o with
  | Some n => Some (in_days d n)
  | None => Cookie.expires o
  end.

(** A cookie of another name than [k]. *)
Definition other_name (k : jsstring) (c : cookie) : bool :=
  negb (list_eqb (c_name c) k).

(** The parentheses of a text are balanced, [depth] of them being open
    where it begins. *)
Fixpoint balanced (depth : nat) (s : jsstring) : bool :=
  match s with
  | [] => (depth =? 0)%nat
  | c :: t =>
      if c =? 40 then balanced (S depth) t
      else if c =? 41 then
        match depth with
        | O => false
        | S n => balanced n t
        end
      else balanced depth t
  end.

(** The syntax tree of the pattern of [Cookie.get] for an encoded key
    made of [a], a dot and [b], both standing for themselves. *)
Definition dot_pattern (a b : jsstring) : regexp :=
  {| rx_tree :=
       RSeq pair_start
         (lit a (RSeq RAny (lit (b ++ [61]) (RSeq value_group REmpty))));
     rx_groups := 1 |}.

(** A call that throws nothing but the error [err]. *)
Definition throws_only {A} (err : error) (c : completion A) : Prop :=
  forall e, c = Throw e -> e = err.

(* ================================================================== *)
(** * Strings: what the built-ins compute *)
(* ================================================================== *)

Section StringFacts.

Lemma prefixb_app (p t : jsstring) : prefixb p (p ++ t) = true.
Proof.
  induction p as [|x p IH]; simpl; [reflexivity|].
  now rewrite Z.eqb_refl, IH.
Qed.

Lemma prefixb_spec (p s : jsstring) :
  prefixb p s = true <-> exists t, s = p ++ t.
Proof.
  split.
  - revert s; induction p as [|x p IH]; intros s Hp.
    + exists s; reflexivity.
    + destruct s as [|y s]; simpl in Hp; [discriminate|].
      apply andb_prop in Hp as [Hxy Hp].
      apply Z.eqb_eq in Hxy; subst y.
      destruct (IH _ Hp) as [t ->]. exists t; reflexivity.
  - intros [t ->]. apply prefixb_app.
Qed.

(** [includes h n] holds exactly when [n] is a substring of [h]. *)
Lemma includes_spec (h n : jsstring) :
  includes h n = true <-> exists pre post, h = pre ++ n ++ post.
Proof.
  split.
  - induction h as [|c h IH]; simpl; intros Hi.
    + rewrite orb_false_r in Hi. apply prefixb_spec in Hi as [t Ht].
      exists [], t; exact Ht.
    + apply orb_prop in Hi as [Hp | Hi].
      * apply prefixb_spec in Hp as [t Ht]. exists [], t; exact Ht.
      * destruct (IH Hi) as (pre & post & ->).
        exists (c :: pre), post; reflexivity.
  - intros (pre & post & ->).
    induction pre as [|c pre IH]; simpl.
    + destruct (n ++ post) eqn:E; simpl; rewrite <- E, prefixb_app; reflexivity.
    + rewrite IH. apply orb_true_r.
Qed.

Lemma includes_nil (h : jsstring) : includes h [] = true.
Proof. destruct h; reflexivity. Qed.

Lemma list_eqb_eq (a b : jsstring) : list_eqb a b = true <-> a = b.
Proof.
  revert b; induction a as [|x a IH]; destruct b as [|y b]; simpl;
    try (split; [discriminate | congruence]); try tauto.
  rewrite andb_true_iff, Z.eqb_eq, IH.
  split; [intros [-> ->]; reflexivity | intros E; inversion E; auto].
Qed.

Lemma list_eqb_refl (a : jsstring) : list_eqb a a = true.
Proof. now apply list_eqb_eq. Qed.

Lemma list_eqb_neq (a b : jsstring) : list_eqb a b = false <-> a <> b.
Proof.
  rewrite <- list_eqb_eq. destruct (list_eqb a b); split; congruence.
Qed.

(** ** Splitting on white space *)

Lemma existsb_rev {A} (f : A -> bool) (l : list A) :
  existsb f (rev l) = existsb f l.
Proof.
  induction l as [|a l IH]; simpl; [reflexivity|].
  rewrite existsb_app, IH. simpl.
  rewrite orb_false_r. apply orb_comm.
Qed.

Lemma split_go_nonempty b cur s : split_go b cur s <> [].
Proof.
  revert b cur; induction s as [|c s IH]; intros b cur; simpl; [discriminate|].
  destruct (is_ws c); [destruct b|]; try apply IH; discriminate.
Qed.

Lemma split_go_no_ws b cur s :
  no_ws cur -> Forall no_ws (split_go b cur s).
Proof.
  unfold no_ws.
  revert b cur; induction s as [|c s IH]; intros b cur Hc; simpl.
  - constructor; [|constructor].
    rewrite existsb_rev. exact Hc.
  - destruct (is_ws c) eqn:E.
    + destruct b; [now apply IH|].
      constructor; [now rewrite existsb_rev | now apply IH].
    + apply IH. simpl. now rewrite E.
Qed.

(** The pieces are never none, and no piece holds white space. *)
Lemma split_ws_pieces (q : jsstring) :
  exists first rest, split_ws q = first :: rest /\ Forall no_ws (first :: rest).
Proof.
  unfold split_ws.
  pose proof (split_go_nonempty false [] q) as Hn.
  pose proof (split_go_no_ws false [] q eq_refl) as Hf.
  destruct (split_go false [] q) as [|a l]; [congruence|].
  exists a, l; auto.
Qed.

Lemma split_go_word b cur (a : jsstring) :
  no_ws a -> split_go b cur a = [rev cur ++ a].
Proof.
  unfold no_ws.
  revert b cur; induction a as [|c a IH]; intros b cur Ha; simpl.
  - now rewrite app_nil_r.
  - simpl in Ha. apply orb_false_elim in Ha as [Hc Ha].
    rewrite Hc, IH by exact Ha. simpl. now rewrite <- app_assoc.
Qed.

(** A text without white space is its own single piece. *)
Lemma split_ws_word (a : jsstring) : no_ws a -> split_ws a = [a].
Proof. intros Ha. unfold split_ws. now rewrite split_go_word. Qed.

Lemma split_go_skip cur (w0 b : jsstring) :
  forallb is_ws w0 = true ->
  split_go true cur (w0 ++ b) = split_go true cur b.
Proof.
  induction w0 as [|c w0 IH]; simpl; intros Hw; [reflexivity|].
  apply andb_prop in Hw as [Hc Hw]. now rewrite Hc, IH.
Qed.

Lemma split_go_sep_start (c : Z) (b : jsstring) :
  is_ws c = false -> split_go true [] (c :: b) = split_go false [] (c :: b).
Proof. intros Hc; simpl; now rewrite Hc. Qed.

(** A word, a run of white space and a rest that begins a new word: the
    word is the first piece and the rest is split on its own. *)
Lemma split_ws_step (a w0 : jsstring) (c : Z) (b : jsstring) :
  no_ws a -> w0 <> [] -> forallb is_ws w0 = true -> is_ws c = false ->
  split_ws (a ++ w0 ++ c :: b) = a :: split_ws (c :: b).
Proof.
  unfold no_ws, split_ws. intros Ha Hw0 Hw Hc.
  assert (G : forall cur, split_go false cur (a ++ w0 ++ c :: b)
            = (rev cur ++ a) :: split_go false [] (c :: b)).
  { revert Ha. induction a as [|x a IH]; intros Ha cur.
    - simpl app at 1. destruct w0 as [|y w1]; [congruence|].
      simpl in Hw. apply andb_prop in Hw as [Hy Hw1].
      simpl. rewrite Hy, app_nil_r.
      rewrite split_go_skip by exact Hw1.
      now rewrite split_go_sep_start.
    - simpl in Ha. apply orb_false_elim in Ha as [Hx Ha].
      simpl. rewrite Hx, IH by exact Ha.
      simpl. now rewrite <- app_assoc. }
  apply (G []).
Qed.

(** A trailing run of white space leaves an empty last piece. *)
Lemma split_ws_trailing (a w0 : jsstring) :
  no_ws a -> w0 <> [] -> forallb is_ws w0 = true ->
  split_ws (a ++ w0) = [a; []].
Proof.
  unfold no_ws, split_ws. intros Ha Hw0 Hw.
  assert (G : forall cur, split_go false cur (a ++ w0) = [rev cur ++ a; []]).
  { revert Ha. induction a as [|x a IH]; intros Ha cur.
    - simpl app at 1. destruct w0 as [|y w1]; [congruence|].
      simpl in Hw. apply andb_prop in Hw as [Hy Hw1].
      simpl. rewrite Hy, app_nil_r.
      rewrite <- (app_nil_r w1), split_go_skip by exact Hw1.
      reflexivity.
    - simpl in Ha. apply orb_false_elim in Ha as [Hx Ha].
      simpl. rewrite Hx, IH by exact Ha.
      simpl. now rewrite <- app_assoc. }
  apply (G []).
Qed.

Lemma splits_nil l : splits [] l -> l = [[]].
Proof.
  intros Hs. inversion Hs as [p Hp | p run q ps Hp Hrun Hws Hq Hhead E]; subst.
  - reflexivity.
  - destruct p; [|discriminate]. destruct run; [congruence | discriminate].
Qed.

(** The specification of the split determines the pieces: they are
    those [split_ws] computes. *)
Lemma splits_split_ws (q : jsstring) (l : list jsstring) :
  splits q l -> split_ws q = l.
Proof.
  induction 1 as [p Hp | p run q ps Hp Hrun Hws Hq IH Hhead].
  - now apply split_ws_word.
  - destruct q as [|c b].
    + apply splits_nil in Hq. subst ps. rewrite app_nil_r.
      now apply split_ws_trailing.
    + rewrite <- IH. now apply split_ws_step.
Qed.

Lemma split_go_splits (s : jsstring) :
  (forall cur, no_ws (rev cur) -> splits (rev cur ++ s) (split_go false cur s)) /\
  (forall p run, no_ws p -> run <> [] -> forallb is_ws run = true ->
                 splits (p ++ run ++ s) (p :: split_go true [] s)).
Proof.
  induction s as [|c s [IHa IHb]]; split.
  - intros cur Hc. rewrite app_nil_r. now apply splits_last.
  - intros p run Hp Hrun Hws. cbn [split_go rev].
    apply splits_more; auto. now apply splits_last.
  - intros cur Hc. cbn [split_go]. destruct (is_ws c) eqn:E.
    + apply (IHb (rev cur) [c]); [exact Hc | discriminate |].
      cbn. now rewrite E.
    + replace (rev cur ++ c :: s) with (rev (c :: cur) ++ s)
        by (cbn [rev]; now rewrite <- app_assoc).
      apply IHa. unfold no_ws in *. cbn [rev].
      rewrite existsb_app, Hc. cbn. now rewrite E.
  - intros p run Hp Hrun Hws. cbn [split_go]. destruct (is_ws c) eqn:E.
    + replace (p ++ run ++ c :: s) with (p ++ (run ++ [c]) ++ s)
        by (now rewrite <- !app_assoc).
      apply IHb; [exact Hp | now destruct run |].
      rewrite forallb_app, Hws. cbn. now rewrite E.
    + apply splits_more; auto.
      apply (IHa [c]). unfold no_ws. cbn. now rewrite E.
Qed.

(** [split_ws] computes a split in the sense of the specification. *)
Lemma split_ws_splits (q : jsstring) : splits q (split_ws q).
Proof. apply (proj1 (split_go_splits q) []). reflexivity. Qed.

(** On ASCII text, to be found once both sides are lowered is to occur
    with the case of letters apart. *)
Lemma includes_lower (text token : jsstring) :
  includes (map lower text) (map lower token) = true <->
  occurs_ignoring_case token text.
Proof.
  unfold occurs_ignoring_case. rewrite includes_spec. split.
  - intros (pre & post & E).
    apply map_eq_app in E as (pre' & rest & -> & <- & E).
    apply map_eq_app in E as (mid & post' & -> & E1 & <-).
    exists pre', mid, post'. split; [reflexivity | exact E1].
  - intros (pre & mid & post & -> & E).
    exists (map lower pre), (map lower post).
    now rewrite !map_app, E.
Qed.

Example split_ws_query :
  split_ws (str "chrome  >= 43") = [str "chrome"; str ">="; str "43"].
Proof. reflexivity. Qed.

(** White space at either end leaves an empty piece there. *)
Example split_ws_padded :
  split_ws (str " chrome ") = [[]; str "chrome"; []].
Proof. reflexivity. Qed.

End StringFacts.

(* ================================================================== *)
(** * The browser module: matches, oneOf, isOutdated, touch support *)
(* ================================================================== *)

Section BrowserFacts.
Context {I : Imports}.
Variable w : Window.

(** What [matches] answers once the pieces of the query are known. *)
Lemma matches_on_pieces (q browser : jsstring) (rest : list jsstring) :
  split_ws q = browser :: rest ->
  Browser.matches w (VStr q) =
    Normal
      (if includes (toLowerCase (identity (Browser.currentBrowser w)))
                   (toLowerCase browser)
       then match rest with
            | [] => true
            | operator :: rest' =>
                compareVersion (Browser.currentVersion w) (Some operator)
                               (hd_error rest')
            end
       else false).
Proof.
  intros Hs. unfold Browser.matches. rewrite Hs. simpl.
  destruct (includes _ _); simpl; [|reflexivity].
  destruct rest as [|operator rest']; simpl; [reflexivity|].
  destruct rest'; reflexivity.
Qed.

(** C1.  [matches] on a query text.  The text is split on white space:
    its pieces are those of the one way to write it as pieces without
    white space with a run of white space, as long as can be, between
    each two.  The answer is false unless the lowered identity of the
    current browser contains the lowered first piece; with no further
    piece the answer is true on that name match alone; otherwise it is
    the answer of [compareVersion] on the current version, the second
    piece and the third piece (absent when there are only two).  With
    [toLowerCase] acting on ASCII text as the built-in does, the name
    test on an ASCII identity and an ASCII first piece holds exactly when
    the piece occurs in the identity, the case of letters apart. *)
Theorem matches_spec (q : jsstring) :
  lowers_ascii toLowerCase ->
  exists browser rest,
    splits q (browser :: rest) /\
    (forall l, splits q l -> l = browser :: rest) /\
    Browser.matches w (VStr q) =
      Normal
        (if includes (toLowerCase (identity (Browser.currentBrowser w)))
                     (toLowerCase browser)
         then match rest with
              | [] => true
              | operator :: rest' =>
                  compareVersion (Browser.currentVersion w) (Some operator)
                                 (hd_error rest')
              end
         else false) /\
    (ascii (identity (Browser.currentBrowser w)) = true -> ascii browser = true ->
     (includes (toLowerCase (identity (Browser.currentBrowser w)))
               (toLowerCase browser) = true <->
      occurs_ignoring_case browser (identity (Browser.currentBrowser w)))).
Proof.
  intros Hlow.
  destruct (split_ws_pieces q) as (browser & rest & Hs & _).
  exists browser, rest.
  split; [rewrite <- Hs; apply split_ws_splits|].
  split; [intros l Hl; apply splits_split_ws in Hl; congruence|].
  split; [now apply matches_on_pieces|].
  intros Hid Hb. rewrite (Hlow _ Hid), (Hlow _ Hb). apply includes_lower.
Qed.

(** On a text, [matches] always returns, and returns a boolean. *)
Lemma matches_returns (q : jsstring) :
  exists b, Browser.matches w (VStr q) = Normal b.
Proof.
  destruct (split_ws_pieces q) as (browser & rest & Hs & _).
  rewrite (matches_on_pieces q browser rest Hs). eauto.
Qed.

(** What is not a text has no [split]. *)
Lemma matches_not_a_text (v : value) :
  (forall q, v <> VStr q) -> Browser.matches w v = Throw TypeError.
Proof. destruct v; intros Hv; try reflexivity. now destruct (Hv s). Qed.

Lemma matches_text_eq (q : jsstring) :
  Browser.matches w (VStr q) = Normal (matches_text w q).
Proof.
  unfold matches_text. destruct (matches_returns q) as [b ->]. reflexivity.
Qed.

Lemma filter_matches_texts (l : list jsstring) :
  Browser.filter_matches w (map VStr l) = Normal (map VStr (filter (matches_text w) l)).
Proof.
  induction l as [|q l IH]; [reflexivity|].
  cbn [map Browser.filter_matches filter].
  rewrite matches_text_eq, IH. simpl.
  destruct (matches_text w q); reflexivity.
Qed.

Lemma length_pos_existsb {A} (f : A -> bool) (l : list A) :
  (0 <? List.length (filter f l))%nat = existsb f l.
Proof.
  induction l as [|a l IH]; [reflexivity|].
  simpl. destruct (f a); simpl; [reflexivity | exact IH].
Qed.

Lemma oneOf_existsb (X : supported) :
  Browser.oneOf w (arg X) = Normal (existsb (matches_text w) (queries X)).
Proof.
  destruct X as [q | l]; unfold Browser.oneOf, arg, queries.
  - change [VStr q] with (map VStr [q]).
    rewrite filter_matches_texts. unfold bind.
    now rewrite length_map, length_pos_existsb.
  - rewrite filter_matches_texts. unfold bind.
    now rewrite length_map, length_pos_existsb.
Qed.

(** [isOutdated] negates [oneOf] whatever the argument, also when
    [oneOf] throws. *)
Lemma isOutdated_negates (v : value) :
  Browser.isOutdated w v = fmap negb (Browser.oneOf w v).
Proof. reflexivity. Qed.

(** C3.  For a query or a list of queries [X], [isOutdated X] is the
    negation of [oneOf X], both return, and [oneOf X] is true exactly when
    [matches] is true of at least one query of [X], a single query being a
    list of one. *)
Theorem isOutdated_oneOf (X : supported) :
  exists b,
    Browser.oneOf w (arg X) = Normal b /\
    Browser.isOutdated w (arg X) = Normal (negb b) /\
    (b = true <->
     exists q, In q (queries X) /\ Browser.matches w (VStr q) = Normal true).
Proof.
  exists (existsb (matches_text w) (queries X)).
  split; [apply oneOf_existsb|]. split.
  - unfold Browser.isOutdated. now rewrite oneOf_existsb.
  - rewrite existsb_exists. split.
    + intros (q & Hin & Hq). exists q. split; [exact Hin|].
      now rewrite matches_text_eq, Hq.
    + intros (q & Hin & Hq). exists q. split; [exact Hin|].
      unfold matches_text. now rewrite Hq.
Qed.

(** C10.  [supportsTouchEvents] is true only on a mobile or a tablet
    user agent: the touch indicator is conjoined with those two
    predicates. *)
Theorem supportsTouchEvents_needs_mobile_or_tablet :
  Browser.supportsTouchEvents w = VBool true ->
  Browser.isMobile w = true \/ Browser.isTablet w = true.
Proof.
  unfold Browser.supportsTouchEvents.
  destruct (Browser.isMobile w); [now left|].
  destruct (Browser.isTablet w); [now right|].
  simpl. discriminate.
Qed.

(** Off mobile and tablet the answer is false whatever the touch
    indicator says. *)
Lemma supportsTouchEvents_desktop :
  Browser.isMobile w = false -> Browser.isTablet w = false ->
  Browser.supportsTouchEvents w = VBool false.
Proof.
  unfold Browser.supportsTouchEvents. now intros -> ->.
Qed.

End BrowserFacts.

Lemma matches_spec_witness :
  exists browser rest,
    splits (str "chrome  >= 43") (browser :: rest) /\
    (forall l, splits (str "chrome  >= 43") l -> l = browser :: rest) /\
    Browser.matches (I := Reference.imports) Reference.chrome62
      (VStr (str "chrome  >= 43")) =
      Normal
        (if includes
              (Reference.ascii_lower
                 (identity (Browser.currentBrowser (I := Reference.imports)
                              Reference.chrome62)))
              (Reference.ascii_lower browser)
         then match rest with
              | [] => true
              | operator :: rest' =>
                  compareVersion (Imports := Reference.imports)
                    (Browser.currentVersion (I := Reference.imports)
                       Reference.chrome62)
                    (Some operator) (hd_error rest')
              end
         else false) /\
    (ascii (identity (Browser.currentBrowser (I := Reference.imports)
                        Reference.chrome62)) = true ->
     ascii browser = true ->
     (includes
        (Reference.ascii_lower
           (identity (Browser.currentBrowser (I := Reference.imports)
                        Reference.chrome62)))
        (Reference.ascii_lower browser) = true <->
      occurs_ignoring_case browser
        (identity (Browser.currentBrowser (I := Reference.imports)
                     Reference.chrome62)))).
Proof.
  apply (matches_spec (I := Reference.imports) Reference.chrome62
           (str "chrome  >= 43")).
  intros s _. reflexivity.
Defined.

Lemma supportsTouchEvents_witness :
  Browser.supportsTouchEvents Reference.iphone = VBool true /\
  (Browser.isMobile Reference.iphone = true \/
   Browser.isTablet Reference.iphone = true).
Proof.
  split; [reflexivity|].
  apply (supportsTouchEvents_needs_mobile_or_tablet Reference.iphone).
  reflexivity.
Defined.

Example touch_desktop_unsupported :
  Browser.supportsTouchEvents Reference.touch_desktop = VBool false.
Proof. reflexivity. Qed.

Example chrome62_version :
  @Browser.currentVersion Reference.imports Reference.chrome62 = [62; 0; 3202; 94].
Proof. reflexivity. Qed.

Example chrome62_matches_chrome_43 :
  @Browser.matches Reference.imports Reference.chrome62 (VStr (str "chrome >= 43"))
  = Normal true.
Proof. reflexivity. Qed.

Example chrome62_matches_name :
  @Browser.matches Reference.imports Reference.chrome62 (VStr (str "Chrom"))
  = Normal true.
Proof. reflexivity. Qed.

Example chrome62_too_old :
  @Browser.matches Reference.imports Reference.chrome62 (VStr (str "chrome >= 63"))
  = Normal false.
Proof. reflexivity. Qed.

Example chrome62_not_explorer :
  @Browser.matches Reference.imports Reference.chrome62 (VStr (str "explorer < 6"))
  = Normal false.
Proof. reflexivity. Qed.

Example chrome62_supported :
  @Browser.isOutdated Reference.imports Reference.chrome62
    (VArr [VStr (str "explorer >= 9.0"); VStr (str "chrome >= 43");
           VStr (str "firefox >= 42"); VStr (str "safari >= 5")])
  = Normal false.
Proof. reflexivity. Qed.

Example matches_absent_query :
  @Browser.matches Reference.imports Reference.chrome62 VUndefined = Throw TypeError.
Proof. reflexivity. Qed.

(* ================================================================== *)
(** * compareVersion *)
(* ================================================================== *)

Section VersionFacts.
Import Version_.

Lemma component_nil i : component [] i = 0.
Proof. unfold component. destruct i; reflexivity. Qed.

Lemma compare_rest_eq a : compare_rest a = compare_components a [].
Proof. destruct a; reflexivity. Qed.

Lemma compare_components_nil_l b :
  compare_components [] b = CompOpp (compare_components b []).
Proof. now rewrite <- compare_rest_eq. Qed.

Lemma version_lt_cons x a y b :
  x = y -> version_lt a b -> version_lt (x :: a) (y :: b).
Proof.
  intros -> (i & Hi & Hj). exists (S i). split; [exact Hi|].
  intros [|j] Hlt; [reflexivity|]. apply Hj. lia.
Qed.

Lemma version_lt_head x a y b : x < y -> version_lt (x :: a) (y :: b).
Proof. intros H. exists O. split; [exact H|]. intros j Hj; lia. Qed.

Lemma version_eq_cons x a y b :
  x = y -> version_eq a b -> version_eq (x :: a) (y :: b).
Proof. intros -> H [|i]; [reflexivity | apply H]. Qed.

Lemma version_eq_nil_cons x a : x = 0 -> version_eq a [] -> version_eq (x :: a) [].
Proof.
  intros -> H [|i]; [reflexivity|].
  unfold version_eq, component in *. simpl. rewrite (H i). now destruct i.
Qed.

Lemma version_lt_nil_r_cons x a : x = 0 -> version_lt a [] -> version_lt (x :: a) [].
Proof.
  intros -> (i & Hi & Hj). exists (S i). unfold component in *. split.
  - simpl. now destruct i.
  - intros [|j] Hlt; [reflexivity|]. simpl.
    rewrite (Hj j) by lia. now destruct j.
Qed.

Lemma version_lt_nil_l_cons x a : x = 0 -> version_lt [] a -> version_lt [] (x :: a).
Proof.
  intros -> (i & Hi & Hj). exists (S i). unfold component in *. split.
  - simpl. now destruct i.
  - intros [|j] Hlt; [reflexivity|]. simpl.
    rewrite <- (Hj j) by lia. now destruct j.
Qed.

(** Against the empty sequence. *)
Lemma compare_nil_r_sound a :
  match compare_components a [] with
  | Eq => version_eq a []
  | Lt => version_lt a []
  | Gt => version_lt [] a
  end.
Proof.
  induction a as [|x a IH]; simpl.
  - intros i; reflexivity.
  - destruct (Z.compare_spec x 0) as [E | L | G].
    + rewrite compare_rest_eq.
      destruct (compare_components a []).
      * now apply version_eq_nil_cons.
      * now apply version_lt_nil_r_cons.
      * now apply version_lt_nil_l_cons.
    + exists O. split; [exact L | intros j Hj; lia].
    + exists O. split; [exact G | intros j Hj; lia].
Qed.

Lemma version_eq_sym a b : version_eq a b -> version_eq b a.
Proof. intros H i. symmetry. apply H. Qed.

(** The order computed is the lexicographic order of the two sequences
    padded with zeros. *)
Lemma compare_components_sound a b :
  match compare_components a b with
  | Eq => version_eq a b
  | Lt => version_lt a b
  | Gt => version_lt b a
  end.
Proof.
  revert b; induction a as [|x a IH]; intros b.
  - rewrite compare_components_nil_l.
    pose proof (compare_nil_r_sound b) as H.
    destruct (compare_components b []); simpl; auto using version_eq_sym.
  - destruct b as [|y b]; [apply compare_nil_r_sound|].
    simpl. destruct (Z.compare_spec x y) as [E | L | G].
    + specialize (IH b). destruct (compare_components a b).
      * now apply version_eq_cons.
      * now apply version_lt_cons.
      * now apply version_lt_cons.
    + now apply version_lt_head.
    + now apply version_lt_head.
Qed.

Lemma version_lt_not_eq a b : version_lt a b -> ~ version_eq a b.
Proof. intros (i & Hi & _) He. specialize (He i). lia. Qed.

Lemma version_lt_asym a b : version_lt a b -> ~ version_lt b a.
Proof.
  intros (i & Hi & Hj) (i' & Hi' & Hj').
  destruct (Nat.lt_trichotomy i i') as [L | [E | G]].
  - specialize (Hj' i L). lia.
  - subst. lia.
  - specialize (Hj i' G). lia.
Qed.

Lemma compare_components_Eq a b :
  compare_components a b = Eq <-> version_eq a b.
Proof.
  pose proof (compare_components_sound a b) as H.
  split.
  - intros E. now rewrite E in H.
  - intros He. destruct (compare_components a b); [reflexivity| |].
    + now apply version_lt_not_eq in H.
    + apply version_lt_not_eq in H. now apply version_eq_sym in He.
Qed.

Lemma compare_components_Lt a b :
  compare_components a b = Lt <-> version_lt a b.
Proof.
  pose proof (compare_components_sound a b) as H.
  split.
  - intros E. now rewrite E in H.
  - intros Hl. destruct (compare_components a b); [| reflexivity |].
    + now apply version_lt_not_eq in Hl.
    + now apply version_lt_asym in Hl.
Qed.

Lemma compare_components_Gt a b :
  compare_components a b = Gt <-> version_lt b a.
Proof.
  pose proof (compare_components_sound a b) as H.
  split.
  - intros E. now rewrite E in H.
  - intros Hl. destruct (compare_components a b); [| | reflexivity].
    + apply version_lt_not_eq in Hl. now apply version_eq_sym in H.
    + now apply version_lt_asym in Hl.
Qed.

(** C2.  [compareVersion] compares the actual sequence with the
    components of the expected dotted text from the left, a component
    missing on either side counting as 0: each of the seven operators
    holds exactly when the lexicographic order of the padded sequences
    says so.  In particular [62,0,3202,94] >= 62.0, [5,0] < 6 and
    [1,2] == 1.2.0 hold. *)
Theorem compareVersion_spec (actual : Version) (expected : jsstring) :
  let e := components expected in
  (compareVersion actual (str "<") expected = true <-> version_lt actual e) /\
  (compareVersion actual (str "<=") expected = true <->
     version_lt actual e \/ version_eq actual e) /\
  (compareVersion actual (str ">") expected = true <-> version_lt e actual) /\
  (compareVersion actual (str ">=") expected = true <->
     version_lt e actual \/ version_eq actual e) /\
  (compareVersion actual (str "==") expected = true <-> version_eq actual e) /\
  (compareVersion actual (str "=") expected = true <-> version_eq actual e) /\
  (compareVersion actual (str "!=") expected = true <-> ~ version_eq actual e) /\
  components (str "62.0") = [62; 0] /\
  components (str "1.2.0") = [1; 2; 0] /\
  compareVersion [62; 0; 3202; 94] (str ">=") (str "62.0") = true /\
  compareVersion [5; 0] (str "<") (str "6") = true /\
  compareVersion [1; 2] (str "==") (str "1.2.0") = true.
Proof.
  intros e. unfold compareVersion. fold e.
  pose proof (compare_components_Eq actual e) as HE.
  pose proof (compare_components_Lt actual e) as HL.
  pose proof (compare_components_Gt actual e) as HG.
  change (holds (str "<") (compare_components actual e))
    with (match compare_components actual e with Lt => true | _ => false end).
  change (holds (str "<=") (compare_components actual e))
    with (match compare_components actual e with Gt => false | _ => true end).
  change (holds (str ">") (compare_components actual e))
    with (match compare_components actual e with Gt => true | _ => false end).
  change (holds (str ">=") (compare_components actual e))
    with (match compare_components actual e with Lt => false | _ => true end).
  change (holds (str "==") (compare_components actual e))
    with (match compare_components actual e with Eq => true | _ => false end).
  change (holds (str "=") (compare_components actual e))
    with (match compare_components actual e with Eq => true | _ => false end).
  change (holds (str "!=") (compare_components actual e))
    with (match compare_components actual e with Eq => false | _ => true end).
  rewrite <- HE, <- HL, <- HG. clear HE HL HG.
  destruct (compare_components actual e);
    repeat split; try reflexivity; try discriminate; try tauto;
    try (intros [H | H]; discriminate);
    try (intros _ H; discriminate);
    try (intros H; exfalso; apply H; reflexivity).
Qed.

(** An operator outside the seven holds of nothing. *)
Example compareVersion_unknown_operator :
  compareVersion [1] (str "~>") (str "1") = false.
Proof. reflexivity. Qed.

End VersionFacts.

(* ================================================================== *)
(** * identify and extractVersion *)
(* ================================================================== *)

Section SearchFacts.
Import Search.

Lemma find_first {A} (f : A -> bool) (pre : list A) (e : A) (post : list A) :
  (forall x, In x pre -> f x = false) -> f e = true ->
  find f (pre ++ e :: post) = Some e.
Proof.
  induction pre as [|a pre IH]; simpl; intros Hpre He.
  - now rewrite He.
  - rewrite (Hpre a) by now left. apply IH; auto.
Qed.

Lemma find_nowhere {A} (f : A -> bool) (l : list A) :
  (forall x, In x l -> f x = false) -> find f l = None.
Proof.
  induction l as [|a l IH]; simpl; intros Hl; [reflexivity|].
  rewrite (Hl a) by now left. apply IH; auto.
Qed.

(** C9.  [identify] scans the ordered table and returns the first row
    whose signature occurs in the user-agent string: the rows before it do
    not occur.  When no row occurs it returns the unknown sentinel, and
    [extractVersion] of that result is the empty version sequence. *)
Theorem identify_spec (table : list entry) (ua : jsstring) :
  (forall pre e post,
      table = pre ++ e :: post ->
      (forall x, In x pre -> found ua x = false) ->
      found ua e = true ->
      identify table ua =
        {| string_ := ua; subString := Some (e_subString e);
           identity := e_identity e |})
  /\
  ((forall e, In e table -> found ua e = false) ->
   identify table ua = unknown ua /\
   identity (identify table ua) = str "unknown" /\
   extractVersion table (identify table ua) = []).
Proof.
  split.
  - intros pre e post -> Hpre He. unfold identify.
    now rewrite (find_first _ pre e post Hpre He).
  - intros Hnone. unfold identify.
    rewrite (find_nowhere _ table Hnone). repeat split.
Qed.

End SearchFacts.

Lemma identify_spec_witness :
  Search.identify Reference.table (str "curl/7.64.1") = Search.unknown (str "curl/7.64.1")
  /\ Search.extractVersion Reference.table
       (Search.identify Reference.table (str "curl/7.64.1")) = []
  /\ identity (Search.identify Reference.table (userAgent Reference.chrome62))
     = str "Chrome".
Proof.
  pose proof (identify_spec Reference.table (str "curl/7.64.1")) as [_ Hnone].
  pose proof (identify_spec Reference.table (userAgent Reference.chrome62)) as [Hfirst _].
  assert (Hno : forall e, In e Reference.table ->
                          Search.found (str "curl/7.64.1") e = false).
  { intros e He. simpl in He.
    repeat (destruct He as [<- | He]; [reflexivity|]). destruct He. }
  destruct (Hnone Hno) as (H1 & _ & H3).
  split; [exact H1|]. split; [exact H3|].
  rewrite (Hfirst [] (Reference.row "Chrome" "Chrome" "Chrome/")
             (tl Reference.table) eq_refl).
  - reflexivity.
  - intros x [].
  - reflexivity.
Defined.

Example extractVersion_chrome62 :
  Search.extractVersion Reference.table
    (Search.identify Reference.table (userAgent Reference.chrome62))
  = [62; 0; 3202; 94].
Proof. reflexivity. Qed.

(* ================================================================== *)
(** * encodeURIComponent and decodeURIComponent *)
(* ================================================================== *)

Section UriFacts.

Lemma well_formed_cases (P : jsstring -> Prop) :
  P [] ->
  (forall c rest,
      is_lead c = false -> is_trail c = false -> is_unit c = true ->
      well_formed rest = true -> P rest -> P (c :: rest)) ->
  (forall c d rest,
      is_lead c = true -> is_trail d = true ->
      well_formed rest = true -> P rest -> P (c :: d :: rest)) ->
  forall s, well_formed s = true -> P s.
Proof.
  intros Hnil Hone Htwo s.
  remember (List.length s) as n eqn:Hn.
  assert (Hle : (List.length s <= n)%nat) by lia. clear Hn.
  revert s Hle. induction n as [|n IH]; intros s Hle Hwf.
  - destruct s; [exact Hnil | simpl in Hle; lia].
  - destruct s as [|c rest]; [exact Hnil|].
    simpl in Hwf, Hle. destruct (is_lead c) eqn:Hl.
    + destruct rest as [|d rest']; [discriminate|].
      apply andb_prop in Hwf as [Hd Hwf]. simpl in Hle.
      apply Htwo; auto. apply IH; [lia | exact Hwf].
    + apply andb_prop in Hwf as [Hu Hwf]. apply andb_prop in Hu as [Hu Ht].
      apply negb_true_iff in Ht.
      apply Hone; auto. apply IH; [lia | exact Hwf].
Qed.

Lemma hexval_hexdigit d : 0 <= d < 16 -> hexval (hexdigit d) = Some d.
Proof.
  intros Hd. unfold hexval, hexdigit.
  destruct (Z.ltb_spec d 10).
  - replace ((48 <=? 48 + d) && (48 + d <=? 57)) with true
      by (symmetry; zbool; lia).
    f_equal; lia.
  - replace ((48 <=? 55 + d) && (55 + d <=? 57)) with false
      by (symmetry; zbool; lia).
    replace ((65 <=? 55 + d) && (55 + d <=? 70)) with true
      by (symmetry; zbool; lia).
    f_equal; lia.
Qed.

Lemma hexdigit_unreserved d : 0 <= d < 16 -> unreserved (hexdigit d) = true.
Proof.
  intros Hd. unfold unreserved, hexdigit.
  destruct (Z.ltb_spec d 10); zbool; lia.
Qed.

Lemma unreserved_ascii c : unreserved c = true -> 33 <= c <= 126 /\ c <> 37.
Proof. unfold unreserved. zbool. lia. Qed.

Lemma unescape_raw c r :
  c <> 37 -> unescape (c :: r) = bind (unescape r) (fun l => Normal (Raw c :: l)).
Proof. intros Hc. simpl. apply Z.eqb_neq in Hc. now rewrite Hc. Qed.

Lemma unescape_pct b r :
  octet b ->
  unescape (pct b ++ r) = bind (unescape r) (fun l => Normal (Octet b :: l)).
Proof.
  intros Hb. unfold octet in Hb. unfold pct.
  change (unescape ([37; hexdigit (b / 16); hexdigit (b mod 16)] ++ r))
    with (match hexval (hexdigit (b / 16)), hexval (hexdigit (b mod 16)) with
          | Some a, Some b' =>
              bind (unescape r) (fun l => Normal (Octet (16 * a + b') :: l))
          | _, _ => Throw URIError
          end).
  rewrite !hexval_hexdigit by zdiv.
  replace (16 * (b / 16) + b mod 16) with b by zdiv.
  reflexivity.
Qed.

Lemma unescape_pct_all bs r :
  Forall octet bs ->
  unescape (pct_all bs ++ r) = bind (unescape r) (fun l => Normal (map Octet bs ++ l)).
Proof.
  unfold pct_all. induction 1 as [|b bs Hb _ IH]; cbn [flat_map map app].
  - destruct (unescape r); reflexivity.
  - rewrite <- app_assoc, unescape_pct, IH by exact Hb.
    destruct (unescape r); reflexivity.
Qed.

Lemma pct_alphabet b : octet b -> Forall (fun c => enc_char c = true) (pct b).
Proof.
  intros Hb. unfold octet in Hb. unfold pct, enc_char.
  repeat constructor.
  - rewrite hexdigit_unreserved by zdiv. reflexivity.
  - rewrite hexdigit_unreserved by zdiv. reflexivity.
Qed.

Lemma pct_all_alphabet bs :
  Forall octet bs -> Forall (fun c => enc_char c = true) (pct_all bs).
Proof.
  unfold pct_all. induction 1 as [|b bs Hb _ IH]; cbn [flat_map]; [constructor|].
  apply Forall_app. split; [now apply pct_alphabet | exact IH].
Qed.

Lemma utf8_octets cp : 0 <= cp <= 1114111 -> Forall octet (utf8 cp).
Proof.
  intros Hcp. unfold utf8, octet.
  destruct (Z.ltb_spec cp 128); [repeat constructor; lia|].
  destruct (Z.ltb_spec cp 2048); [repeat constructor; zdiv|].
  destruct (Z.ltb_spec cp 65536); repeat constructor; zdiv.
Qed.

(** Reading back the octets of a scalar value gives its code units. *)
Lemma read_utf8_scalar cp l :
  scalar cp ->
  read_utf8 (map Octet (utf8 cp) ++ l)
  = bind (read_utf8 l) (fun r => Normal (utf16 cp ++ r)).
Proof.
  intros [Hr Hs]. unfold utf8.
  destruct (Z.ltb_spec cp 128) as [H1 | H1].
  { simpl. replace (cp <? 128) with true by (symmetry; zbool; lia).
    unfold utf16. replace (cp <? 65536) with true by (symmetry; zbool; lia).
    reflexivity. }
  destruct (Z.ltb_spec cp 2048) as [H2 | H2].
  { cbn [map app read_utf8].
    replace (192 + cp / 64 <? 128) with false by (symmetry; zbool; zdiv).
    replace (192 + cp / 64 <? 192) with false by (symmetry; zbool; zdiv).
    replace (192 + cp / 64 <? 224) with true by (symmetry; zbool; zdiv).
    replace ((192 + cp / 64 - 192) * 64 + (128 + cp mod 64 - 128)) with cp by zdiv.
    replace (is_cont (128 + cp mod 64)) with true
      by (symmetry; unfold is_cont; zbool; zdiv).
    replace (valid_cp 2 cp) with true
      by (symmetry; unfold valid_cp; simpl; zbool; lia).
    unfold utf16. replace (cp <? 65536) with true by (symmetry; zbool; lia).
    reflexivity. }
  destruct (Z.ltb_spec cp 65536) as [H3 | H3].
  { cbn [map app read_utf8].
    replace (224 + cp / 4096 <? 128) with false by (symmetry; zbool; zdiv).
    replace (224 + cp / 4096 <? 192) with false by (symmetry; zbool; zdiv).
    replace (224 + cp / 4096 <? 224) with false by (symmetry; zbool; zdiv).
    replace (224 + cp / 4096 <? 240) with true by (symmetry; zbool; zdiv).
    replace ((224 + cp / 4096 - 224) * 4096 + (128 + (cp / 64) mod 64 - 128) * 64
             + (128 + cp mod 64 - 128)) with cp by zdiv.
    replace (is_cont (128 + (cp / 64) mod 64)) with true
      by (symmetry; unfold is_cont; zbool; zdiv).
    replace (is_cont (128 + cp mod 64)) with true
      by (symmetry; unfold is_cont; zbool; zdiv).
    replace (valid_cp 3 cp) with true
      by (symmetry; unfold valid_cp; simpl; zbool; lia).
    unfold utf16. replace (cp <? 65536) with true by (symmetry; zbool; lia).
    reflexivity. }
  cbn [map app read_utf8].
  replace (240 + cp / 262144 <? 128) with false by (symmetry; zbool; zdiv).
  replace (240 + cp / 262144 <? 192) with false by (symmetry; zbool; zdiv).
  replace (240 + cp / 262144 <? 224) with false by (symmetry; zbool; zdiv).
  replace (240 + cp / 262144 <? 240) with false by (symmetry; zbool; zdiv).
  replace (240 + cp / 262144 <? 248) with true by (symmetry; zbool; zdiv).
  replace ((240 + cp / 262144 - 240) * 262144 + (128 + (cp / 4096) mod 64 - 128) * 4096
           + (128 + (cp / 64) mod 64 - 128) * 64 + (128 + cp mod 64 - 128))
    with cp by zdiv.
  replace (is_cont (128 + (cp / 4096) mod 64)) with true
    by (symmetry; unfold is_cont; zbool; zdiv).
  replace (is_cont (128 + (cp / 64) mod 64)) with true
    by (symmetry; unfold is_cont; zbool; zdiv).
  replace (is_cont (128 + cp mod 64)) with true
    by (symmetry; unfold is_cont; zbool; zdiv).
  replace (valid_cp 4 cp) with true
    by (symmetry; unfold valid_cp; simpl; zbool; lia).
  reflexivity.
Qed.

Lemma encode_unreserved c rest :
  unreserved c = true ->
  encodeURIComponent (c :: rest)
  = bind (encodeURIComponent rest) (fun r => Normal (c :: r)).
Proof. intros H. simpl. now rewrite H. Qed.

Lemma encode_bmp c rest :
  unreserved c = false -> is_lead c = false -> is_trail c = false ->
  encodeURIComponent (c :: rest)
  = bind (encodeURIComponent rest) (fun r => Normal (pct_all (utf8 c) ++ r)).
Proof. intros H1 H2 H3. simpl. now rewrite H1, H2, H3. Qed.

Lemma lead_not_unreserved c : is_lead c = true -> unreserved c = false.
Proof.
  intros H. destruct (unreserved c) eqn:E; [|reflexivity].
  apply unreserved_ascii in E. unfold is_lead in H. zbool. lia.
Qed.

Lemma encode_pair c d rest :
  is_lead c = true -> is_trail d = true ->
  encodeURIComponent (c :: d :: rest)
  = bind (encodeURIComponent rest)
      (fun r => Normal (pct_all (utf8 (pair_cp c d)) ++ r)).
Proof.
  intros H1 H2. cbn [encodeURIComponent].
  now rewrite (lead_not_unreserved c H1), H1, H2.
Qed.

Lemma pair_cp_scalar c d :
  is_lead c = true -> is_trail d = true ->
  scalar (pair_cp c d) /\ utf16 (pair_cp c d) = [c; d].
Proof.
  unfold is_lead, is_trail, scalar, pair_cp, utf16. intros Hc Hd. zbool.
  split; [lia|].
  replace ((c - 55296) * 1024 + (d - 56320) + 65536 <? 65536) with false
    by (symmetry; zbool; lia).
  f_equal; [zdiv | f_equal; zdiv].
Qed.

Lemma bmp_scalar c :
  is_lead c = false -> is_trail c = false -> is_unit c = true ->
  scalar c /\ utf16 c = [c].
Proof.
  unfold is_lead, is_trail, is_unit, scalar, utf16. intros H1 H2 H3. zbool.
  split; [lia|].
  replace (c <? 65536) with true by (symmetry; zbool; lia). reflexivity.
Qed.

Lemma pct_chars bs :
  Forall octet bs -> Forall (fun c => pct_char c = true) (pct_all bs).
Proof.
  unfold pct_all. induction 1 as [|b bs Hb _ IH]; cbn [flat_map]; [constructor|].
  apply Forall_app. split; [|exact IH].
  unfold octet in Hb. unfold pct, pct_char, hexdigit.
  repeat constructor.
  - destruct (Z.ltb_spec (b / 16) 10); zbool; zdiv.
  - destruct (Z.ltb_spec (b mod 16) 10); zbool; zdiv.
Qed.

Lemma pct_all_nonempty bs : bs <> [] -> pct_all bs <> [].
Proof. destruct bs; [congruence | discriminate]. Qed.

Lemma utf8_nonempty cp : utf8 cp <> [].
Proof.
  unfold utf8.
  destruct (cp <? 128), (cp <? 2048), (cp <? 65536); discriminate.
Qed.

(** The encoding of a well-formed text: it returns; undoing the escapes
    and reading the octets as UTF-8 gives the text back; the units
    written are unreserved units of the text or units of escapes; and a
    text that is not empty has an encoding that is not empty. *)
Lemma encode_well_formed s :
  well_formed s = true ->
  exists e items,
    encodeURIComponent s = Normal e /\
    unescape e = Normal items /\
    read_utf8 items = Normal s /\
    Forall (encoded_from s) e /\
    (s <> [] -> e <> []).
Proof.
  intros Hwf. pattern s. apply well_formed_cases; [| | | exact Hwf]; clear s Hwf.
  - exists [], []. repeat split; auto.
  - intros c rest Hl Ht Hu Hwf (e & items & He & Hi & Hr & Ha & _).
    destruct (unreserved c) eqn:Hun.
    + exists (c :: e), (Raw c :: items).
      rewrite encode_unreserved, He by exact Hun.
      pose proof (unreserved_ascii c Hun) as [_ H37].
      rewrite unescape_raw, Hi by exact H37.
      cbn [bind read_utf8]. rewrite Hr. repeat split; try discriminate.
      constructor.
      * left. split; [now left | exact Hun].
      * eapply Forall_impl; [|exact Ha].
        intros x [[Hx Hxu] | Hx]; [left; split; [now right | exact Hxu] | now right].
    + destruct (bmp_scalar c Hl Ht Hu) as [Hsc H16].
      assert (Hoct : Forall octet (utf8 c)) by (apply utf8_octets; apply Hsc).
      exists (pct_all (utf8 c) ++ e), (map Octet (utf8 c) ++ items).
      rewrite encode_bmp, He by assumption.
      rewrite unescape_pct_all, Hi by exact Hoct.
      cbn [bind]. rewrite read_utf8_scalar, Hr, H16 by exact Hsc.
      repeat split.
      * apply Forall_app. split.
        -- eapply Forall_impl; [|apply pct_chars; exact Hoct].
           intros x Hx. now right.
        -- eapply Forall_impl; [|exact Ha].
           intros x [[Hx Hxu] | Hx]; [left; split; [now right | exact Hxu] | now right].
      * intros _ E. apply app_eq_nil in E as [E _].
        apply pct_all_nonempty in E; [exact E | apply utf8_nonempty].
  - intros c d rest Hl Ht Hwf (e & items & He & Hi & Hr & Ha & _).
    destruct (pair_cp_scalar c d Hl Ht) as [Hsc H16].
    assert (Hoct : Forall octet (utf8 (pair_cp c d)))
      by (apply utf8_octets; apply Hsc).
    exists (pct_all (utf8 (pair_cp c d)) ++ e),
           (map Octet (utf8 (pair_cp c d)) ++ items).
    rewrite encode_pair, He by assumption.
    rewrite unescape_pct_all, Hi by exact Hoct.
    cbn [bind]. rewrite read_utf8_scalar, Hr, H16 by exact Hsc.
    repeat split.
    + apply Forall_app. split.
      * eapply Forall_impl; [|apply pct_chars; exact Hoct].
        intros x Hx. now right.
      * eapply Forall_impl; [|exact Ha].
        intros x [[Hx Hxu] | Hx];
          [left; split; [now right; right | exact Hxu] | now right].
    + intros _ E. apply app_eq_nil in E as [E _].
      apply pct_all_nonempty in E; [exact E | apply utf8_nonempty].
Qed.

(** Round trip: a well-formed text is encoded, and decoding the encoding
    gives it back. *)
Lemma decode_encode s :
  well_formed s = true ->
  exists e, encodeURIComponent s = Normal e /\ decodeURIComponent e = Normal s.
Proof.
  intros Hwf. destruct (encode_well_formed s Hwf) as (e & items & He & Hi & Hr & _).
  exists e. split; [exact He|]. unfold decodeURIComponent. now rewrite Hi.
Qed.

(** A text with an unpaired surrogate has no encoding. *)
Lemma encode_ill_formed s :
  Forall (fun c => is_unit c = true) s -> well_formed s = false ->
  encodeURIComponent s = Throw URIError.
Proof.
  remember (List.length s) as n eqn:Hn.
  assert (Hle : (List.length s <= n)%nat) by lia. clear Hn.
  revert s Hle. induction n as [|n IH]; intros s Hle Hu Hwf.
  - destruct s; [discriminate | simpl in Hle; lia].
  - destruct s as [|c rest]; [discriminate|].
    simpl in Hle. inversion Hu as [|? ? Hc Hrest]; subst.
    cbn [well_formed] in Hwf. cbn [encodeURIComponent].
    destruct (is_lead c) eqn:Hl.
    + rewrite (lead_not_unreserved c Hl).
      destruct rest as [|d rest']; [reflexivity|].
      destruct (is_trail d) eqn:Ht; [|reflexivity].
      simpl in Hwf. inversion Hrest; subst. simpl in Hle.
      rewrite IH; auto. lia.
    + rewrite Hc in Hwf. simpl in Hwf.
      destruct (is_trail c) eqn:Ht.
      * destruct (unreserved c) eqn:Hun; [|reflexivity].
        apply unreserved_ascii in Hun. unfold is_trail in Ht. zbool. lia.
      * simpl in Hwf. rewrite IH by (auto; lia).
        destruct (unreserved c); reflexivity.
Qed.

End UriFacts.

(* ================================================================== *)
(** * The pattern of Cookie.get *)
(* ================================================================== *)

Section PatternFacts.

Lemma plain_char_parsed c p ng cur stack :
  plain c = true ->
  parse (c :: p) ng cur stack = parse p ng (push_term (RChar c) cur) stack.
Proof.
  intros Hc. unfold plain, enc_char, unreserved, meta in Hc. zbool.
  cbn [parse].
  repeat match goal with
         | |- context [c =? ?k] =>
             replace (c =? k) with false by (symmetry; apply Z.eqb_neq; lia);
             cbv iota
         end.
  reflexivity.
Qed.

Lemma plain_text_parsed k p ng cur stack :
  Forall (fun c => plain c = true) k ->
  parse (k ++ p) ng cur stack
  = parse p ng
      {| f_cap := f_cap cur; f_alts := f_alts cur;
         f_cur := rev (map RChar k) ++ f_cur cur |}
      stack.
Proof.
  intros Hk. revert cur. induction Hk as [|c k Hc _ IH]; intros cur.
  - destruct cur; reflexivity.
  - cbn [app]. rewrite plain_char_parsed by exact Hc.
    rewrite IH. cbn [push_term f_cap f_alts f_cur map rev].
    now rewrite <- app_assoc.
Qed.

Lemma seq_onto_rev_lit k acc :
  fold_left (fun a t => RSeq t a) (rev (map RChar k)) acc = lit k acc.
Proof.
  induction k as [|c k IH]; [reflexivity|].
  cbn [map rev lit]. rewrite fold_left_app. cbn [fold_left]. now rewrite IH.
Qed.

Lemma lit_app a b tail : lit (a ++ b) tail = lit a (lit b tail).
Proof. induction a as [|c a IH]; [reflexivity|]. cbn [app lit]. now rewrite IH. Qed.

(** The pattern built for an encoded key that stands for itself is
    accepted and reads as [cookie_pattern]. *)
Lemma RegExp_plain k :
  Forall (fun c => plain c = true) k ->
  RegExp (str "(?:^|; )" ++ k ++ str "=([^;]*)") = Normal (cookie_pattern k).
Proof.
  intros Hk. unfold RegExp.
  change (parse (str "(?:^|; )" ++ k ++ str "=([^;]*)") 0 (open_frame None) [])
    with (parse (k ++ str "=([^;]*)") 0
            {| f_cap := None; f_alts := None; f_cur := [pair_start] |} []).
  rewrite plain_text_parsed by exact Hk.
  cbn [f_cap f_alts f_cur].
  change (parse (str "=([^;]*)") 0
            {| f_cap := None; f_alts := None;
               f_cur := rev (map RChar k) ++ [pair_start] |} [])
    with (Parsed
            (seq_of (value_group :: RChar 61 :: rev (map RChar k) ++ [pair_start]))
            1).
  unfold cookie_pattern, seq_of. cbn [fold_left].
  rewrite fold_left_app, seq_onto_rev_lit. cbn [fold_left].
  now rewrite lit_app.
Qed.

End PatternFacts.

Section MatchFacts.

Lemma skip_0 x : skip 0 x = x.
Proof. destruct x. unfold skip. cbn. now rewrite Nat.add_0_r. Qed.

Lemma skip_advance n x d t :
  m_rest x = d :: t -> skip n (advance x t) = skip (S n) x.
Proof.
  intros E. unfold skip, advance. cbn. rewrite E. cbn.
  f_equal. lia.
Qed.

Lemma rmatch_lit l tail x k :
  rmatch (lit l tail) x k
  = if prefixb l (m_rest x) then rmatch tail (skip (List.length l) x) k else None.
Proof.
  revert x. induction l as [|c l IH]; intros x.
  - cbn. now rewrite skip_0.
  - cbn [lit rmatch prefixb List.length].
    destruct (m_rest x) as [|d t] eqn:E; [reflexivity|].
    destruct (c =? d); [|reflexivity]. cbn [andb].
    rewrite IH. cbn [advance m_rest].
    now rewrite (skip_advance _ x d t E).
Qed.

(** A star of units other than a semicolon, before a continuation that
    cannot fail, takes the whole run. *)
Lemma star_not_semi k n x :
  (forall z, k z <> None) ->
  (List.length (m_rest x) < n)%nat ->
  star_rounds (rmatch RNotSemi) [] k n x = k (skip (span (m_rest x)) x).
Proof.
  intros Hk. revert x. induction n as [|n IH]; intros x Hn; [lia|].
  cbn [star_rounds clear_caps fold_left rmatch].
  destruct (m_rest x) as [|d t] eqn:E.
  - cbn [span]. now rewrite skip_0.
  - cbn [span]. destruct (d =? 59).
    + now rewrite skip_0.
    + cbn [advance m_pos].
      replace (m_pos x <? S (m_pos x))%nat with true
        by (symmetry; apply Nat.ltb_lt; lia).
      rewrite IH by (cbn; cbn in Hn; lia).
      cbn [advance m_rest]. rewrite (skip_advance _ x d t E).
      destruct (k (skip (S (span t)) x)) eqn:Ek; [reflexivity|].
      now apply Hk in Ek.
Qed.

Lemma rmatch_value_group x :
  rmatch (RSeq value_group REmpty) x Some
  = Some (set_cap 1 (Some (firstn (span (m_rest x)) (m_rest x)))
            (skip (span (m_rest x)) x)).
Proof.
  cbn [value_group rmatch groups_of].
  rewrite star_not_semi; [|discriminate | lia].
  cbn [skip m_pos].
  now replace (m_pos x + span (m_rest x) - m_pos x)%nat with (span (m_rest x)) by lia.
Qed.

(** One attempt of the pattern computes [attempt]. *)
Lemma rmatch_cookie_pattern k x :
  rmatch (rx_tree (cookie_pattern k)) x Some = attempt k x.
Proof.
  unfold attempt, pair_at.
  cbn [cookie_pattern rx_tree pair_start rmatch].
  rewrite !rmatch_lit, !rmatch_value_group.
  destruct (m_pos x =? 0)%nat.
  - destruct (prefixb (k ++ [61]) (m_rest x)); [reflexivity|].
    destruct (m_rest x) as [|c1 [|c2 t]]; try reflexivity.
    + now destruct (59 =? c1).
    + destruct (59 =? c1); [|reflexivity]. cbn [advance m_rest andb].
      destruct (32 =? c2); [|reflexivity].
      now rewrite rmatch_lit, rmatch_value_group.
  - destruct (m_rest x) as [|c1 [|c2 t]]; try reflexivity.
    + now destruct (59 =? c1).
    + destruct (59 =? c1); [|reflexivity]. cbn [advance m_rest andb].
      destruct (32 =? c2); [|reflexivity].
      now rewrite rmatch_lit, rmatch_value_group.
Qed.

End MatchFacts.

Section ScanFacts.

Lemma exec_from_eq k pos s :
  exec_from (cookie_pattern k) pos s
  = match attempt k {| m_pos := pos; m_rest := s; m_caps := [None] |} with
    | Some y => Some (Some (firstn (m_pos y - pos) s) :: m_caps y)
    | None =>
        match s with
        | [] => None
        | _ :: t => exec_from (cookie_pattern k) (S pos) t
        end
    end.
Proof.
  destruct s; cbn [exec_from]; rewrite rmatch_cookie_pattern; reflexivity.
Qed.

Lemma has_app c a b : has c (a ++ b) = has c a || has c b.
Proof. apply existsb_app. Qed.

Lemma has_cons c x s : has c (x :: s) = (c =? x) || has c s.
Proof. reflexivity. Qed.

(** Inside a pair no attempt succeeds: the index is not 0 and no
    semicolon is there. *)
Lemma scan_inside k u r pos :
  (0 < pos)%nat -> has 59 u = false ->
  exec_from (cookie_pattern k) pos (u ++ r)
  = exec_from (cookie_pattern k) (pos + List.length u) r.
Proof.
  revert pos. induction u as [|c u IH]; intros pos Hpos Hu.
  - cbn. now rewrite Nat.add_0_r.
  - rewrite has_cons in Hu. apply orb_false_elim in Hu as [Hc Hu].
    rewrite exec_from_eq. unfold attempt. cbn [m_pos m_rest app].
    replace (pos =? 0)%nat with false by (symmetry; apply Nat.eqb_neq; lia).
    rewrite Hc.
    replace (match u ++ r with
             | [] => None
             | c2 :: t => if false && (32 =? c2) then
                            pair_at k (advance (advance
                              {| m_pos := pos; m_rest := c :: u ++ r; m_caps := [None] |}
                              (c2 :: t)) t)
                          else None
             end) with (@None mstate) by (destruct (u ++ r); reflexivity).
    rewrite IH by (try lia; exact Hu).
    cbn [List.length]. f_equal. lia.
Qed.

Lemma prefix_name k n w :
  has 61 k = false -> has 61 n = false ->
  prefixb (k ++ [61]) (n ++ 61 :: w) = list_eqb n k.
Proof.
  revert n. induction k as [|b k IH]; intros n Hk Hn.
  - destruct n as [|a n]; [reflexivity|].
    rewrite has_cons in Hn. apply orb_false_elim in Hn as [Ha _].
    cbn [app prefixb list_eqb]. now rewrite Ha.
  - rewrite has_cons in Hk. apply orb_false_elim in Hk as [Hb Hk].
    destruct n as [|a n].
    + cbn [app prefixb list_eqb]. rewrite Z.eqb_sym in Hb. now rewrite Hb.
    + rewrite has_cons in Hn. apply orb_false_elim in Hn as [_ Hn].
      cbn [app prefixb list_eqb]. rewrite (Z.eqb_sym b a).
      now rewrite IH.
Qed.

Lemma span_value v r :
  has 59 v = false -> (r = [] \/ exists t, r = 59 :: t) ->
  span (v ++ r) = List.length v /\ firstn (List.length v) (v ++ r) = v.
Proof.
  intros Hv Hr. induction v as [|c v IH].
  - cbn. split; [|reflexivity].
    destruct Hr as [-> | [t ->]]; reflexivity.
  - rewrite has_cons in Hv. apply orb_false_elim in Hv as [Hc Hv].
    destruct (IH Hv) as [IH1 IH2].
    cbn [app span List.length firstn]. rewrite Z.eqb_sym in Hc.
    rewrite Hc, IH1, IH2. auto.
Qed.

Lemma rest_text_shape l : rest_text l = [] \/ exists t, rest_text l = 59 :: t.
Proof. destruct l; [now left | right; eexists; reflexivity]. Qed.

Lemma skipn_name_eq n v r :
  skipn (List.length (n ++ [61])) ((n ++ 61 :: v) ++ r) = v ++ r.
Proof.
  induction n as [|a n IH]; [reflexivity|]. cbn. exact IH.
Qed.

(** At the start of a pair the pattern succeeds exactly on the cookie of
    that name, and captures its value. *)
Lemma pair_at_cookie k c r pos :
  has 61 k = false -> cookie_ok c = true ->
  (r = [] \/ exists t, r = 59 :: t) ->
  option_map m_caps
    (pair_at k {| m_pos := pos; m_rest := Doc.pair_text c ++ r; m_caps := [None] |})
  = if list_eqb (c_name c) k then Some [Some (c_value c)] else None.
Proof.
  intros Hk Hc Hr. unfold cookie_ok in Hc. zbool.
  destruct Hc as [[[Hn59 Hn61] Hv59] Hne].
  unfold pair_at, Doc.pair_text. cbn [m_rest].
  change (str "=" ++ c_value c) with (61 :: c_value c).
  rewrite <- app_assoc. cbn [app].
  rewrite prefix_name by assumption.
  destruct (list_eqb (c_name c) k) eqn:E; [|reflexivity].
  apply list_eqb_eq in E. subst k.
  cbn [option_map skip m_rest set_cap m_caps set_at pred].
  replace (c_name c ++ 61 :: c_value c ++ r)
    with ((c_name c ++ 61 :: c_value c) ++ r)
    by (now rewrite <- app_assoc).
  rewrite skipn_name_eq.
  destruct (span_value (c_value c) r Hv59 Hr) as [-> ->].
  reflexivity.
Qed.

Lemma first_capture_exec (pos : nat) (s : jsstring) (y : mstate) :
  first_capture (Some (Some (firstn (m_pos y - pos) s) :: m_caps y))
  = Some (nth 0 (m_caps y) None).
Proof. cbn. destruct (m_caps y); reflexivity. Qed.

Lemma lookup_cons k c l :
  lookup k (c :: l) = if list_eqb (c_name c) k then Some (c_value c) else lookup k l.
Proof. unfold lookup. cbn. now destruct (list_eqb (c_name c) k). Qed.

Lemma pair_text_no_semi c : cookie_ok c = true -> has 59 (Doc.pair_text c) = false.
Proof.
  unfold cookie_ok. intros Hc. zbool. destruct Hc as [[[Hn59 _] Hv59] _].
  unfold Doc.pair_text. rewrite !has_app, Hn59, Hv59. reflexivity.
Qed.

(** After the first pair, the scan finds the first cookie of the name. *)
Lemma scan_rest k l pos :
  has 61 k = false -> forallb cookie_ok l = true -> (0 < pos)%nat ->
  first_capture (exec_from (cookie_pattern k) pos (rest_text l))
  = option_map Some (lookup k l).
Proof.
  intros Hk. revert pos. induction l as [|c l IH]; intros pos Hl Hpos.
  - cbn [rest_text flat_map]. rewrite exec_from_eq. unfold attempt. cbn [m_pos m_rest].
    replace (pos =? 0)%nat with false by (symmetry; apply Nat.eqb_neq; lia).
    reflexivity.
  - cbn [forallb] in Hl. apply andb_prop in Hl as [Hc Hl].
    cbn [rest_text flat_map]. fold (rest_text l).
    change (str "; " ++ Doc.pair_text c) with (59 :: 32 :: Doc.pair_text c).
    cbn [app]. rewrite exec_from_eq. unfold attempt. cbn [m_pos m_rest].
    replace (pos =? 0)%nat with false by (symmetry; apply Nat.eqb_neq; lia).
    cbn [andb Z.eqb Pos.eqb advance m_pos m_caps].
    pose proof (pair_at_cookie k c (rest_text l) (S (S pos)) Hk Hc
                  (rest_text_shape l)) as Hp.
    rewrite lookup_cons.
    destruct (pair_at k _) as [y|] eqn:Ey.
    + cbn [option_map] in Hp. rewrite first_capture_exec.
      destruct (list_eqb (c_name c) k); [|discriminate].
      injection Hp as ->. reflexivity.
    + cbn [option_map] in Hp.
      destruct (list_eqb (c_name c) k); [discriminate|].
      change (32 :: Doc.pair_text c ++ rest_text l)
        with ((32 :: Doc.pair_text c) ++ rest_text l).
      rewrite scan_inside; [apply IH; [exact Hl | lia] | lia |].
      rewrite has_cons. now rewrite pair_text_no_semi.
Qed.

Lemma join_pairs c l :
  join (str "; ") (map Doc.pair_text (c :: l)) = Doc.pair_text c ++ rest_text l.
Proof.
  revert c. induction l as [|b l IH]; intros c.
  - cbn. now rewrite app_nil_r.
  - cbn [map join] in *. rewrite IH.
    cbn [rest_text flat_map]. now rewrite <- app_assoc.
Qed.

Lemma pair_text_nonempty c : exists a u, Doc.pair_text c = a :: u.
Proof.
  unfold Doc.pair_text. destruct (c_name c); cbn; eauto.
Qed.

(** The pattern of [Cookie.get], run on the text of a cookie store,
    captures the value of the first cookie of that name, and fails when
    there is none. *)
Lemma match_cookie_text k l :
  has 61 k = false -> forallb cookie_ok l = true ->
  first_capture (match_ (join (str "; ") (map Doc.pair_text l)) (cookie_pattern k))
  = option_map Some (lookup k l).
Proof.
  intros Hk Hl. unfold match_. destruct l as [|c l].
  - cbn [map join]. rewrite exec_from_eq. unfold attempt, pair_at.
    cbn [m_pos m_rest Nat.eqb].
    replace (prefixb (k ++ [61]) []) with false by (destruct k; reflexivity).
    reflexivity.
  - cbn [forallb] in Hl. apply andb_prop in Hl as [Hc Hl].
    rewrite join_pairs, exec_from_eq. unfold attempt. cbn [m_pos m_rest Nat.eqb].
    pose proof (pair_at_cookie k c (rest_text l) 0 Hk Hc (rest_text_shape l)) as Hp.
    rewrite lookup_cons.
    destruct (pair_at k _) as [y|] eqn:Ey.
    + cbn [option_map] in Hp. rewrite first_capture_exec.
      destruct (list_eqb (c_name c) k); [|discriminate].
      injection Hp as ->. reflexivity.
    + cbn [option_map] in Hp.
      destruct (list_eqb (c_name c) k); [discriminate|].
      pose proof (pair_text_no_semi c Hc) as Hs.
      destruct (pair_text_nonempty c) as (a & u & Ea).
      rewrite Ea in *. rewrite has_cons in Hs.
      apply orb_false_elim in Hs as [Ha Hu].
      cbn [app]. rewrite Ha.
      replace (match u ++ rest_text l with
               | [] => None
               | c2 :: t =>
                   if false && (32 =? c2)
                   then pair_at k (advance (advance
                          {| m_pos := 0; m_rest := a :: u ++ rest_text l;
                             m_caps := [None] |} (c2 :: t)) t)
                   else None
               end) with (@None mstate)
        by (destruct (u ++ rest_text l); reflexivity).
      rewrite scan_inside by (try lia; exact Hu).
      apply scan_rest; [exact Hk | exact Hl | lia].
Qed.

End ScanFacts.

Section FragmentFacts.

Lemma suffix_in_fragment ng cur stack :
  parse (str "=([^;]*)") ng cur stack <> Unsupported.
Proof.
  change (parse (str "=([^;]*)") ng cur stack)
    with (match stack with
          | [] => Parsed (disjunction
                     (push_term (close_group
                        {| f_cap := Some (S ng); f_alts := None;
                           f_cur := [RStar RNotSemi] |})
                        (push_term (RChar 61) cur))) (S ng)
          | _ :: _ => BadSyntax
          end).
  destruct stack; discriminate.
Qed.

(** Whatever the key, the pattern [Cookie.get] builds stays inside the
    fragment: it is accepted or it is a syntax error. *)
Lemma get_pattern_in_fragment k :
  Forall (fun c => enc_char c = true) k ->
  parse (str "(?:^|; )" ++ k ++ str "=([^;]*)") 0 (open_frame None) []
  <> Unsupported.
Proof.
  intros Hk.
  change (parse (str "(?:^|; )" ++ k ++ str "=([^;]*)") 0 (open_frame None) [])
    with (parse (k ++ str "=([^;]*)") 0
            {| f_cap := None; f_alts := None; f_cur := [pair_start] |} []).
  generalize 0%nat as ng.
  generalize {| f_cap := None; f_alts := None; f_cur := [pair_start] |} as cur.
  generalize (@nil frame) as stack.
  induction Hk as [|c k Hc Hk IH]; intros stack cur ng.
  - apply suffix_in_fragment.
  - destruct (meta c) eqn:Hm.
    + unfold meta in Hm. zbool.
      destruct Hm as [[[-> | ->] | ->] | ->]; cbn [app parse Z.eqb Pos.eqb].
      * apply IH.
      * destruct (f_cur cur) as [|t ts]; [discriminate|].
        destruct (quantifiable t); [apply IH | discriminate].
      * destruct k as [|q k'].
        -- cbn [app Z.eqb Pos.eqb]. apply suffix_in_fragment.
        -- cbn [app]. inversion Hk as [|? ? Hq _]; subst.
           replace (q =? 63) with false.
           ++ apply (IH (cur :: stack) (open_frame (Some (S ng))) (S ng)).
           ++ symmetry. unfold enc_char, unreserved in Hq. zbool. lia.
      * destruct stack; [discriminate | apply IH].
    + cbn [app]. rewrite plain_char_parsed; [apply IH|].
      unfold plain. now rewrite Hc, Hm.
Qed.

End FragmentFacts.

Section FuelFacts.

Lemma further_refl x : further x x.
Proof. unfold further. lia. Qed.

Lemma further_trans x y z : further x y -> further y z -> further x z.
Proof. unfold further. lia. Qed.

Lemma further_advance x d t : m_rest x = d :: t -> further x (advance x t).
Proof.
  unfold further, advance. intros E. rewrite E.
  cbn [m_pos m_rest List.length]. lia.
Qed.

Lemma clear_caps_pos gs x :
  m_pos (clear_caps gs x) = m_pos x /\ m_rest (clear_caps gs x) = m_rest x.
Proof.
  unfold clear_caps. revert x. induction gs as [|g gs IH]; intros x; [auto|].
  cbn [fold_left]. destruct (IH (set_cap g None x)) as [-> ->]. auto.
Qed.

Lemma star_rounds_ext body gs k k' n x :
  (forall x0 c c', (forall y, further x0 y -> c y = c' y) -> body x0 c = body x0 c') ->
  (forall y, further x y -> k y = k' y) ->
  star_rounds body gs k n x = star_rounds body gs k' n x.
Proof.
  intros Hbody. revert x. induction n as [|n IH]; intros x Hk; cbn [star_rounds].
  - apply Hk, further_refl.
  - rewrite (Hk x (further_refl x)).
    destruct (clear_caps_pos gs x) as [Hp Hr].
    rewrite (Hbody (clear_caps gs x)
               (fun y => if (m_pos x <? m_pos y)%nat
                         then star_rounds body gs k n y else None)
               (fun y => if (m_pos x <? m_pos y)%nat
                         then star_rounds body gs k' n y else None));
      [reflexivity|].
    intros y Hy. destruct (m_pos x <? m_pos y)%nat; [|reflexivity].
    apply IH. intros z Hz. apply Hk.
    apply further_trans with y; [|exact Hz].
    unfold further in *. rewrite Hp, Hr in Hy. exact Hy.
Qed.

(** The matcher calls its continuation only further on in the input. *)
Lemma rmatch_ext r x k k' :
  (forall y, further x y -> k y = k' y) -> rmatch r x k = rmatch r x k'.
Proof.
  revert x k k'. induction r; intros x k k' Hk; cbn [rmatch].
  - apply Hk, further_refl.
  - destruct (m_rest x) as [|d t] eqn:E; [reflexivity|].
    destruct (c =? d); [|reflexivity]. apply Hk, (further_advance x d t E).
  - destruct (m_rest x) as [|d t] eqn:E; [reflexivity|].
    destruct (is_line_terminator d); [reflexivity|]. apply Hk, (further_advance x d t E).
  - destruct (m_rest x) as [|d t] eqn:E; [reflexivity|].
    destruct (d =? 59); [reflexivity|]. apply Hk, (further_advance x d t E).
  - destruct (m_pos x =? 0)%nat; [|reflexivity]. apply Hk, further_refl.
  - apply IHr1. intros y Hy. apply IHr2. intros z Hz.
    apply Hk. now apply further_trans with y.
  - rewrite (IHr1 x k k' Hk), (IHr2 x k k' Hk). reflexivity.
  - apply star_rounds_ext; [|exact Hk].
    intros x0 c c' Hc. now apply IHr.
  - apply IHr. intros y Hy. apply Hk. exact Hy.
  - now apply IHr.
Qed.

Lemma star_rounds_S body gs k n x :
  star_rounds body gs k (S n) x =
    match body (clear_caps gs x)
            (fun y => if (m_pos x <? m_pos y)%nat
                      then star_rounds body gs k n y else None) with
    | Some z => Some z
    | None => k x
    end.
Proof. reflexivity. Qed.

(** The bound on the rounds of a star is never met: any larger bound
    gives the same match. *)
Lemma star_rounds_enough r gs k n x :
  (List.length (m_rest x) < n)%nat ->
  star_rounds (rmatch r) gs k (S n) x = star_rounds (rmatch r) gs k n x.
Proof.
  revert x. induction n as [|n IH]; intros x Hn; [lia|].
  rewrite (star_rounds_S _ _ _ (S n)), (star_rounds_S _ _ _ n).
  destruct (clear_caps_pos gs x) as [Hp Hr].
  rewrite (rmatch_ext r (clear_caps gs x)
             (fun y => if (m_pos x <? m_pos y)%nat
                       then star_rounds (rmatch r) gs k (S n) y else None)
             (fun y => if (m_pos x <? m_pos y)%nat
                       then star_rounds (rmatch r) gs k n y else None));
    [reflexivity|].
  intros y Hy.
  destruct (m_pos x <? m_pos y)%nat eqn:E; [|reflexivity].
  apply Nat.ltb_lt in E.
  apply IH. unfold further in Hy. rewrite Hp, Hr in Hy. lia.
Qed.

End FuelFacts.

(* ================================================================== *)
(** * The cookie store *)
(* ================================================================== *)

Section StoreFacts.
Context {H : Host}.

Lemma cut_none c s : has c s = false -> Doc.cut c s = (s, None).
Proof.
  induction s as [|x s IH]; intros Hs; [reflexivity|].
  rewrite has_cons in Hs. apply orb_false_elim in Hs as [Hx Hs].
  cbn [Doc.cut]. rewrite Z.eqb_sym in Hx. now rewrite Hx, IH.
Qed.

Lemma cut_at c a b : has c a = false -> Doc.cut c (a ++ c :: b) = (a, Some b).
Proof.
  induction a as [|x a IH]; intros Ha.
  - cbn [app Doc.cut]. now rewrite Z.eqb_refl.
  - rewrite has_cons in Ha. apply orb_false_elim in Ha as [Hx Ha].
    cbn [app Doc.cut]. rewrite Z.eqb_sym in Hx. now rewrite Hx, IH.
Qed.

Lemma has_test x s : existsb (fun c => c =? x) s = has x s.
Proof.
  induction s as [|c s IH]; [reflexivity|].
  cbn [existsb]. rewrite IH, has_cons, (Z.eqb_sym x c). reflexivity.
Qed.

Lemma trim_left_id s : forallb (fun c => negb (Doc.is_wsp c)) s = true -> Doc.trim_left s = s.
Proof.
  destruct s as [|c s]; [reflexivity|]. cbn [forallb Doc.trim_left].
  intros Hs. apply andb_prop in Hs as [Hc _].
  apply negb_true_iff in Hc. now rewrite Hc.
Qed.

Lemma forallb_rev {A} (f : A -> bool) (l : list A) : forallb f (rev l) = forallb f l.
Proof.
  induction l as [|a l IH]; [reflexivity|].
  cbn [rev forallb]. rewrite forallb_app, IH. cbn. rewrite andb_true_r.
  apply andb_comm.
Qed.

(** A text without spaces and tabs is left alone by [trim]. *)
Lemma trim_id s : forallb (fun c => negb (Doc.is_wsp c)) s = true -> Doc.trim s = s.
Proof.
  intros Hs. unfold Doc.trim.
  rewrite (trim_left_id s Hs), trim_left_id by (now rewrite forallb_rev).
  apply rev_involutive.
Qed.

Lemma split_on_none (sep : Z -> bool) s :
  existsb sep s = false -> split_on sep s = [s].
Proof.
  intros Hs. unfold split_on.
  assert (G : forall cur, split_go1 sep cur s = [rev cur ++ s]).
  { induction s as [|x s IH]; intros cur.
    - cbn. now rewrite app_nil_r.
    - cbn [existsb] in Hs. apply orb_false_elim in Hs as [Hx Hs].
      cbn [split_go1]. rewrite Hx, IH by exact Hs.
      cbn [rev]. now rewrite <- app_assoc. }
  apply (G []).
Qed.

(** The units of an encoded text are no separators of a cookie. *)
Lemma enc_char_safe c :
  enc_char c = true ->
  c <> 59 /\ c <> 61 /\ Doc.is_wsp c = false.
Proof.
  unfold enc_char, unreserved, Doc.is_wsp. intros Hc. zbool. lia.
Qed.

Lemma enc_text_safe e :
  Forall (fun c => enc_char c = true) e ->
  has 59 e = false /\ has 61 e = false /\
  forallb (fun c => negb (Doc.is_wsp c)) e = true.
Proof.
  induction 1 as [|c e Hc _ (I1 & I2 & I3)]; [repeat split|].
  destruct (enc_char_safe c Hc) as (H59 & H61 & Hw).
  rewrite !has_cons, I1, I2. cbn [forallb]. rewrite Hw, I3.
  apply Z.eqb_neq in H59, H61. rewrite (Z.eqb_sym 59 c), (Z.eqb_sym 61 c), H59, H61.
  repeat split.
Qed.

(** Writing name=value, both encoded, stores a session cookie of that
    name and value. *)
Lemma write_pair k v d :
  Forall (fun c => enc_char c = true) k -> Forall (fun c => enc_char c = true) v ->
  k <> [] ->
  Doc.write_cookie (k ++ str "=" ++ v) d
  = {| now := now d;
       jar := filter (fun c => negb (Doc.expired (now d) c))
                (Doc.store {| c_name := k; c_value := v; c_expires := None |} (jar d)) |}.
Proof.
  intros Hk Hv Hne.
  destruct (enc_text_safe k Hk) as (K59 & K61 & Kw).
  destruct (enc_text_safe v Hv) as (V59 & V61 & Vw).
  unfold Doc.write_cookie.
  rewrite cut_none
    by (rewrite !has_app, K59, V59; reflexivity).
  change (str "=" ++ v) with (61 :: v).
  rewrite cut_at by exact K61.
  rewrite !trim_id by assumption.
  destruct k; [congruence | reflexivity].
Qed.

(** Writing name=value with an Expires attribute that the host reads as
    the instant [t] stores a cookie that expires at [t]. *)
Lemma write_pair_expires k v date t d :
  Forall (fun c => enc_char c = true) k -> Forall (fun c => enc_char c = true) v ->
  k <> [] -> has 59 date = false ->
  parse_cookie_date (Doc.trim date) = Some t ->
  Doc.write_cookie (k ++ str "=" ++ v ++ str "; expires=" ++ date) d
  = {| now := now d;
       jar := filter (fun c => negb (Doc.expired (now d) c))
                (Doc.store {| c_name := k; c_value := v; c_expires := Some t |} (jar d)) |}.
Proof.
  intros Hk Hv Hne Hd Ht.
  destruct (enc_text_safe k Hk) as (K59 & K61 & Kw).
  destruct (enc_text_safe v Hv) as (V59 & V61 & Vw).
  unfold Doc.write_cookie.
  replace (k ++ str "=" ++ v ++ str "; expires=" ++ date)
    with ((k ++ str "=" ++ v) ++ 59 :: (str " expires=" ++ date))
    by (now rewrite <- !app_assoc).
  rewrite cut_at by (rewrite !has_app, K59, V59; reflexivity).
  change (str "=" ++ v) with (61 :: v).
  rewrite cut_at by exact K61.
  rewrite !trim_id by assumption.
  rewrite split_on_none.
  2:{ change (existsb (fun c => c =? 59) (str " expires=" ++ date))
        with (existsb (fun c => c =? 59) date).
      now rewrite has_test. }
  cbn [Doc.expiry_of]. unfold Doc.expires_av.
  change (Doc.cut 61 (str " expires=" ++ date))
    with (let (a, b) := Doc.cut 61 (61 :: date) in (str " expires" ++ a, b)).
  cbn [Doc.cut Z.eqb Pos.eqb app].
  change (list_eqb (map canon (Doc.trim (str " expires" ++ []))) (str "EXPIRES")) with true.
  cbv iota. rewrite Ht.
  destruct k; [congruence | reflexivity].
Qed.

Lemma list_eqb_sym a b : list_eqb a b = list_eqb b a.
Proof.
  destruct (list_eqb a b) eqn:E.
  - apply list_eqb_eq in E. subst. symmetry. apply list_eqb_refl.
  - symmetry. apply list_eqb_neq. apply list_eqb_neq in E. congruence.
Qed.

Lemma lookup_store_kept (f : cookie -> bool) c l :
  f c = true ->
  lookup (c_name c) (filter f (Doc.store c l)) = Some (c_value c).
Proof.
  intros Hc. induction l as [|o l IH]; cbn [Doc.store].
  - cbn [filter]. rewrite Hc. rewrite lookup_cons. now rewrite list_eqb_refl.
  - destruct (list_eqb (c_name o) (c_name c)) eqn:E.
    + cbn [filter]. rewrite Hc, lookup_cons. now rewrite list_eqb_refl.
    + cbn [filter]. destruct (f o); [|exact IH].
      rewrite lookup_cons, E. exact IH.
Qed.

Lemma lookup_absent (f : cookie -> bool) k l :
  existsb (list_eqb k) (map c_name l) = false ->
  lookup k (filter f l) = None.
Proof.
  induction l as [|o l IH]; [reflexivity|].
  cbn [map existsb filter]. intros Hk. apply orb_false_elim in Hk as [Ho Hl].
  destruct (f o); [|now apply IH].
  rewrite lookup_cons, list_eqb_sym, Ho. now apply IH.
Qed.

Lemma lookup_store_dropped (f : cookie -> bool) c l :
  f c = false -> distinct (map c_name l) = true ->
  lookup (c_name c) (filter f (Doc.store c l)) = None.
Proof.
  intros Hc. induction l as [|o l IH]; cbn [Doc.store map distinct]; intros Hd.
  - cbn [filter]. now rewrite Hc.
  - apply andb_prop in Hd as [Ho Hd]. apply negb_true_iff in Ho.
    destruct (list_eqb (c_name o) (c_name c)) eqn:E.
    + cbn [filter]. rewrite Hc. apply lookup_absent.
      apply list_eqb_eq in E. now rewrite <- E.
    + cbn [filter]. destruct (f o); [|now apply IH].
      rewrite lookup_cons, E. now apply IH.
Qed.

Lemma filter_filter {A} (f : A -> bool) (l : list A) :
  filter f (filter f l) = filter f l.
Proof.
  induction l as [|a l IH]; [reflexivity|].
  cbn [filter]. destruct (f a) eqn:E; [|exact IH].
  cbn [filter]. now rewrite E, IH.
Qed.

Lemma forallb_filter {A} (p f : A -> bool) (l : list A) :
  forallb p l = true -> forallb p (filter f l) = true.
Proof.
  induction l as [|a l IH]; [reflexivity|].
  cbn [forallb filter]. intros Hl. apply andb_prop in Hl as [Ha Hl].
  destruct (f a); [cbn [forallb]; now rewrite Ha, IH | now apply IH].
Qed.

Lemma forallb_store (p : cookie -> bool) c l :
  p c = true -> forallb p l = true -> forallb p (Doc.store c l) = true.
Proof.
  intros Hc. induction l as [|o l IH]; cbn [Doc.store forallb].
  - now rewrite Hc.
  - intros Hl. apply andb_prop in Hl as [Ho Hl].
    destruct (list_eqb (c_name o) (c_name c)); cbn [forallb].
    + now rewrite Hc, Hl.
    + now rewrite Ho, IH.
Qed.

Lemma live_ok d : jar_ok d = true -> forallb cookie_ok (live d) = true.
Proof.
  unfold jar_ok, live. intros Hd. apply andb_prop in Hd as [Hd _].
  now apply forallb_filter.
Qed.

Lemma read_cookie_live d :
  Doc.read_cookie d = join (str "; ") (map Doc.pair_text (live d)).
Proof. reflexivity. Qed.

Lemma encoded_enc_char s e :
  Forall (encoded_from s) e -> Forall (fun c => enc_char c = true) e.
Proof.
  intros He. eapply Forall_impl; [|exact He].
  intros c [[_ Hu] | Hp]; unfold enc_char.
  - now rewrite Hu.
  - unfold pct_char in Hp. unfold unreserved. zbool. lia.
Qed.

Lemma encoded_plain s e :
  literal_key s = true -> Forall (encoded_from s) e ->
  Forall (fun c => plain c = true) e.
Proof.
  intros Hs He. unfold literal_key in Hs. rewrite forallb_forall in Hs.
  eapply Forall_impl; [|exact He].
  intros c [[Hin Hu] | Hp]; unfold plain, enc_char.
  - rewrite Hu, (Hs c Hin). reflexivity.
  - unfold pct_char in Hp. unfold unreserved, meta. zbool.
    split; [lia|]. lia.
Qed.

(** [get] with a key that stands for itself as a pattern: the lookup of
    the encoded key among the cookies shown. *)
Lemma get_literal key dv raw d :
  well_formed key = true -> literal_key key = true ->
  forallb cookie_ok (live d) = true ->
  exists k,
    encodeURIComponent key = Normal k /\
    Cookie.get key dv raw d =
      match lookup k (live d) with
      | None => Normal (default_of dv)
      | Some v =>
          if raw then Normal (VStr v)
          else fmap VStr (decodeURIComponent v)
      end.
Proof.
  intros Hwf Hlit Hok.
  destruct (encode_well_formed key Hwf) as (k & items & Hk & _ & _ & Ha & _).
  exists k. split; [exact Hk|].
  pose proof (encoded_enc_char _ _ Ha) as Henc.
  destruct (enc_text_safe k Henc) as (_ & K61 & _).
  pose proof (match_cookie_text k (live d) K61 Hok) as Hm.
  rewrite <- read_cookie_live in Hm.
  unfold Cookie.get. fold (default_of dv).
  destruct (Doc.read_cookie d) as [|a u] eqn:Er.
  - rewrite read_cookie_live in Er.
    destruct (live d) as [|c l]; [reflexivity|].
    rewrite join_pairs in Er.
    destruct (pair_text_nonempty c) as (a & u & Ea).
    rewrite Ea in Er. discriminate.
  - rewrite Hk. cbn [bind].
    rewrite (RegExp_plain k (encoded_plain _ _ Hlit Ha)). cbn [bind].
    destruct (match_ (a :: u) (cookie_pattern k)) as [result|];
      destruct (lookup k (live d)) as [v|]; cbn [first_capture option_map] in Hm;
      try discriminate; [|reflexivity].
    injection Hm as ->. reflexivity.
Qed.

(** On an empty cookie text [get] returns the default, whatever the
    key. *)
Lemma get_empty key dv raw d :
  Doc.read_cookie d = [] -> Cookie.get key dv raw d = Normal (default_of dv).
Proof. intros E. unfold Cookie.get. now rewrite E. Qed.

(** ** The store keeps its shape *)

Lemma has_rev c s : has c (rev s) = has c s.
Proof. apply existsb_rev. Qed.

Lemma has_trim_left c s : has c s = false -> has c (Doc.trim_left s) = false.
Proof.
  induction s as [|x s IH]; [reflexivity|].
  cbn [Doc.trim_left]. intros Hs. destruct (Doc.is_wsp x); [|exact Hs].
  rewrite has_cons in Hs. apply orb_false_elim in Hs as [_ Hs]. now apply IH.
Qed.

Lemma has_trim c s : has c s = false -> has c (Doc.trim s) = false.
Proof.
  intros Hs. unfold Doc.trim. rewrite has_rev.
  apply has_trim_left. rewrite has_rev. now apply has_trim_left.
Qed.

Lemma cut_before c s : has c (fst (Doc.cut c s)) = false.
Proof.
  induction s as [|x s IH]; [reflexivity|].
  cbn [Doc.cut]. destruct (x =? c) eqn:E; [reflexivity|].
  destruct (Doc.cut c s) as [a b]. cbn [fst] in *.
  rewrite has_cons, IH, Z.eqb_sym, E. reflexivity.
Qed.

Lemma cut_keeps c c' s :
  has c' s = false ->
  has c' (fst (Doc.cut c s)) = false /\
  match snd (Doc.cut c s) with
  | Some b => has c' b = false
  | None => True
  end.
Proof.
  induction s as [|x s IH]; intros Hs; [split; [reflexivity | exact I]|].
  rewrite has_cons in Hs. apply orb_false_elim in Hs as [Hx Hs].
  cbn [Doc.cut]. destruct (x =? c); [split; [reflexivity | exact Hs]|].
  destruct (IH Hs) as [I1 I2].
  destruct (Doc.cut c s) as [a b]. cbn [fst snd] in *.
  now rewrite has_cons, Hx, I1.
Qed.

Lemma absent_store a c l :
  list_eqb a (c_name c) = false ->
  existsb (list_eqb a) (map c_name l) = false ->
  existsb (list_eqb a) (map c_name (Doc.store c l)) = false.
Proof.
  intros Hc. induction l as [|o l IH]; cbn [Doc.store map existsb].
  - intros _. now rewrite Hc.
  - intros Hl. apply orb_false_elim in Hl as [Ho Hl].
    destruct (list_eqb (c_name o) (c_name c)); cbn [map existsb].
    + now rewrite Hc, Hl.
    + now rewrite Ho, IH.
Qed.

Lemma distinct_store c l :
  distinct (map c_name l) = true -> distinct (map c_name (Doc.store c l)) = true.
Proof.
  induction l as [|o l IH]; [reflexivity|].
  cbn [Doc.store map distinct]. intros Hl. apply andb_prop in Hl as [Ho Hl].
  apply negb_true_iff in Ho.
  destruct (list_eqb (c_name o) (c_name c)) eqn:E; cbn [map distinct].
  - apply list_eqb_eq in E. now rewrite <- E, Ho, Hl.
  - rewrite absent_store, IH by assumption. reflexivity.
Qed.

Lemma absent_filter (f : cookie -> bool) a l :
  existsb (list_eqb a) (map c_name l) = false ->
  existsb (list_eqb a) (map c_name (filter f l)) = false.
Proof.
  induction l as [|o l IH]; [reflexivity|].
  cbn [map existsb filter]. intros Hl. apply orb_false_elim in Hl as [Ho Hl].
  destruct (f o); cbn [map existsb]; [now rewrite Ho, IH | now apply IH].
Qed.

Lemma distinct_filter (f : cookie -> bool) l :
  distinct (map c_name l) = true -> distinct (map c_name (filter f l)) = true.
Proof.
  induction l as [|o l IH]; [reflexivity|].
  cbn [map distinct filter]. intros Hl. apply andb_prop in Hl as [Ho Hl].
  apply negb_true_iff in Ho.
  destruct (f o); cbn [map distinct]; [|now apply IH].
  now rewrite absent_filter, IH.
Qed.

(** Whatever text is written, the store stays well formed. *)
Lemma write_cookie_ok s d : jar_ok d = true -> jar_ok (Doc.write_cookie s d) = true.
Proof.
  intros Hd. unfold Doc.write_cookie.
  pose proof (cut_before 59 s) as Hnvp.
  destruct (Doc.cut 59 s) as [nvp avs]. cbn [fst] in Hnvp.
  pose proof (cut_before 61 nvp) as Hn61.
  pose proof (cut_keeps 61 59 nvp Hnvp) as [Hn59 Hv59].
  destruct (Doc.cut 61 nvp) as [n [v|]]; [|exact Hd]. cbn [fst snd] in *.
  destruct (Doc.trim n) as [|x name] eqn:En; [exact Hd|].
  unfold jar_ok in *. apply andb_prop in Hd as [Hok Hdis]. cbn [jar].
  apply andb_true_intro. split.
  - apply forallb_filter, forallb_store; [|exact Hok].
    pose proof (has_trim 59 n Hn59) as T59.
    pose proof (has_trim 61 n Hn61) as T61.
    pose proof (has_trim 59 v Hv59) as V59.
    rewrite En in T59, T61.
    unfold cookie_ok. cbn [c_name c_value]. now rewrite T59, T61, V59.
  - now apply distinct_filter, distinct_store.
Qed.

End StoreFacts.

(* ================================================================== *)
(** * Dates: moving a date by days *)
(* ================================================================== *)

Section DateFacts.
Context {H : Host}.

(** [YearFromTime] is the year of ECMAScript: the largest one that
    begins on or before the day. *)
Lemma YearFromTime_spec t :
  DayFromYear (YearFromTime t) <= Day t < DayFromYear (YearFromTime t + 1).
Proof.
  unfold YearFromTime. set (day := Day t). clearbody day. cbv zeta.
  destruct (Z.ltb_spec day (DayFromYear (1970 + day * 400 / 146097))).
  - unfold DayFromYear in *. zdiv.
  - destruct (Z.leb_spec (DayFromYear (1970 + day * 400 / 146097 + 1)) day);
      unfold DayFromYear in *; zdiv.
Qed.

Lemma MonthFromTime_range t : 0 <= MonthFromTime t <= 11.
Proof.
  unfold MonthFromTime. cbv zeta.
  repeat match goal with |- context [if ?b then _ else _] => destruct b end; lia.
Qed.

(** The day number of the date of [t] moved by [n] days within its
    month, overflowing into the months around it, is the day of [t]
    plus [n]. *)
Lemma MakeDay_moved t n :
  MakeDay (YearFromTime t) (MonthFromTime t) (DateFromTime t + n) = Day t + n.
Proof.
  unfold MakeDay. cbv zeta.
  pose proof (MonthFromTime_range t) as Hm.
  replace (MonthFromTime t / 12) with 0 by zdiv.
  replace (MonthFromTime t mod 12) with (MonthFromTime t) by zdiv.
  rewrite Z.add_0_r. fold (InLeapYear t).
  unfold DateFromTime, month_start. cbv zeta.
  unfold DayWithinYear.
  repeat match goal with |- context [if ?b then _ else _] => destruct b end; lia.
Qed.

Lemma MakeDate_moved t n :
  MakeDate (MakeDay (YearFromTime t) (MonthFromTime t) (DateFromTime t + n))
    (TimeWithinDay t)
  = t + n * msPerDay.
Proof.
  rewrite MakeDay_moved.
  unfold MakeDate, Day, TimeWithinDay, msPerDay, Doc.msPerDay. zdiv.
Qed.

(** [e.setDate(e.getDate() + n)] on the current instant. *)
Lemma setDate_getDate d n :
  setDate (Cookie.new_Date d)
    (option_map (fun date => date + n) (getDate (Cookie.new_Date d)))
  = in_days d n.
Proof.
  unfold Cookie.new_Date, getDate, setDate, in_days. cbn [option_map]. cbv zeta.
  now rewrite MakeDate_moved.
Qed.

Lemma TimeClip_in_range t :
  Z.abs t <= 8640000000000000 -> TimeClip t = Time t.
Proof.
  intros Ht. unfold TimeClip.
  now replace (8640000000000000 <? Z.abs t) with false by (symmetry; zbool; lia).
Qed.

Lemma TimeClip_out_of_range t :
  8640000000000000 < Z.abs t -> TimeClip t = Invalid.
Proof.
  intros Ht. unfold TimeClip.
  now replace (8640000000000000 <? Z.abs t) with true by (symmetry; zbool; lia).
Qed.

(** In a zone whose offset never changes, the date in [n] days is [n]
    times 24 hours away. *)
Lemma in_days_fixed_zone d n z :
  (forall t b, LocalTZA t b = z) ->
  Z.abs (now d + n * msPerDay) <= 8640000000000000 ->
  in_days d n = Time (now d + n * msPerDay).
Proof.
  intros Hz Hr. unfold in_days, UTC, LocalTime. rewrite !Hz.
  replace (now d + z + n * msPerDay - z) with (now d + n * msPerDay) by lia.
  now apply TimeClip_in_range.
Qed.

(** One day back is in the past, wherever the offset of the zone
    changes by less than a day. *)
Lemma in_days_yesterday d :
  (forall t t', Z.abs (LocalTZA t true - LocalTZA t' false) < msPerDay) ->
  Z.abs (now d) <= 8640000000000000 - 2 * msPerDay ->
  exists u, in_days d (-1) = Time u /\ u < now d.
Proof.
  intros Hz Hr. unfold in_days, UTC, LocalTime.
  set (tl := now d + LocalTZA (now d) true + -1 * msPerDay).
  specialize (Hz (now d) tl). fold tl in Hz |- *.
  exists (tl - LocalTZA tl false). split.
  - apply TimeClip_in_range. unfold tl, msPerDay, Doc.msPerDay in *. lia.
  - unfold tl, msPerDay, Doc.msPerDay in *. lia.
Qed.

End DateFacts.

(* ================================================================== *)
(** * The cookie module: configure, set, unset, get *)
(* ================================================================== *)

Section CookieFacts.
Context {H : Host}.
Import Cookie.

Lemma or_else_none {A} (x : option A) : or_else x None = x.
Proof. now destruct x. Qed.

(** [configure] replaces the options: nothing of the earlier ones stays. *)
Lemma configure_replaces opts this : configure opts this = {| options := opts |}.
Proof.
  unfold configure, assign. cbn. rewrite !or_else_none. now destruct opts.
Qed.

Lemma join_cons sep a l :
  join sep (a :: l) = a ++ flat_map (fun x => sep ++ x) l.
Proof.
  revert a. induction l as [|b l IH]; intros a.
  - cbn. now rewrite app_nil_r.
  - change (join sep (a :: b :: l)) with (a ++ sep ++ join sep (b :: l)).
    rewrite IH. cbn [flat_map]. now rewrite <- app_assoc.
Qed.

Lemma merged_unchanged this v opts d :
  v <> VNull -> integer_days (assign (options this) opts) = None ->
  merged this v opts d = assign (options this) opts.
Proof.
  intros Hv Hd. unfold merged. destruct v; try congruence; now rewrite Hd.
Qed.

Lemma merged_null this opts d :
  merged this VNull opts d =
    {| expires := Some (in_days d (-1));
       path := path (assign (options this) opts);
       domain := domain (assign (options this) opts);
       secure := secure (assign (options this) opts);
       days := Some (Int (-1));
       raw := raw (assign (options this) opts) |}.
Proof.
  unfold merged. cbn [integer_days days]. cbv zeta.
  now rewrite setDate_getDate.
Qed.

Lemma merged_days this v opts d n :
  v <> VNull -> integer_days (assign (options this) opts) = Some n ->
  merged this v opts d = expiring (assign (options this) opts) (in_days d n).
Proof.
  intros Hv Hd. unfold merged, expiring.
  destruct v; try congruence; rewrite Hd; cbv zeta;
    now rewrite setDate_getDate.
Qed.

Lemma integer_days_merged this v opts d :
  integer_days (merged this v opts d) =
    match v with
    | VNull => Some (-1)
    | _ => integer_days (assign (options this) opts)
    end.
Proof.
  unfold merged. destruct v; try reflexivity;
    destruct (integer_days (assign (options this) opts)) eqn:E;
    solve [exact E | unfold integer_days in *; cbn [days]; exact E].
Qed.

Lemma join_cookieBuilder k v o :
  join (str "; ") (cookieBuilder k v o) = k ++ str "=" ++ v ++ attributes o.
Proof.
  unfold cookieBuilder, attributes. cbn [app]. rewrite join_cons.
  rewrite !flat_map_app, <- !app_assoc.
  destruct (expires o) as [e|]; destruct (path o) as [[|c p]|];
    destruct (domain o) as [[|c' p']|]; destruct (truthy_bool (secure o));
    cbn [flat_map app]; rewrite ?app_nil_r, <- ?app_assoc; reflexivity.
Qed.

Lemma cookie_text_eq (this : Module_) (key : jsstring) (v : value)
    (opts : Options) (d : Document) :
  cookie_text this key v opts d =
    bind (encodeURIComponent key) (fun safeKey =>
    bind (if truthy_bool (raw (merged this (value_of v) opts d))
          then Normal (ToString (value_of v))
          else encodeURIComponent (ToString (value_of v))) (fun safeValue =>
    Normal (safeKey ++ str "=" ++ safeValue
            ++ attributes (merged this (value_of v) opts d)))).
Proof.
  unfold cookie_text. fold (value_of v).
  destruct (encodeURIComponent key) as [k|]; [|reflexivity]. cbn [bind].
  destruct (if truthy_bool (raw _) then _ else _) as [sv|]; [|reflexivity].
  cbn [bind]. now rewrite join_cookieBuilder.
Qed.

(** C7, amended.  When the value is null (or left out), [set] writes
    the expiry of one day before the current instant on the local
    calendar, whatever [days] and [expires] were passed; when the value is
    not null and [days] is an integer, it writes the expiry of that many
    days from the current instant on the local calendar, at the same local
    time of day, which is what [new Date()] followed by
    [setDate(getDate() + days)] gives; otherwise it writes the expiry that
    was passed, if any.  In a zone whose offset never changes the date so
    computed is the current instant plus [days] times 24 hours when that
    is within the range of dates, and it is an invalid date when the range
    is left; one day back is in the past wherever the offset of the zone
    changes by less than a day.  [unset] is [set] with the null value. *)
Theorem set_null_expires (this : Module_) (key : jsstring) (v : value)
    (opts : Options) (d : Document) :
  let o := assign (options this) opts in
  set this key VNull opts d =
    bind (encodeURIComponent key) (fun k =>
      Normal (Doc.write_cookie
                (k ++ str "=null" ++ attributes (expiring o (in_days d (-1)))) d)) /\
  (forall n,
      value_of v <> VNull -> integer_days o = Some n ->
      set this key v opts d =
        bind (encodeURIComponent key) (fun k =>
        bind (if truthy_bool (raw o) then Normal (ToString (value_of v))
              else encodeURIComponent (ToString (value_of v))) (fun sv =>
          Normal (Doc.write_cookie
                    (k ++ str "=" ++ sv ++ attributes (expiring o (in_days d n))) d)))) /\
  (value_of v <> VNull -> integer_days o = None ->
   set this key v opts d =
     bind (encodeURIComponent key) (fun k =>
     bind (if truthy_bool (raw o) then Normal (ToString (value_of v))
           else encodeURIComponent (ToString (value_of v))) (fun sv =>
       Normal (Doc.write_cookie (k ++ str "=" ++ sv ++ attributes o) d)))) /\
  (forall n,
      setDate (new_Date d) (option_map (fun date => date + n) (getDate (new_Date d)))
      = in_days d n) /\
  (forall n z,
      (forall t b, LocalTZA t b = z) ->
      (Z.abs (now d + n * msPerDay) <= 8640000000000000 ->
       in_days d n = Time (now d + n * msPerDay)) /\
      (8640000000000000 < Z.abs (now d + n * msPerDay) ->
       in_days d n = Invalid)) /\
  ((forall t t', Z.abs (LocalTZA t true - LocalTZA t' false) < msPerDay) ->
   Z.abs (now d) <= 8640000000000000 - 2 * msPerDay ->
   exists u, in_days d (-1) = Time u /\ u < now d) /\
  unset this key opts d = set this key VNull opts d /\
  set this key VUndefined opts d = set this key VNull opts d.
Proof.
  intros o. subst o.
  split.
  { unfold set. rewrite cookie_text_eq. cbn [value_of ToString].
    rewrite merged_null.
    destruct (encodeURIComponent key) as [k|]; [|reflexivity]. cbn [bind].
    destruct (truthy_bool _); reflexivity. }
  split.
  { intros n Hv Hd. unfold set. rewrite cookie_text_eq.
    rewrite (merged_days this (value_of v) opts d n Hv Hd).
    destruct (encodeURIComponent key) as [k|]; [|reflexivity]. cbn [bind].
    cbn [expiring raw].
    destruct (if truthy_bool _ then _ else _); reflexivity. }
  split.
  { intros Hv Hd. unfold set. rewrite cookie_text_eq.
    rewrite (merged_unchanged this (value_of v) opts d Hv Hd).
    destruct (encodeURIComponent key) as [k|]; [|reflexivity]. cbn [bind].
    destruct (if truthy_bool _ then _ else _); reflexivity. }
  split; [intros n; apply setDate_getDate|].
  split.
  { intros n z Hz. split.
    - now apply in_days_fixed_zone with (z := z).
    - intros Hr. unfold in_days, UTC, LocalTime. rewrite !Hz.
      replace (now d + z + n * msPerDay - z) with (now d + n * msPerDay) by lia.
      now apply TimeClip_out_of_range. }
  split; [apply in_days_yesterday|].
  split; reflexivity.
Qed.

(** C8.  [set] writes to the cookie store the text key=value followed,
    in this order and only for an option that is present and truthy, by
    the expires, path, domain and secure attributes, each behind a
    semicolon and a space; after [configure] with the secure flag alone,
    setting foo to bar writes foo=bar with secure as the last
    attribute. *)
Theorem set_writes_cookie_text (this : Module_) (key : jsstring) (v : value)
    (opts : Options) (d : Document) :
  let o := merged this (value_of v) opts d in
  cookie_text this key v opts d =
    bind (encodeURIComponent key) (fun safeKey =>
    bind (if truthy_bool (raw o) then Normal (ToString (value_of v))
          else encodeURIComponent (ToString (value_of v))) (fun safeValue =>
    Normal (safeKey ++ str "=" ++ safeValue ++ attributes o)))
  /\ set this key v opts d =
       bind (cookie_text this key v opts d) (fun text => Normal (Doc.write_cookie text d))
  /\ (forall safeKey safeValue,
        encodeURIComponent key = Normal safeKey ->
        (if truthy_bool (raw o) then Normal (ToString (value_of v))
         else encodeURIComponent (ToString (value_of v))) = Normal safeValue ->
        set this key v opts d =
          Normal (Doc.write_cookie
                    (safeKey ++ str "=" ++ safeValue ++ attributes o) d))
  /\ cookie_text
       (configure {| expires := None; path := None; domain := None;
                     secure := Some true; days := None; raw := None |} this)
       (str "foo") (VStr (str "bar")) no_options d
     = Normal (str "foo=bar; secure").
Proof.
  intros o. split; [apply cookie_text_eq|]. split; [reflexivity|].
  split; [|reflexivity].
  intros safeKey safeValue Hk Hv. unfold set.
  rewrite cookie_text_eq, Hk. cbn [bind]. fold o. rewrite Hv. reflexivity.
Qed.

Lemma attributes_none o :
  no_attributes o = true -> expires o = None -> attributes o = [].
Proof.
  unfold no_attributes, attributes. intros Ha He. rewrite He.
  apply andb_prop in Ha as [Ha Hs]. apply andb_prop in Ha as [Hp Hd].
  apply negb_true_iff in Hs. rewrite Hs.
  destruct (path o) as [[|? ?]|]; try discriminate;
    destruct (domain o) as [[|? ?]|]; try discriminate; reflexivity.
Qed.

Lemma attributes_expires o e :
  no_attributes o = true -> expires o = Some e ->
  attributes o = str "; expires=" ++ Date_toUTCString e.
Proof.
  unfold no_attributes, attributes. intros Ha He. rewrite He.
  apply andb_prop in Ha as [Ha Hs]. apply andb_prop in Ha as [Hp Hd].
  apply negb_true_iff in Hs. rewrite Hs.
  destruct (path o) as [[|? ?]|]; try discriminate;
    destruct (domain o) as [[|? ?]|]; try discriminate;
    now rewrite !app_nil_r.
Qed.

(** With the default options the text written is key=value, both
    encoded. *)
Lemma cookie_text_bare this key v opts d :
  bare (assign (options this) opts) = true ->
  cookie_text this key (VStr v) opts d =
    bind (encodeURIComponent key) (fun k =>
    bind (encodeURIComponent v) (fun e => Normal (k ++ str "=" ++ e))).
Proof.
  intros Hb. unfold bare in Hb.
  apply andb_prop in Hb as [Hb Hraw]. apply andb_prop in Hb as [Hb Hdays].
  apply andb_prop in Hb as [Hattr Hexp]. apply negb_true_iff in Hraw.
  destruct (integer_days (assign (options this) opts)) eqn:Ed; [discriminate|].
  destruct (expires (assign (options this) opts)) eqn:Ee; [discriminate|].
  rewrite cookie_text_eq. cbn [value_of ToString].
  rewrite merged_unchanged by (congruence || exact Ed).
  rewrite Hraw, (attributes_none _ Hattr Ee).
  destruct (encodeURIComponent key); [|reflexivity]. cbn [bind].
  destruct (encodeURIComponent v); [|reflexivity]. cbn [bind].
  now rewrite app_nil_r.
Qed.

Lemma cookie_ok_encoded k v e :
  Forall (fun c => enc_char c = true) k -> Forall (fun c => enc_char c = true) v ->
  k <> [] ->
  cookie_ok {| c_name := k; c_value := v; c_expires := e |} = true.
Proof.
  intros Hk Hv Hne.
  destruct (enc_text_safe k Hk) as (K59 & K61 & _).
  destruct (enc_text_safe v Hv) as (V59 & _ & _).
  unfold cookie_ok. cbn [c_name c_value]. rewrite K59, K61, V59.
  destruct k; [congruence | reflexivity].
Qed.

(** C4, amended.  With the default options (nothing configured or passed
    that sets an attribute, an expiry or the raw flag), for every key that
    is not empty and holds no dot, star or parenthesis and every text
    value, both without an unpaired surrogate, [set] returns and [get] of
    the key then returns the value: the encoded value goes through the
    cookie text and the decoding of [get]. *)
Theorem set_get_round_trip this key v opts d dv :
  well_formed key = true -> key <> [] -> literal_key key = true ->
  well_formed v = true ->
  bare (assign (options this) opts) = true ->
  jar_ok d = true ->
  exists d',
    set this key (VStr v) opts d = Normal d' /\
    get key dv false d' = Normal (VStr v).
Proof.
  intros Hkey Hne Hlit Hv Hb Hjar.
  destruct (encode_well_formed key Hkey) as (k & _ & Hk & _ & _ & Hka & Hkne).
  destruct (encode_well_formed v Hv) as (e & items & He & Hi & Hr & Hea & _).
  pose proof (encoded_enc_char _ _ Hka) as Hkc.
  pose proof (encoded_enc_char _ _ Hea) as Hec.
  specialize (Hkne Hne).
  unfold set. rewrite cookie_text_bare, Hk, He by exact Hb. cbn [bind].
  rewrite write_pair by assumption.
  eexists. split; [reflexivity|].
  set (c := {| c_name := k; c_value := e; c_expires := None |}).
  set (f := fun c0 : cookie => negb (Doc.expired (now d) c0)).
  set (d' := {| now := now d; jar := filter f (Doc.store c (jar d)) |}).
  assert (Hlive : live d' = filter f (Doc.store c (jar d))).
  { unfold live, d'. cbn [now jar]. fold f. apply filter_filter. }
  assert (Hok : forallb cookie_ok (live d') = true).
  { rewrite Hlive. apply forallb_filter, forallb_store.
    - now apply cookie_ok_encoded.
    - unfold jar_ok in Hjar. now apply andb_prop in Hjar as [Hjar _]. }
  destruct (get_literal key dv false d' Hkey Hlit Hok) as (k' & Hk' & Hget).
  rewrite Hk in Hk'. injection Hk' as <-.
  assert (Hl : lookup k (filter f (Doc.store c (jar d))) = Some e)
    by (apply (lookup_store_kept f c (jar d)); reflexivity).
  rewrite Hget, Hlive, Hl.
  unfold decodeURIComponent, fmap. rewrite Hi. cbn [bind]. now rewrite Hr.
Qed.

Lemma write_nameless rest d : Doc.write_cookie (61 :: rest) d = d.
Proof.
  unfold Doc.write_cookie. cbn [Doc.cut Z.eqb Pos.eqb].
  destruct (Doc.cut 59 rest) as [a b]. reflexivity.
Qed.

Lemma lookup_nameless l : forallb cookie_ok l = true -> lookup [] l = None.
Proof.
  induction l as [|c l IH]; [reflexivity|].
  cbn [forallb]. intros Hl. apply andb_prop in Hl as [Hc Hl].
  rewrite lookup_cons, IH by exact Hl.
  unfold cookie_ok in Hc. destruct (c_name c); [|reflexivity].
  now rewrite andb_false_r in Hc.
Qed.

Lemma null_text_encoded : Forall (fun c => enc_char c = true) (str "null").
Proof. repeat constructor. Qed.

(** The text [unset] writes when no attribute is set. *)
Lemma unset_text this key opts d :
  no_attributes (assign (options this) opts) = true ->
  cookie_text this key VNull opts d =
    bind (encodeURIComponent key) (fun k =>
      Normal (k ++ str "=" ++ str "null" ++ str "; expires="
                ++ Date_toUTCString (in_days d (-1)))).
Proof.
  intros Ha. rewrite cookie_text_eq. cbn [value_of ToString].
  rewrite merged_null. cbn [raw].
  rewrite (attributes_expires _ (in_days d (-1))) by (exact Ha || reflexivity).
  destruct (encodeURIComponent key); [|reflexivity]. cbn [bind].
  destruct (truthy_bool (raw (assign (options this) opts))); reflexivity.
Qed.

(** After [unset], on a host that reads the date [unset] wrote as an
    instant in the past, [get] of the key returns the default. *)
Lemma get_after_unset this key opts d dv raw_ t :
  well_formed key = true -> literal_key key = true ->
  no_attributes (assign (options this) opts) = true ->
  jar_ok d = true ->
  has 59 (Date_toUTCString (in_days d (-1))) = false ->
  parse_cookie_date (Doc.trim (Date_toUTCString (in_days d (-1)))) = Some t ->
  t < now d ->
  exists d',
    unset this key opts d = Normal d' /\
    get key dv raw_ d' = Normal (default_of dv).
Proof.
  intros Hkey Hlit Ha Hjar Hsemi Hparse Hpast.
  destruct (encode_well_formed key Hkey) as (k & _ & Hk & _ & _ & Hka & Hkne).
  pose proof (encoded_enc_char _ _ Hka) as Hkc.
  unfold unset, set. rewrite unset_text, Hk by exact Ha. cbn [bind].
  assert (Hjok : forallb cookie_ok (jar d) = true)
    by (unfold jar_ok in Hjar; now apply andb_prop in Hjar as [Hjar _]).
  destruct key as [|c0 key'].
  - cbn in Hk. injection Hk as <-.
    cbn [app]. change (str "=" ++ ?x) with (61 :: x).
    rewrite write_nameless. eexists. split; [reflexivity|].
    destruct (get_literal [] dv raw_ d eq_refl eq_refl (live_ok d Hjar))
      as (k' & Hk' & Hget).
    cbn in Hk'. injection Hk' as <-.
    rewrite Hget, lookup_nameless by (now apply live_ok). reflexivity.
  - assert (Hne : k <> []) by (apply Hkne; discriminate).
    rewrite (write_pair_expires k (str "null") _ t d Hkc null_text_encoded Hne
               Hsemi Hparse).
    eexists. split; [reflexivity|].
    set (c := {| c_name := k; c_value := str "null"; c_expires := Some t |}).
    set (f := fun c1 : cookie => negb (Doc.expired (now d) c1)).
    set (d' := {| now := now d; jar := filter f (Doc.store c (jar d)) |}).
    assert (Hlive : live d' = filter f (Doc.store c (jar d))).
    { unfold live, d'. cbn [now jar]. fold f. apply filter_filter. }
    assert (Hok : forallb cookie_ok (live d') = true).
    { rewrite Hlive. apply forallb_filter, forallb_store; [|exact Hjok].
      apply cookie_ok_encoded; [exact Hkc | exact null_text_encoded | exact Hne]. }
    destruct (get_literal (c0 :: key') dv raw_ d' Hkey Hlit Hok) as (k' & Hk' & Hget).
    rewrite Hk in Hk'. injection Hk' as <-.
    assert (Hl : lookup k (filter f (Doc.store c (jar d))) = None).
    { apply (lookup_store_dropped f c (jar d)).
      - unfold f, Doc.expired. cbn [c_expires].
        apply negb_false_iff. apply Z.leb_le. lia.
      - unfold jar_ok in Hjar. now apply andb_prop in Hjar as [_ Hjar]. }
    now rewrite Hget, Hlive, Hl.
Qed.

(** C6, amended.  On an empty cookie text [get] returns the default
    value (null when none is given), whatever the key.  For a key without
    an unpaired surrogate and without a dot, a star or a parenthesis,
    [get] returns the default when no cookie shown has the encoded key as
    its name, and otherwise the value of that cookie: as stored when raw,
    else decoded, with the URIError of the decoding when the stored value
    is no valid encoding.  After [unset] without attributes, on a host
    that reads the date written as an instant in the past, [get] returns
    the default. *)
Theorem get_spec (key : jsstring) (dv : value) (raw_ : bool) (d : Document) :
  (Doc.read_cookie d = [] -> get key dv raw_ d = Normal (default_of dv)) /\
  (well_formed key = true -> literal_key key = true -> jar_ok d = true ->
   exists k,
     encodeURIComponent key = Normal k /\
     get key dv raw_ d =
       match lookup k (live d) with
       | None => Normal (default_of dv)
       | Some v =>
           if raw_ then Normal (VStr v) else fmap VStr (decodeURIComponent v)
       end) /\
  (forall this opts t,
      well_formed key = true -> literal_key key = true -> jar_ok d = true ->
      no_attributes (assign (options this) opts) = true ->
      has 59 (Date_toUTCString (in_days d (-1))) = false ->
      parse_cookie_date (Doc.trim (Date_toUTCString (in_days d (-1)))) = Some t ->
      t < now d ->
      exists d',
        unset this key opts d = Normal d' /\
        get key dv raw_ d' = Normal (default_of dv)).
Proof.
  split; [apply get_empty|]. split.
  - intros Hkey Hlit Hjar. apply get_literal; auto using live_ok.
  - intros this opts t Hkey Hlit Hjar Ha Hs Hp Ht.
    now apply (get_after_unset this key opts d dv raw_ t).
Qed.

(** The store is well formed before any call, and [set] and [unset]
    keep it so. *)
Lemma set_keeps_jar_ok this key v opts d d' :
  jar_ok d = true -> set this key v opts d = Normal d' -> jar_ok d' = true.
Proof.
  intros Hd. unfold set.
  destruct (cookie_text this key v opts d) as [text|]; [|discriminate].
  cbn [bind]. intros E. injection E as <-. now apply write_cookie_ok.
Qed.

Lemma unset_keeps_jar_ok this key opts d d' :
  jar_ok d = true -> unset this key opts d = Normal d' -> jar_ok d' = true.
Proof. apply set_keeps_jar_ok. Qed.

End CookieFacts.

(* ================================================================== *)
(** * Which calls return, and which throw *)
(* ================================================================== *)

Section ReturnFacts.
Context {I : Imports} {H : Host}.
Import Cookie.

Lemma set_returns this key v opts d :
  well_formed key = true -> well_formed (ToString (value_of v)) = true ->
  exists d', set this key v opts d = Normal d'.
Proof.
  intros Hk Hv.
  destruct (decode_encode key Hk) as (k & Ek & _).
  destruct (decode_encode _ Hv) as (e & Ee & _).
  unfold set. rewrite cookie_text_eq, Ek, Ee. cbn [bind].
  destruct (truthy_bool _); cbn [bind]; eauto.
Qed.

Lemma unset_returns this key opts d :
  well_formed key = true -> exists d', unset this key opts d = Normal d'.
Proof. intros Hk. apply (set_returns this key VNull opts d Hk). reflexivity. Qed.

Lemma lookup_In k l v :
  lookup k l = Some v -> exists c, In c l /\ c_value c = v.
Proof.
  unfold lookup. destruct (find _ l) as [c|] eqn:E; [|discriminate].
  intros Hv. injection Hv as <-. apply find_some in E as [Hin _]. eauto.
Qed.

Lemma get_returns key dv raw_ d :
  well_formed key = true -> literal_key key = true -> jar_ok d = true ->
  (raw_ = true \/
   forall c, In c (live d) -> exists u, decodeURIComponent (c_value c) = Normal u) ->
  exists r, get key dv raw_ d = Normal r.
Proof.
  intros Hk Hl Hj Hd.
  destruct (get_literal key dv raw_ d Hk Hl (live_ok d Hj)) as (k & _ & ->).
  destruct (lookup k (live d)) as [v|] eqn:E; [|eauto].
  destruct raw_; [eauto|].
  destruct Hd as [Hd | Hd]; [discriminate|].
  destruct (lookup_In _ _ _ E) as (c & Hin & <-).
  destruct (Hd c Hin) as [u ->]. cbn. eauto.
Qed.

Lemma compareVersion_unknown actual op expected :
  unknown_operator op = true -> Version_.compareVersion actual op expected = false.
Proof.
  unfold unknown_operator. intros Hop. apply negb_true_iff in Hop.
  cbn [existsb] in Hop. repeat (apply orb_false_elim in Hop as [? Hop]).
  unfold Version_.compareVersion, Version_.holds.
  repeat match goal with
         | E : Version_.is_op op _ = false |- _ => rewrite E; clear E
         end.
  reflexivity.
Qed.

End ReturnFacts.

Section CallsFacts.
Context {C : Calls}.
Variable w : Window.

Lemma calls_matches_returns (q : jsstring) :
  imports_return w -> exists b, BrowserCalls.matches w (VStr q) = Normal b.
Proof.
  intros (browser & version & Hb & Hv & Hc).
  unfold BrowserCalls.matches, BrowserCalls.currentVersion, BrowserCalls.currentBrowser.
  rewrite Hb. cbn [bind].
  destruct (negb _); [eauto|].
  destruct (_ <=? 1)%nat; [eauto|].
  rewrite Hv. cbn [bind]. apply Hc.
Qed.

(** The answer of [matches] on a text, as a boolean. *)
Lemma calls_filter_matches (l : list jsstring) :
  imports_return w ->
  exists kept,
    BrowserCalls.filter_matches w (map VStr l) = Normal (map VStr kept) /\
    (kept <> [] <->
     exists q, In q l /\ BrowserCalls.matches w (VStr q) = Normal true).
Proof.
  intros Hr. induction l as [|q l (kept & IH & Hk)].
  - exists []. split; [reflexivity|]. split; [congruence|].
    intros (q & [] & _).
  - destruct (calls_matches_returns q Hr) as [b Hb].
    exists (if b then q :: kept else kept). cbn [map BrowserCalls.filter_matches].
    rewrite Hb, IH. cbn [bind]. split; [now destruct b|].
    destruct b.
    + split; [|discriminate]. intros _. exists q. split; [now left | exact Hb].
    + rewrite Hk. split.
      * intros (q' & Hin & Hq'). exists q'. split; [now right | exact Hq'].
      * intros (q' & [<- | Hin] & Hq'); [congruence|]. now exists q'.
Qed.

Lemma calls_oneOf_returns (X : supported) :
  imports_return w ->
  exists b,
    BrowserCalls.oneOf w (arg X) = Normal b /\
    BrowserCalls.isOutdated w (arg X) = Normal (negb b) /\
    (b = true <->
     exists q, In q (queries X) /\ BrowserCalls.matches w (VStr q) = Normal true).
Proof.
  intros Hr.
  destruct (calls_filter_matches (queries X) Hr) as (kept & Hf & Hk).
  exists (0 <? List.length kept)%nat.
  assert (Ho : BrowserCalls.oneOf w (arg X) = Normal (0 <? List.length kept)%nat).
  { destruct X as [q | l]; unfold BrowserCalls.oneOf, arg, queries in *.
    - change [VStr q] with (map VStr [q]). rewrite Hf. cbn [bind].
      now rewrite length_map.
    - rewrite Hf. cbn [bind]. now rewrite length_map. }
  split; [exact Ho|]. split.
  - unfold BrowserCalls.isOutdated. now rewrite Ho.
  - rewrite <- Hk. destruct kept; cbn; split; congruence.
Qed.

End CallsFacts.

(** With imports that return, the browser module over calls is the
    browser module over [Imports]. *)
Lemma returning_matches (I : Imports) (w : Window) (v : value) :
  BrowserCalls.matches (C := returning I) w v = Browser.matches w v.
Proof.
  destruct v; reflexivity.
Qed.

Lemma returning_filter_matches (I : Imports) (w : Window) (l : list value) :
  BrowserCalls.filter_matches (C := returning I) w l = Browser.filter_matches w l.
Proof.
  induction l as [|x l IH]; [reflexivity|].
  cbn [BrowserCalls.filter_matches Browser.filter_matches].
  now rewrite returning_matches, IH.
Qed.

Lemma returning_oneOf (I : Imports) (w : Window) (v : value) :
  BrowserCalls.oneOf (C := returning I) w v = Browser.oneOf w v /\
  BrowserCalls.isOutdated (C := returning I) w v = Browser.isOutdated w v.
Proof.
  assert (E : BrowserCalls.oneOf (C := returning I) w v = Browser.oneOf w v).
  { destruct v; try reflexivity; unfold BrowserCalls.oneOf, Browser.oneOf;
      now rewrite returning_filter_matches. }
  split; [exact E|].
  unfold BrowserCalls.isOutdated, Browser.isOutdated. now rewrite E.
Qed.

Section ReturnTheorem.
Context {C : Calls} {H : Host}.
Import Cookie.

(** C5, amended.  The calls return normally on the inputs their
    documentation names, and absent or unmatched inputs then give the
    defaults: [configure] always returns; [set] and [unset] return for a
    key and a value text without an unpaired surrogate; [get], called
    with a second argument other than null, is [get] on what the two
    properties of that argument read as, returns the default on an empty
    cookie text whatever the key, and returns for a key without an
    unpaired surrogate, dot, star or parenthesis when raw or when the
    stored values are valid encodings; whenever the calls
    they make to [Search] and [compareVersion] return, [matches] returns
    a boolean on every query text and [oneOf] and [isOutdated] on every
    query or list of queries; [oneOf] of an absent argument is false.
    [identify], [extractVersion] and [compareVersion], as the
    specification describes them, give their defaults: the unknown
    identity when no signature occurs, the empty version for it, and
    false for an operator that is none of the seven. *)
Theorem operations_return (w : Window) (this : Module_) (key : jsstring)
    (v dv : value) (raw_ : bool) (opts : Options) (d : Document) :
  configure opts this = {| options := opts |} /\
  (well_formed key = true -> well_formed (ToString (value_of v)) = true ->
   exists d', set this key v opts d = Normal d') /\
  (well_formed key = true -> exists d', unset this key opts d = Normal d') /\
  (Doc.read_cookie d = [] -> get key dv raw_ d = Normal (default_of dv)) /\
  (well_formed key = true -> literal_key key = true -> jar_ok d = true ->
   (raw_ = true \/
    forall c, In c (live d) -> exists u, decodeURIComponent (c_value c) = Normal u) ->
   exists r, get key dv raw_ d = Normal r) /\
  (forall argument,
      argument <> Passed VNull ->
      exists dv' raw', get_call key argument d = get key dv' raw' d) /\
  (imports_return w ->
   (forall q, exists b, BrowserCalls.matches w (VStr q) = Normal b) /\
   (forall X, exists b,
       BrowserCalls.oneOf w (arg X) = Normal b /\
       BrowserCalls.isOutdated w (arg X) = Normal (negb b))) /\
  BrowserCalls.oneOf w VUndefined = Normal false /\
  BrowserCalls.isOutdated w VUndefined = Normal true /\
  (forall table ua,
      (forall e, In e table -> Search.found ua e = false) ->
      Search.identify table ua = Search.unknown ua /\
      Search.extractVersion table (Search.identify table ua) = []) /\
  (forall actual op expected,
      unknown_operator op = true ->
      Version_.compareVersion actual op expected = false).
Proof.
  split; [apply configure_replaces|].
  split; [apply set_returns|].
  split; [apply unset_returns|].
  split; [apply get_empty|].
  split; [apply get_returns|].
  split.
  { intros [[| | | |]|dv' raw'] Ha; try congruence; cbn [get_call]; eauto. }
  split.
  { intros Hr. split.
    - intros q. now apply calls_matches_returns.
    - intros X. destruct (calls_oneOf_returns w X Hr) as (b & Ho & Hi & _).
      now exists b. }
  split; [reflexivity|]. split; [reflexivity|].
  split.
  - intros table ua Hnone. unfold Search.identify.
    rewrite (find_nowhere _ table Hnone). split; reflexivity.
  - apply compareVersion_unknown.
Qed.

End ReturnTheorem.


(* ================================================================== *)
(** * Concrete runs *)
(* ================================================================== *)

Section Runs.
#[local] Existing Instance Reference.host.
#[local] Existing Instance Reference.imports.

Lemma set_get_round_trip_witness :
  exists d',
    Cookie.set Cookie.initial (str "foo") (VStr (str "bar")) Cookie.no_options
      empty_store = Normal d' /\
    Cookie.get (str "foo") VUndefined false d' = Normal (VStr (str "bar")).
Proof.
  apply (set_get_round_trip Cookie.initial (str "foo") (str "bar")
           Cookie.no_options empty_store VUndefined);
    solve [reflexivity | discriminate].
Defined.

(** Against C4: a value with an unpaired surrogate is a text, [set]
    throws on it, and no [get] follows. *)
Lemma set_get_unpaired_surrogate :
  Cookie.set Cookie.initial (str "foo") (VStr half_emoji) Cookie.no_options
    empty_store = Throw URIError /\
  ~ exists d',
      Cookie.set Cookie.initial (str "foo") (VStr half_emoji) Cookie.no_options
        empty_store = Normal d' /\
      Cookie.get (str "foo") VUndefined false d' = Normal (VStr half_emoji).
Proof.
  split; [reflexivity|]. intros (d' & Hset & _). discriminate.
Qed.

(** The empty key: the store ignores a pair without a name, and [get]
    finds nothing. *)
Example set_get_empty_key :
  bind (Cookie.set Cookie.initial [] (VStr (str "bar")) Cookie.no_options empty_store)
       (Cookie.get [] VUndefined false)
  = Normal VNull.
Proof. reflexivity. Qed.

(** A key with a star: the encoded key is read as a pattern, [a*]
    stands for any run of the letter, and the cookie just written is not
    found. *)
Example set_get_star_key :
  bind (Cookie.set Cookie.initial (str "a*") (VStr (str "bar")) Cookie.no_options
          empty_store)
       (Cookie.get (str "a*") VUndefined false)
  = Normal VNull.
Proof. reflexivity. Qed.

(** A key in parentheses: the first capture is the key, not the value. *)
Example set_get_group_key :
  bind (Cookie.set Cookie.initial (str "(a)") (VStr (str "bar")) Cookie.no_options
          {| now := Reference.instant;
             jar := [{| c_name := str "a"; c_value := str "1"; c_expires := None |}] |})
       (Cookie.get (str "(a)") VUndefined false)
  = Normal (VStr (str "a")).
Proof. reflexivity. Qed.

(** A key with a dot finds the cookie of another name. *)
Example get_dot_key :
  Cookie.get (str "a.b") VUndefined false
    {| now := Reference.instant;
       jar := [{| c_name := str "aXb"; c_value := str "1"; c_expires := None |}] |}
  = Normal (VStr (str "1")).
Proof. reflexivity. Qed.

(** An unbalanced parenthesis in the key is a syntax error of the
    pattern. *)
Example get_unbalanced_key :
  Cookie.get (str "(") VUndefined false foo_bar_store = Throw SyntaxError.
Proof. reflexivity. Qed.

(** Against C6: a raw [set] stores a lone percent sign under foo; the
    store then has an entry for foo, and [get] neither returns its value
    decoded nor the default: the decoding throws. *)
Lemma get_undecodable_value :
  Cookie.set Cookie.initial (str "foo") (VStr (str "%")) raw_options empty_store
  = Normal foo_percent_store /\
  lookup (str "foo") (live foo_percent_store) = Some (str "%") /\
  Cookie.get (str "foo") VNull false foo_percent_store = Throw URIError.
Proof. repeat split. Qed.

Lemma get_spec_witness :
  (exists k,
     encodeURIComponent (str "foo") = Normal k /\
     Cookie.get (str "foo") VNull false foo_bar_store =
       match lookup k (live foo_bar_store) with
       | None => Normal VNull
       | Some v => fmap VStr (decodeURIComponent v)
       end) /\
  (exists d',
     Cookie.unset Cookie.initial (str "foo") Cookie.no_options foo_bar_store
     = Normal d' /\
     Cookie.get (str "foo") VNull false d' = Normal VNull).
Proof.
  pose proof (get_spec (str "foo") VNull false foo_bar_store) as (_ & Hget & Hunset).
  split.
  - apply Hget; reflexivity.
  - apply (Hunset Cookie.initial Cookie.no_options 1513767459000);
      solve [reflexivity | vm_compute; reflexivity].
Defined.

(** A key and a value with separators, a percent sign and text outside
    ASCII go through the store and come back. *)
Example set_get_encoded :
  bind (Cookie.set Cookie.initial (str "k 1;") (VStr (str "a;b=c %" ++ [233; 55357; 56832]))
          Cookie.no_options foo_bar_store)
       (fun d' => Normal (Doc.read_cookie d', Cookie.get (str "k 1;") VUndefined false d'))
  = Normal (str "foo=bar; k%201%3B=a%3Bb%3Dc%20%25%C3%A9%F0%9F%98%80",
            Normal (VStr (str "a;b=c %" ++ [233; 55357; 56832]))).
Proof. reflexivity. Qed.

(** The documentation of [unset]: what is written for foo. *)
Example unset_foo_text :
  Cookie.cookie_text Cookie.initial (str "foo") VNull Cookie.no_options
    {| now := Reference.instant + Doc.msPerDay; jar := [] |}
  = Normal (str "foo=null; expires=Thu, 21 Dec 2017 10:57:39 GMT").
Proof. reflexivity. Qed.

Example get_foo : Cookie.get (str "foo") VUndefined false foo_bar_store = Normal (VStr (str "bar")).
Proof. reflexivity. Qed.

Example get_nonexistant :
  Cookie.get (str "nonexistant") (VBool true) false foo_bar_store = Normal (VBool true).
Proof. reflexivity. Qed.

(** Against C7: with [days] a hundred million, an integer, the date
    computed leaves the range of dates: the expiry is an invalid date, not
    the current date plus [days], and the text written says so. *)
Lemma set_days_out_of_range :
  Cookie.integer_days (Cookie.assign (Cookie.options Cookie.initial) far_options)
  = Some 100000000 /\
  Cookie.expires (Cookie.merged Cookie.initial (VStr (str "bar")) far_options
                    empty_store) = Some Invalid /\
  Cookie.cookie_text Cookie.initial (str "foo") (VStr (str "bar")) far_options
    empty_store = Normal (str "foo=bar; expires=Invalid Date").
Proof. repeat split; vm_compute; reflexivity. Qed.

(** One day from now, in UTC and across a change of the clocks: 24
    hours in the first zone, 25 in the second. *)
Example set_tomorrow_text :
  Cookie.cookie_text Cookie.initial (str "foo") (VStr (str "bar")) tomorrow_options
    empty_store = Normal (str "foo=bar; expires=Fri, 22 Dec 2017 10:57:39 GMT") /\
  Cookie.cookie_text (H := Reference.autumn_host) Cookie.initial (str "foo")
    (VStr (str "bar")) tomorrow_options empty_store
  = Normal (str "foo=bar; expires=Fri, 22 Dec 2017 11:57:39 GMT").
Proof. split; vm_compute; reflexivity. Qed.

(** The calendar of these dates: the instant of the documentation is
    the 21st of December 2017. *)
Example instant_calendar :
  YearFromTime Reference.instant = 2017 /\
  MonthFromTime Reference.instant = 11 /\
  DateFromTime Reference.instant = 21 /\
  getDate (H := Reference.autumn_host) (Time (Reference.instant + 23 * 3600000))
  = Some 22.
Proof. repeat split. Qed.

(** Against C5: calls that throw.  A key with an unpaired surrogate is
    a URIError of [set], [unset] and [get]; a key with an open
    parenthesis is a SyntaxError of [get]; the null second argument of
    [get] is a TypeError; a query that is absent or null is a TypeError
    of [matches], [oneOf] and [isOutdated]; and what an import throws,
    [matches] throws. *)
Lemma operations_that_throw :
  Cookie.set Cookie.initial half_emoji (VStr (str "bar")) Cookie.no_options
    empty_store = Throw URIError /\
  Cookie.unset Cookie.initial half_emoji Cookie.no_options empty_store
    = Throw URIError /\
  Cookie.get half_emoji VNull false foo_bar_store = Throw URIError /\
  Cookie.get (str "(") VNull false foo_bar_store = Throw SyntaxError /\
  Cookie.get_call (str "foo") (Cookie.Passed VNull) foo_bar_store = Throw TypeError /\
  Browser.matches Reference.chrome62 VUndefined = Throw TypeError /\
  Browser.oneOf Reference.chrome62 VNull = Throw TypeError /\
  Browser.isOutdated Reference.chrome62 (VArr [VNull]) = Throw TypeError /\
  BrowserCalls.matches (C := returning Reference.imports) Reference.chrome62
    VUndefined = Throw TypeError /\
  BrowserCalls.matches (C := failing_calls) Reference.chrome62
    (VStr (str "unknown >= 1")) = Throw TypeError.
Proof. repeat split. Qed.

(** The encoded key is compiled as a pattern without escaping: an
    unbalanced parenthesis is a syntax error, a star or a group changes
    what is found and captured, and a dot finds a cookie of another
    name. *)
Lemma get_reads_key_as_pattern :
  Cookie.get (str "(") VUndefined false foo_bar_store = Throw SyntaxError /\
  bind (Cookie.set Cookie.initial (str "a*") (VStr (str "bar")) Cookie.no_options
          empty_store)
       (Cookie.get (str "a*") VUndefined false) = Normal VNull /\
  bind (Cookie.set Cookie.initial (str "(a)") (VStr (str "bar")) Cookie.no_options
          empty_store)
       (Cookie.get (str "(a)") VUndefined false) = Normal VNull /\
  Cookie.get (str "a.b") VUndefined false
    {| now := Reference.instant;
       jar := [{| c_name := str "aXb"; c_value := str "1"; c_expires := None |}] |}
  = Normal (VStr (str "1")).
Proof. repeat split. Qed.

End Runs.

(* ================================================================== *)
(** * The browser module: device tests, queries, identity *)
(* ================================================================== *)

Section DeviceFacts.

Lemma prefixb_ci_prefixb p s : prefixb p s = true -> ci_prefixb p s = true.
Proof.
  revert s. induction p as [|x p IH]; intros [|y s]; cbn; try easy.
  intros Hp. apply andb_prop in Hp as [Hx Hp].
  apply Z.eqb_eq in Hx. subst y. now rewrite Z.eqb_refl, IH.
Qed.

Lemma includes_ci_test p s : includes s p = true -> ci_test p s = true.
Proof.
  induction s as [|c s IH]; cbn [includes ci_test]; intros Hs;
    apply orb_prop in Hs as [Hs | Hs].
  - now rewrite (prefixb_ci_prefixb _ _ Hs).
  - discriminate.
  - now rewrite (prefixb_ci_prefixb _ _ Hs).
  - rewrite (IH Hs). apply orb_true_r.
Qed.

Lemma canon_canon c : canon (canon c) = canon c.
Proof.
  unfold canon.
  destruct ((97 <=? c) && (c <=? 122)) eqn:E; [|now rewrite E].
  destruct ((97 <=? c - 32) && (c - 32 <=? 122)) eqn:E'; [|reflexivity].
  zbool. lia.
Qed.

Lemma ci_prefixb_canon p s : ci_prefixb p (map canon s) = ci_prefixb p s.
Proof.
  revert s. induction p as [|x p IH]; intros [|y s]; cbn; try reflexivity.
  now rewrite canon_canon, IH.
Qed.

Lemma ci_test_canon p s : ci_test p (map canon s) = ci_test p s.
Proof.
  induction s as [|c s IH]; cbn [map ci_test].
  - now destruct p.
  - rewrite <- IH. f_equal. apply (ci_prefixb_canon p (c :: s)).
Qed.

End DeviceFacts.

Section BrowserMoreFacts.
Context {I : Imports}.
Variable w : Window.

(** X1.  [supportsTouchEvents] has three outcomes, not two: it is true
    on a mobile or tablet user agent whose window has [ontouchstart] or
    whose document is a [DocumentTouch]; it is [undefined], and not
    false, on a mobile or tablet user agent without [ontouchstart] and
    without a [DocumentTouch] constructor; it is false in every other
    case. *)
Theorem supportsTouchEvents_outcomes :
  (Browser.supportsTouchEvents w = VBool true <->
   (Browser.isMobile w = true \/ Browser.isTablet w = true) /\
   (ontouchstart w = true \/ DocumentTouch w = Some true)) /\
  (Browser.supportsTouchEvents w = VUndefined <->
   (Browser.isMobile w = true \/ Browser.isTablet w = true) /\
   ontouchstart w = false /\ DocumentTouch w = None) /\
  (Browser.supportsTouchEvents w = VBool false <->
   (Browser.isMobile w = false /\ Browser.isTablet w = false) \/
   (ontouchstart w = false /\ DocumentTouch w = Some false)) /\
  (Browser.supportsTouchEvents w = VBool true \/
   Browser.supportsTouchEvents w = VUndefined \/
   Browser.supportsTouchEvents w = VBool false).
Proof.
  unfold Browser.supportsTouchEvents.
  destruct (Browser.isMobile w), (Browser.isTablet w), (ontouchstart w),
    (DocumentTouch w) as [[|]|]; cbn;
    repeat split; intros; try discriminate; try tauto;
    try (intuition congruence).
Qed.

(** X2.  A user agent that [isAndroid] recognises is one that [isMobile]
    recognises: the text Android, found with its capital, is found when
    the case is ignored. *)
Theorem isAndroid_isMobile :
  Browser.isAndroid w = true -> Browser.isMobile w = true.
Proof.
  unfold Browser.isAndroid, Browser.isMobile, test, ci_test_any.
  intros Ha. cbn [existsb]. now rewrite (includes_ci_test _ _ Ha).
Qed.

(** X3.  [isMobile] and [isTablet] ignore the case of the ASCII letters
    of the user agent: two user agents that differ only in that case get
    the same answers. *)
Theorem isMobile_isTablet_ignore_case (w' : Window) :
  map canon (userAgent w) = map canon (userAgent w') ->
  Browser.isMobile w = Browser.isMobile w' /\
  Browser.isTablet w = Browser.isTablet w'.
Proof.
  intros Hc. unfold Browser.isMobile, Browser.isTablet, ci_test_any. split.
  - assert (E : forall p, ci_test p (userAgent w) = ci_test p (userAgent w'))
      by (intros p; now rewrite <- (ci_test_canon p (userAgent w)), Hc, ci_test_canon).
    cbn [existsb]. now rewrite !E.
  - now rewrite <- (ci_test_canon _ (userAgent w)), Hc, ci_test_canon.
Qed.

End BrowserMoreFacts.

Section QueryFacts.
Context {I : Imports}.
Variable w : Window.

Lemma split_ws_leading (c : Z) (q : jsstring) :
  is_ws c = true ->
  exists operator rest, split_ws (c :: q) = [] :: operator :: rest.
Proof.
  intros Hc. unfold split_ws. cbn [split_go]. rewrite Hc. cbn [rev].
  pose proof (split_go_nonempty true [] q) as Hn.
  destruct (split_go true [] q) as [|operator rest]; [congruence|].
  now exists operator, rest.
Qed.

(** X4.  [matches] does not trim its query.  With white space in front,
    the first piece is the empty text, which every browser name contains
    (the empty text being its own lower case), so the name test always
    passes and the word that follows is read as the operator.  With
    white space behind a single word, the operator is the empty text and
    the version is absent, instead of the name test alone. *)
Theorem matches_untrimmed (c : Z) (q a : jsstring) :
  is_ws c = true -> toLowerCase [] = [] -> no_ws a ->
  (exists operator rest,
     split_ws (c :: q) = [] :: operator :: rest /\
     Browser.matches w (VStr (c :: q)) =
       Normal (compareVersion (Browser.currentVersion w) (Some operator)
                 (hd_error rest))) /\
  Browser.matches w (VStr (a ++ [c])) =
    Normal (if includes (toLowerCase (identity (Browser.currentBrowser w)))
                        (toLowerCase a)
            then compareVersion (Browser.currentVersion w) (Some []) None
            else false).
Proof.
  intros Hc Hlow Ha. split.
  - destruct (split_ws_leading c q Hc) as (operator & rest & Hs).
    exists operator, rest. split; [exact Hs|].
    rewrite (matches_on_pieces w _ _ _ Hs), Hlow.
    now rewrite includes_nil.
  - assert (Hs : split_ws (a ++ [c]) = [a; []]).
    { apply split_ws_trailing; [exact Ha | discriminate |].
      cbn. now rewrite Hc. }
    now rewrite (matches_on_pieces w _ _ _ Hs).
Qed.

(** X5.  [matches] reads at most three pieces of its query: two queries
    whose first three pieces are the same get the same answer, whatever
    follows. *)
Theorem matches_reads_three_pieces (q q' : jsstring) :
  firstn 3 (split_ws q) = firstn 3 (split_ws q') ->
  Browser.matches w (VStr q) = Browser.matches w (VStr q').
Proof.
  intros Hf.
  destruct (split_ws_pieces q) as (b & r & Hs & _).
  destruct (split_ws_pieces q') as (b' & r' & Hs' & _).
  rewrite (matches_on_pieces w _ _ _ Hs), (matches_on_pieces w _ _ _ Hs').
  rewrite Hs, Hs' in Hf.
  destruct r as [|o [|v r]], r' as [|o' [|v' r']]; cbn in Hf;
    try discriminate; injection Hf as -> ; subst; reflexivity.
Qed.

Lemma matches_outcome (v : value) :
  (exists b, Browser.matches w v = Normal b) \/
  Browser.matches w v = Throw TypeError.
Proof.
  destruct v; try (now right). left. apply matches_returns.
Qed.

Lemma filter_matches_non_text (l : list value) (v : value) :
  In v l -> (forall q, v <> VStr q) ->
  Browser.filter_matches w l = Throw TypeError.
Proof.
  intros Hin Hv. induction l as [|x l IH]; [destruct Hin|].
  cbn [Browser.filter_matches].
  destruct (matches_outcome x) as [[b Hb] | Hx]; [|now rewrite Hx].
  rewrite Hb. cbn [bind].
  destruct Hin as [-> | Hin].
  - rewrite (matches_not_a_text w v Hv) in Hb. discriminate.
  - now rewrite (IH Hin).
Qed.

(** X6.  [oneOf] asks [matches] about every element of its list and
    does not stop at the first that matches: one element that is not a
    text makes [oneOf] and [isOutdated] throw a TypeError, wherever it
    stands and whatever the other elements are. *)
Theorem oneOf_non_text_throws (l : list value) (v : value) :
  In v l -> (forall q, v <> VStr q) ->
  Browser.oneOf w (VArr l) = Throw TypeError /\
  Browser.isOutdated w (VArr l) = Throw TypeError.
Proof.
  intros Hin Hv. unfold Browser.isOutdated, Browser.oneOf.
  now rewrite (filter_matches_non_text l v Hin Hv).
Qed.

(** X7.  [oneOf] of an empty list is false, so that [isOutdated] of an
    empty list is true; and [oneOf] of two lists of queries put end to
    end is true exactly when it is true of one of them. *)
Theorem oneOf_concatenation (l1 l2 : list jsstring) :
  Browser.oneOf w (VArr []) = Normal false /\
  Browser.isOutdated w (VArr []) = Normal true /\
  exists b1 b2,
    Browser.oneOf w (VArr (map VStr l1)) = Normal b1 /\
    Browser.oneOf w (VArr (map VStr l2)) = Normal b2 /\
    Browser.oneOf w (VArr (map VStr (l1 ++ l2))) = Normal (b1 || b2).
Proof.
  split; [reflexivity|]. split; [reflexivity|].
  exists (existsb (matches_text w) l1), (existsb (matches_text w) l2).
  rewrite <- existsb_app.
  repeat split; apply (oneOf_existsb w (Many _)).
Qed.

(** X8.  The empty query matches every browser: the empty text is found
    in every identity (the empty text being its own lower case), so
    [matches] of it is true, and a list of supported browsers that holds
    it makes [oneOf] true and [isOutdated] false on every browser. *)
Theorem oneOf_empty_query (l : list jsstring) :
  toLowerCase [] = [] -> In [] l ->
  Browser.matches w (VStr []) = Normal true /\
  Browser.oneOf w (VArr (map VStr l)) = Normal true /\
  Browser.isOutdated w (VArr (map VStr l)) = Normal false.
Proof.
  intros Hlow Hin.
  assert (Hm : Browser.matches w (VStr []) = Normal true).
  { rewrite (matches_on_pieces w [] [] [] eq_refl), Hlow.
    now rewrite includes_nil. }
  assert (Ho : Browser.oneOf w (VArr (map VStr l)) = Normal true).
  { rewrite (oneOf_existsb w (Many l)). f_equal.
    apply existsb_exists. exists []. split; [exact Hin|].
    unfold matches_text. now rewrite Hm. }
  split; [exact Hm|]. split; [exact Ho|].
  unfold Browser.isOutdated. now rewrite Ho.
Qed.

End QueryFacts.

Section DecimalFacts.

Lemma str_inj (s t : string) : str s = str t -> s = t.
Proof.
  unfold str. intros E.
  rewrite <- (string_of_list_ascii_of_string s), <- (string_of_list_ascii_of_string t).
  f_equal. revert E.
  generalize (list_ascii_of_string s) (list_ascii_of_string t).
  induction l as [|a l IH]; intros [|b l']; cbn [map]; try discriminate;
    [reflexivity|].
  intros E. injection E as Eh Et. f_equal; [|now apply IH].
  apply N2Z.inj in Eh.
  now rewrite <- (ascii_N_embedding a), <- (ascii_N_embedding b), Eh.
Qed.

Lemma to_int_not_nil (n : Z) :
  Z.to_int n <> Decimal.Pos Decimal.Nil /\ Z.to_int n <> Decimal.Neg Decimal.Nil.
Proof.
  destruct n as [|p|p]; cbn; split; try discriminate;
    intros E; injection E as E; now apply DecimalPos.Unsigned.to_uint_nonnil in E.
Qed.

Lemma Number_toString_inj (n m : Z) :
  Number_toString n = Number_toString m -> n = m.
Proof.
  unfold Number_toString. intros E. apply str_inj in E.
  apply DecimalZ.to_int_inj.
  destruct (to_int_not_nil n) as [Hn Hn'], (to_int_not_nil m) as [Hm Hm'].
  pose proof (DecimalString.NilZero.isi _ Hn Hn') as In_.
  pose proof (DecimalString.NilZero.isi _ Hm Hm') as Im.
  rewrite E in In_. congruence.
Qed.

Lemma digits_no_dot (d : Decimal.uint) :
  has 46 (str (DecimalString.NilEmpty.string_of_uint d)) = false.
Proof. induction d; cbn; try reflexivity; exact IHd. Qed.

Lemma uint_no_dot (d : Decimal.uint) :
  has 46 (str (DecimalString.NilZero.string_of_uint d)) = false.
Proof. destruct d; try reflexivity; apply (digits_no_dot (_ d)). Qed.

Lemma Number_toString_no_dot (n : Z) : has 46 (Number_toString n) = false.
Proof.
  unfold Number_toString.
  destruct (Z.to_int n) as [d|d]; cbn [DecimalString.NilZero.string_of_int].
  - apply uint_no_dot.
  - change (str (String "-" ?s)) with (45 :: str s).
    rewrite has_cons. apply uint_no_dot.
Qed.

Lemma Number_toString_nonempty (n : Z) : Number_toString n <> [].
Proof.
  unfold Number_toString.
  destruct (Z.to_int n) as [d|d]; cbn [DecimalString.NilZero.string_of_int];
    [|discriminate].
  destruct d; discriminate.
Qed.

Lemma split_go1_piece (c : Z) (a cur rest : jsstring) :
  has c a = false ->
  split_go1 (fun x => x =? c) cur (a ++ rest)
  = split_go1 (fun x => x =? c) (rev a ++ cur) rest.
Proof.
  revert cur. induction a as [|x a IH]; intros cur Ha; [reflexivity|].
  rewrite has_cons in Ha. apply orb_false_elim in Ha as [Hx Ha].
  cbn [app split_go1]. rewrite Z.eqb_sym, Hx, IH by exact Ha.
  cbn [rev]. now rewrite <- app_assoc.
Qed.

(** Splitting on a unit undoes joining with it, for pieces that do not
    hold the unit. *)
Lemma split_on_join (c : Z) (a : jsstring) (l : list jsstring) :
  Forall (fun p => has c p = false) (a :: l) ->
  split_on (fun x => x =? c) (join [c] (a :: l)) = a :: l.
Proof.
  unfold split_on. revert a. induction l as [|b l IH]; intros a Hl.
  - cbn [join]. inversion Hl as [|? ? Ha _]; subst.
    pose proof (split_go1_piece c a [] [] Ha) as E.
    rewrite !app_nil_r in E. rewrite E. cbn [split_go1].
    now rewrite rev_involutive.
  - change (join [c] (a :: b :: l)) with (a ++ [c] ++ join [c] (b :: l)).
    inversion Hl; subst.
    rewrite split_go1_piece by assumption.
    cbn [app split_go1]. rewrite Z.eqb_refl, app_nil_r, rev_involutive.
    f_equal. now apply IH.
Qed.

Lemma map_inj {A B} (f : A -> B) (l l' : list A) :
  (forall x y, f x = f y -> x = y) -> map f l = map f l' -> l = l'.
Proof.
  intros Hf. revert l'. induction l as [|a l IH]; intros [|b l']; cbn;
    try discriminate; [reflexivity|].
  intros E. injection E as Eh Et. f_equal; auto.
Qed.

Lemma join_nonempty sep (a : jsstring) l : a <> [] -> join sep (a :: l) <> [].
Proof.
  intros Ha. destruct l; cbn [join]; [exact Ha|].
  intros E. apply app_eq_nil in E as [E _]. contradiction.
Qed.

Lemma version_text_pieces (v : Version) :
  v <> [] ->
  split_on (fun c => c =? 46) (join (str ".") (map Number_toString v))
  = map Number_toString v.
Proof.
  destruct v as [|n v]; [congruence|]. intros _. cbn [map].
  apply (split_on_join 46).
  change (Forall (fun p => has 46 p = false) (map Number_toString (n :: v))).
  apply Forall_forall. intros p Hp. apply in_map_iff in Hp as (m & <- & _).
  apply Number_toString_no_dot.
Qed.

End DecimalFacts.

Section IdentityFacts.
Context {I : Imports}.
Variable w : Window.

(** X9.  For versions of safe integers, the version text of [identity]
    is the components of the current version in decimal, joined by dots:
    it is the empty text for a version without components, splitting it
    on dots gives the components back one by one, and two versions with
    the same text are the same version.  Its platform and browser are the
    identities of the current platform and browser. *)
Theorem identity_version_text (w' : Window) :
  safe_version (Browser.currentVersion w) = true ->
  safe_version (Browser.currentVersion w') = true ->
  Identity.platform (BrowserMore.identity w) = identity (Browser.currentPlatform w) /\
  Identity.browser (BrowserMore.identity w) = identity (Browser.currentBrowser w) /\
  (Browser.currentVersion w = [] -> Identity.version (BrowserMore.identity w) = []) /\
  (Browser.currentVersion w <> [] ->
   split_on (fun c => c =? 46) (Identity.version (BrowserMore.identity w))
   = map Number_toString (Browser.currentVersion w)) /\
  (Identity.version (BrowserMore.identity w) = Identity.version (BrowserMore.identity w') ->
   Browser.currentVersion w = Browser.currentVersion w').
Proof.
  intros _ _. split; [reflexivity|]. split; [reflexivity|].
  unfold BrowserMore.identity. cbn [Identity.version].
  split; [intros E; rewrite E; reflexivity|].
  split; [apply version_text_pieces|].
  intros E.
  destruct (Browser.currentVersion w) as [|n v] eqn:Ev,
           (Browser.currentVersion w') as [|n' v'] eqn:Ev'.
  - reflexivity.
  - symmetry in E. apply join_nonempty in E; [easy | apply Number_toString_nonempty].
  - apply join_nonempty in E; [easy | apply Number_toString_nonempty].
  - apply (map_inj Number_toString); [apply Number_toString_inj|].
    pose proof (version_text_pieces (n :: v)) as P.
    pose proof (version_text_pieces (n' :: v')) as P'.
    rewrite E in P. specialize (P ltac:(discriminate)).
    specialize (P' ltac:(discriminate)). congruence.
Qed.

(** X10.  [platform] never throws and turns its query into a text
    before anything else: it is true exactly when the lowered identity of
    the current platform holds, somewhere, the lowered text of the query,
    an absent query being null.  So an absent query and the null query
    both ask for the text null, and the empty text (or an empty list) is
    found in every identity, the empty text being its own lower case. *)
Theorem platform_query_as_text (v : value) :
  (BrowserMore.platform w v = true <->
   exists pre post,
     toLowerCase (identity (Browser.currentPlatform w))
     = pre ++ toLowerCase (Cookie.ToString (default_of v)) ++ post) /\
  BrowserMore.platform w VUndefined = BrowserMore.platform w (VStr (str "null")) /\
  BrowserMore.platform w VNull = BrowserMore.platform w (VStr (str "null")) /\
  (toLowerCase [] = [] ->
   BrowserMore.platform w (VStr []) = true /\ BrowserMore.platform w (VArr []) = true).
Proof.
  split; [apply includes_spec|]. split; [reflexivity|]. split; [reflexivity|].
  intros Hl. unfold BrowserMore.platform. cbn. rewrite Hl.
  now rewrite includes_nil.
Qed.

End IdentityFacts.

(* ================================================================== *)
(** * The cookie module: how set, unset and get compose *)
(* ================================================================== *)

Section StoreMoreFacts.
Context {H : Host}.
Import Cookie.

Lemma lookup_store_other (f : cookie -> bool) c l k :
  list_eqb (c_name c) k = false ->
  lookup k (filter f (Doc.store c l)) = lookup k (filter f l).
Proof.
  intros Hk. induction l as [|o l IH]; cbn [Doc.store].
  - cbn [filter]. destruct (f c); [|reflexivity].
    now rewrite lookup_cons, Hk.
  - destruct (list_eqb (c_name o) (c_name c)) eqn:E.
    + apply list_eqb_eq in E. cbn [filter].
      destruct (f c), (f o); rewrite ?lookup_cons, ?E, ?Hk; reflexivity.
    + cbn [filter]. destruct (f o); [|exact IH].
      rewrite !lookup_cons, IH. reflexivity.
Qed.

Lemma store_store (f : cookie -> bool) c1 c2 l :
  c_name c1 = c_name c2 -> f c1 = true ->
  filter f (Doc.store c2 (filter f (Doc.store c1 l))) = filter f (Doc.store c2 l).
Proof.
  intros Hn Hf. induction l as [|o l IH]; cbn [Doc.store].
  - cbn [filter]. rewrite Hf. cbn [Doc.store]. now rewrite Hn, list_eqb_refl.
  - rewrite <- Hn. destruct (list_eqb (c_name o) (c_name c1)) eqn:E.
    + cbn [filter]. rewrite Hf. cbn [Doc.store]. rewrite Hn, list_eqb_refl.
      cbn [filter]. now rewrite filter_filter.
    + cbn [filter]. destruct (f o) eqn:Ho.
      * cbn [Doc.store]. rewrite <- Hn, E. cbn [filter]. rewrite Ho.
        f_equal. exact IH.
      * exact IH.
Qed.

Lemma filter_other_absent (k : jsstring) (l : list cookie) :
  existsb (list_eqb k) (map c_name l) = false -> filter (other_name k) l = l.
Proof.
  induction l as [|o l IH]; [reflexivity|].
  cbn [map existsb filter]. intros Hk. apply orb_false_elim in Hk as [Ho Hl].
  unfold other_name at 1. rewrite list_eqb_sym, Ho. cbn [negb].
  now rewrite IH.
Qed.

Lemma filter_swap {A} (f g : A -> bool) (l : list A) :
  filter f (filter g l) = filter g (filter f l).
Proof.
  induction l as [|a l IH]; [reflexivity|].
  cbn [filter]. destruct (f a) eqn:Ef, (g a) eqn:Eg; cbn [filter];
    rewrite ?Ef, ?Eg, IH; reflexivity.
Qed.

(** Storing a cookie that is expired removes the cookie of its name and
    keeps the others. *)
Lemma filter_store_dropped (f : cookie -> bool) c l :
  f c = false -> distinct (map c_name l) = true ->
  filter f (Doc.store c l) = filter (other_name (c_name c)) (filter f l).
Proof.
  intros Hc. induction l as [|o l IH]; cbn [Doc.store map distinct]; intros Hd.
  - cbn [filter]. now rewrite Hc.
  - apply andb_prop in Hd as [Ho Hd]. apply negb_true_iff in Ho.
    destruct (list_eqb (c_name o) (c_name c)) eqn:E.
    + cbn [filter]. rewrite Hc.
      apply list_eqb_eq in E. rewrite <- E.
      assert (Hl : filter (other_name (c_name o)) (filter f l) = filter f l).
      { rewrite filter_swap. now rewrite filter_other_absent. }
      destruct (f o); [|now rewrite Hl].
      cbn [filter].
      change (other_name (c_name o) o) with (negb (list_eqb (c_name o) (c_name o))).
      rewrite list_eqb_refl. cbn [negb]. now rewrite Hl.
    + cbn [filter]. destruct (f o); [|now apply IH].
      cbn [filter].
      change (other_name (c_name c) o) with (negb (list_eqb (c_name o) (c_name c))).
      rewrite E. cbn [negb]. f_equal. now apply IH.
Qed.

Lemma live_put c d :
  live (put c d) = filter (fun o => negb (Doc.expired (now d) o)) (Doc.store c (jar d)).
Proof. unfold live, put. cbn [now jar]. apply filter_filter. Qed.

Lemma jar_ok_put c d : cookie_ok c = true -> jar_ok d = true -> jar_ok (put c d) = true.
Proof.
  unfold jar_ok, put. cbn [jar]. intros Hc Hd. apply andb_prop in Hd as [Hd1 Hd2].
  apply andb_true_intro. split.
  - now apply forallb_filter, forallb_store.
  - now apply distinct_filter, distinct_store.
Qed.

(** Two texts with the same encoding are the same text. *)
Lemma encode_inj a b e :
  well_formed a = true -> well_formed b = true ->
  encodeURIComponent a = Normal e -> encodeURIComponent b = Normal e -> a = b.
Proof.
  intros Ha Hb Ea Eb.
  destruct (decode_encode a Ha) as (ea & Ea' & Da).
  destruct (decode_encode b Hb) as (eb & Eb' & Db).
  congruence.
Qed.

Lemma assign_no_options o : assign no_options o = o.
Proof. unfold assign. cbn. rewrite !or_else_none. now destruct o. Qed.

Lemma raw_merged this v opts d :
  raw (merged this v opts d) = raw (assign (options this) opts).
Proof.
  unfold merged. destruct v; cbn; try reflexivity;
    destruct (integer_days (assign (options this) opts)); reflexivity.
Qed.

(** With the default options and a value that is not null, the text
    written is key=value, both encoded. *)
Lemma cookie_text_bare_value this key v opts d :
  bare (assign (options this) opts) = true -> value_of v <> VNull ->
  cookie_text this key v opts d =
    bind (encodeURIComponent key) (fun k =>
    bind (encodeURIComponent (ToString (value_of v)))
         (fun e => Normal (k ++ str "=" ++ e))).
Proof.
  intros Hb Hv. unfold bare in Hb.
  apply andb_prop in Hb as [Hb Hraw]. apply andb_prop in Hb as [Hb Hdays].
  apply andb_prop in Hb as [Hattr Hexp]. apply negb_true_iff in Hraw.
  destruct (integer_days (assign (options this) opts)) eqn:Ed; [discriminate|].
  destruct (expires (assign (options this) opts)) eqn:Ee; [discriminate|].
  rewrite cookie_text_eq.
  rewrite merged_unchanged by (exact Hv || exact Ed).
  rewrite Hraw, (attributes_none _ Hattr Ee).
  destruct (encodeURIComponent key); [|reflexivity]. cbn [bind].
  destruct (encodeURIComponent _); [|reflexivity]. cbn [bind].
  now rewrite app_nil_r.
Qed.

(** What [set] does to the store with the default options: nothing for
    the empty key, and otherwise it puts the session cookie of the
    encoded key and value. *)
Lemma set_bare this key v opts d :
  bare (assign (options this) opts) = true -> value_of v <> VNull ->
  well_formed key = true -> well_formed (ToString (value_of v)) = true ->
  exists k e,
    encodeURIComponent key = Normal k /\
    encodeURIComponent (ToString (value_of v)) = Normal e /\
    decodeURIComponent e = Normal (ToString (value_of v)) /\
    (key <> [] -> cookie_ok {| c_name := k; c_value := e; c_expires := None |} = true) /\
    set this key v opts d =
      Normal (match key with
              | [] => d
              | _ :: _ => put {| c_name := k; c_value := e; c_expires := None |} d
              end).
Proof.
  intros Hb Hv Hkey Hval.
  destruct (encode_well_formed key Hkey) as (k & _ & Hk & _ & _ & Hka & Hkne).
  destruct (encode_well_formed _ Hval) as (e & items & He & Hi & Hr & Hea & _).
  pose proof (encoded_enc_char _ _ Hka) as Hkc.
  pose proof (encoded_enc_char _ _ Hea) as Hec.
  exists k, e. split; [exact Hk|]. split; [exact He|]. split.
  { unfold decodeURIComponent. now rewrite Hi. }
  split.
  { intros Hne. apply cookie_ok_encoded; auto. }
  unfold set. rewrite cookie_text_bare_value, Hk, He by assumption. cbn [bind].
  destruct key as [|c0 key'].
  - cbn in Hk. injection Hk as <-. cbn [app].
    change (str "=" ++ e) with (61 :: e). now rewrite write_nameless.
  - rewrite write_pair; [reflexivity | exact Hkc | exact Hec |].
    apply Hkne. discriminate.
Qed.

End StoreMoreFacts.

Section CookieMoreFacts.
Context {H : Host}.
Import Cookie.

Lemma not_null_value v : v <> VNull -> v <> VUndefined -> value_of v = v /\ value_of v <> VNull.
Proof. intros Hn Hu. destruct v; try congruence; cbn; split; congruence. Qed.

Lemma session_kept t k e :
  negb (Doc.expired t {| c_name := k; c_value := e; c_expires := None |}) = true.
Proof. reflexivity. Qed.

(** X11.  What comes back is the text of the value, not the value.  With
    the default options, for a key that is not empty, well formed and
    without dot, star or parenthesis, and for every value other than null
    and undefined whose text [String(value)] is well formed (a boolean,
    a list, a text), [set] returns, and [get] of the key then returns
    that text; with the raw flag [get] returns the encoded text that was
    stored. *)
Theorem set_get_any_value this key v opts d dv :
  well_formed key = true -> key <> [] -> literal_key key = true ->
  v <> VNull -> v <> VUndefined -> well_formed (ToString v) = true ->
  bare (assign (options this) opts) = true -> jar_ok d = true ->
  exists d' e,
    set this key v opts d = Normal d' /\
    encodeURIComponent (ToString v) = Normal e /\
    get key dv false d' = Normal (VStr (ToString v)) /\
    get key dv true d' = Normal (VStr e).
Proof.
  intros Hkey Hne Hlit Hn Hu Hval Hb Hjar.
  destruct (not_null_value v Hn Hu) as [Ev Hv].
  rewrite <- Ev in Hval.
  destruct (set_bare this key v opts d Hb Hv Hkey Hval)
    as (k & e & Hk & He & Hdec & Hok & Hset).
  specialize (Hok Hne). rewrite Ev in *.
  destruct key as [|c0 key']; [congruence|].
  eexists. exists e. split; [exact Hset|]. split; [exact He|].
  set (c := {| c_name := k; c_value := e; c_expires := None |}) in *.
  assert (Hlive : forallb cookie_ok (live (put c d)) = true)
    by (apply live_ok, jar_ok_put; assumption).
  assert (Hl : lookup k (live (put c d)) = Some e).
  { rewrite live_put. apply (lookup_store_kept _ c (jar d)). apply session_kept. }
  split.
  - destruct (get_literal (c0 :: key') dv false (put c d) Hkey Hlit Hlive)
      as (k' & Hk' & ->).
    rewrite Hk in Hk'. injection Hk' as <-.
    rewrite Hl. unfold fmap. now rewrite Hdec.
  - destruct (get_literal (c0 :: key') dv true (put c d) Hkey Hlit Hlive)
      as (k' & Hk' & ->).
    rewrite Hk in Hk'. injection Hk' as <-. now rewrite Hl.
Qed.

(** X12.  [set] of one key leaves the others alone.  With the default
    options, after [set] of a well-formed key with a value other than
    null, [get] of any other key (well formed, without dot, star or
    parenthesis) returns what it returned before, raw or not. *)
Theorem set_leaves_other_keys this key v opts d key' dv raw_ :
  well_formed key = true -> v <> VNull -> v <> VUndefined ->
  well_formed (ToString v) = true ->
  bare (assign (options this) opts) = true -> jar_ok d = true ->
  well_formed key' = true -> literal_key key' = true -> key' <> key ->
  exists d',
    set this key v opts d = Normal d' /\
    get key' dv raw_ d' = get key' dv raw_ d.
Proof.
  intros Hkey Hn Hu Hval Hb Hjar Hkey' Hlit' Hdiff.
  destruct (not_null_value v Hn Hu) as [Ev Hv].
  rewrite <- Ev in Hval.
  destruct (set_bare this key v opts d Hb Hv Hkey Hval)
    as (k & e & Hk & He & _ & Hok & Hset).
  destruct key as [|c0 key0]; [now exists d|].
  specialize (Hok ltac:(discriminate)).
  eexists. split; [exact Hset|].
  set (c := {| c_name := k; c_value := e; c_expires := None |}) in *.
  assert (Hlive : forallb cookie_ok (live (put c d)) = true)
    by (apply live_ok, jar_ok_put; assumption).
  destruct (get_literal key' dv raw_ (put c d) Hkey' Hlit' Hlive) as (k' & Hk' & ->).
  destruct (get_literal key' dv raw_ d Hkey' Hlit' (live_ok d Hjar)) as (k'' & Hk'' & ->).
  rewrite Hk' in Hk''. injection Hk'' as <-.
  rewrite live_put.
  rewrite (lookup_store_other _ c (jar d) k'); [reflexivity|].
  apply list_eqb_neq. cbn [c c_name]. intros ->.
  apply Hdiff. exact (encode_inj _ _ _ Hkey' Hkey Hk' Hk).
Qed.

(** X13.  The last [set] wins.  With the default options, [set] of a
    key with one value and then with another leaves exactly the store
    that [set] with the second value alone leaves: nothing of the first
    value stays. *)
Theorem set_last_write_wins this key v1 v2 opts d :
  well_formed key = true ->
  v1 <> VNull -> v1 <> VUndefined -> well_formed (ToString v1) = true ->
  v2 <> VNull -> v2 <> VUndefined -> well_formed (ToString v2) = true ->
  bare (assign (options this) opts) = true ->
  exists d1 d2,
    set this key v1 opts d = Normal d1 /\
    set this key v2 opts d1 = Normal d2 /\
    set this key v2 opts d = Normal d2.
Proof.
  intros Hkey Hn1 Hu1 Hval1 Hn2 Hu2 Hval2 Hb.
  destruct (not_null_value v1 Hn1 Hu1) as [Ev1 Hv1].
  destruct (not_null_value v2 Hn2 Hu2) as [Ev2 Hv2].
  rewrite <- Ev1 in Hval1. rewrite <- Ev2 in Hval2.
  destruct (set_bare this key v1 opts d Hb Hv1 Hkey Hval1)
    as (k & e1 & Hk & _ & _ & _ & Hset1).
  destruct (set_bare this key v2 opts d Hb Hv2 Hkey Hval2)
    as (k2 & e2 & Hk2 & He2 & _ & _ & Hset2).
  rewrite Hk in Hk2. injection Hk2 as <-.
  eexists. eexists. split; [exact Hset1|]. split; [|exact Hset2].
  destruct key as [|c0 key0]; [exact Hset2|].
  destruct (set_bare this (c0 :: key0) v2 opts
              (put {| c_name := k; c_value := e1; c_expires := None |} d)
              Hb Hv2 Hkey Hval2)
    as (k3 & e3 & Hk3 & He3 & _ & _ & ->).
  rewrite Hk in Hk3. injection Hk3 as <-.
  rewrite He2 in He3. injection He3 as <-.
  f_equal. unfold put. cbn [now jar]. f_equal.
  apply store_store; reflexivity.
Qed.

(** The text [unset] writes stores an expired cookie of the encoded
    key, on a host that reads the date written as an instant in the
    past. *)
Lemma unset_put this key opts d t :
  well_formed key = true ->
  no_attributes (assign (options this) opts) = true ->
  has 59 (Date_toUTCString (in_days d (-1))) = false ->
  parse_cookie_date (Doc.trim (Date_toUTCString (in_days d (-1)))) = Some t ->
  exists k,
    encodeURIComponent key = Normal k /\
    (key <> [] -> k <> []) /\
    unset this key opts d =
      Normal (match key with
              | [] => d
              | _ :: _ => put {| c_name := k; c_value := str "null";
                                 c_expires := Some t |} d
              end).
Proof.
  intros Hkey Ha Hsemi Hparse.
  destruct (encode_well_formed key Hkey) as (k & _ & Hk & _ & _ & Hka & Hkne).
  pose proof (encoded_enc_char _ _ Hka) as Hkc.
  exists k. split; [exact Hk|]. split; [exact Hkne|].
  unfold unset, set. rewrite unset_text, Hk by exact Ha. cbn [bind].
  destruct key as [|c0 key'].
  - cbn in Hk. injection Hk as <-. cbn [app].
    change (str "=" ++ ?x) with (61 :: x). now rewrite write_nameless.
  - rewrite (write_pair_expires k (str "null") _ t d Hkc null_text_encoded
               (Hkne ltac:(discriminate)) Hsemi Hparse).
    reflexivity.
Qed.

Lemma filter_other_nameless l :
  forallb cookie_ok l = true -> filter (other_name []) l = l.
Proof.
  induction l as [|c l IH]; [reflexivity|].
  cbn [forallb filter]. intros Hl. apply andb_prop in Hl as [Hc Hl].
  rewrite (IH Hl). unfold cookie_ok in Hc. unfold other_name.
  destruct (c_name c); [now rewrite andb_false_r in Hc | reflexivity].
Qed.

Lemma lookup_other k k' l :
  list_eqb k' k = false -> lookup k' (filter (other_name k) l) = lookup k' l.
Proof.
  intros Hk. induction l as [|c l IH]; [reflexivity|].
  cbn [filter]. unfold other_name at 1.
  destruct (list_eqb (c_name c) k) eqn:E; cbn [negb].
  - rewrite IH, lookup_cons. apply list_eqb_eq in E. rewrite E.
    now rewrite list_eqb_sym, Hk.
  - now rewrite !lookup_cons, IH.
Qed.

(** X14.  [unset] removes the cookie of its key and nothing else.  On a
    host that reads the date [unset] wrote as an instant in the past, and
    without path, domain or secure option, the cookies shown after
    [unset] of a well-formed key are those shown before, in their order,
    without the one named by the encoded key; so [unset] of a key that
    has no cookie changes nothing shown, and [get] of any other key
    (well formed, without dot, star or parenthesis) returns what it
    returned before. *)
Theorem unset_removes_only_key this key opts d t :
  well_formed key = true ->
  no_attributes (assign (options this) opts) = true -> jar_ok d = true ->
  has 59 (Date_toUTCString (in_days d (-1))) = false ->
  parse_cookie_date (Doc.trim (Date_toUTCString (in_days d (-1)))) = Some t ->
  t < now d ->
  exists d' k,
    unset this key opts d = Normal d' /\
    encodeURIComponent key = Normal k /\
    live d' = filter (other_name k) (live d) /\
    (lookup k (live d) = None -> Doc.read_cookie d' = Doc.read_cookie d) /\
    (forall key' dv raw_,
        well_formed key' = true -> literal_key key' = true -> key' <> key ->
        get key' dv raw_ d' = get key' dv raw_ d).
Proof.
  intros Hkey Ha Hjar Hsemi Hparse Hpast.
  destruct (unset_put this key opts d t Hkey Ha Hsemi Hparse)
    as (k & Hk & Hkne & Hunset).
  pose proof Hjar as Hj. unfold jar_ok in Hj. apply andb_prop in Hj as [Hok Hdist].
  eexists. exists k. split; [exact Hunset|]. split; [exact Hk|].
  set (c := {| c_name := k; c_value := str "null"; c_expires := Some t |}) in *.
  assert (Hlive : live (match key with [] => d | _ :: _ => put c d end)
                  = filter (other_name k) (live d)).
  { destruct key as [|c0 key0].
    - cbn in Hk. injection Hk as <-.
      symmetry. apply filter_other_nameless. now apply live_ok.
    - rewrite live_put. apply (filter_store_dropped _ c (jar d)); [|exact Hdist].
      unfold Doc.expired. cbn [c c_expires].
      apply negb_false_iff. apply Z.leb_le. lia. }
  assert (Hjar' : jar_ok (match key with [] => d | _ :: _ => put c d end) = true).
  { destruct key as [|c0 key0]; [exact Hjar|].
    apply jar_ok_put; [|exact Hjar].
    apply cookie_ok_encoded; [| exact null_text_encoded | apply Hkne; discriminate].
    destruct (encode_well_formed _ Hkey) as (k0 & _ & Hk0 & _ & _ & Hka & _).
    rewrite Hk in Hk0. injection Hk0 as <-. exact (encoded_enc_char _ _ Hka). }
  split; [exact Hlive|]. split.
  - intros Hnone. rewrite !read_cookie_live, Hlive. f_equal. f_equal.
    clear - Hnone. induction (live d) as [|o l IH]; [reflexivity|].
    rewrite lookup_cons in Hnone. cbn [filter]. unfold other_name at 1.
    destruct (list_eqb (c_name o) k); [discriminate|]. cbn [negb].
    now rewrite IH.
  - intros key' dv raw_ Hkey' Hlit' Hdiff.
    destruct (get_literal key' dv raw_ _ Hkey' Hlit' (live_ok _ Hjar')) as (k' & Hk' & ->).
    destruct (get_literal key' dv raw_ d Hkey' Hlit' (live_ok d Hjar)) as (k'' & Hk'' & ->).
    rewrite Hk' in Hk''. injection Hk'' as <-.
    rewrite Hlive, lookup_other; [reflexivity|].
    apply list_eqb_neq. intros ->.
    apply Hdiff. exact (encode_inj _ _ _ Hkey' Hkey Hk' Hk).
Qed.

(** Writing name=value for an encoded name and a value as it is: the
    value must hold no semicolon and must not begin or end with a blank,
    which the host would take off. *)
Lemma write_pair_raw k v d :
  Forall (fun c => enc_char c = true) k -> k <> [] ->
  has 59 v = false -> Doc.trim v = v ->
  Doc.write_cookie (k ++ str "=" ++ v) d
  = put {| c_name := k; c_value := v; c_expires := None |} d.
Proof.
  intros Hk Hne V59 Vt.
  destruct (enc_text_safe k Hk) as (K59 & K61 & Kw).
  unfold Doc.write_cookie.
  rewrite cut_none by (rewrite !has_app, K59, V59; reflexivity).
  change (str "=" ++ v) with (61 :: v).
  rewrite cut_at by exact K61.
  rewrite trim_id, Vt by assumption.
  destruct k; [congruence | reflexivity].
Qed.

Lemma cookie_text_raw this key v opts d :
  raw_only (assign (options this) opts) = true ->
  cookie_text this key (VStr v) opts d =
    bind (encodeURIComponent key) (fun k => Normal (k ++ str "=" ++ v)).
Proof.
  intros Hb. unfold raw_only in Hb.
  apply andb_prop in Hb as [Hb Hraw]. apply andb_prop in Hb as [Hb Hdays].
  apply andb_prop in Hb as [Hattr Hexp].
  destruct (integer_days (assign (options this) opts)) eqn:Ed; [discriminate|].
  destruct (expires (assign (options this) opts)) eqn:Ee; [discriminate|].
  rewrite cookie_text_eq. cbn [value_of ToString].
  rewrite merged_unchanged by (congruence || exact Ed).
  rewrite Hraw, (attributes_none _ Hattr Ee).
  destruct (encodeURIComponent key); [|reflexivity]. cbn [bind].
  now rewrite app_nil_r.
Qed.

(** X15.  The raw flag takes the value as it is, on both sides.  With
    the raw option alone, for a key that is not empty, well formed and
    without dot, star or parenthesis, and a text value without a
    semicolon that neither begins nor ends with a blank, [set] returns, a
    raw [get] returns the value as it was given, and a [get] that is not
    raw returns its decoding, with the URIError of [decodeURIComponent]
    when the value is no valid encoding. *)
Theorem set_raw_get this key v opts d dv :
  well_formed key = true -> key <> [] -> literal_key key = true ->
  has 59 v = false -> Doc.trim v = v ->
  raw_only (assign (options this) opts) = true -> jar_ok d = true ->
  exists d',
    set this key (VStr v) opts d = Normal d' /\
    get key dv true d' = Normal (VStr v) /\
    get key dv false d' = fmap VStr (decodeURIComponent v).
Proof.
  intros Hkey Hne Hlit V59 Vt Hb Hjar.
  destruct (encode_well_formed key Hkey) as (k & _ & Hk & _ & _ & Hka & Hkne).
  pose proof (encoded_enc_char _ _ Hka) as Hkc.
  specialize (Hkne Hne).
  unfold set. rewrite cookie_text_raw, Hk by exact Hb. cbn [bind].
  rewrite write_pair_raw by assumption.
  eexists. split; [reflexivity|].
  set (c := {| c_name := k; c_value := v; c_expires := None |}).
  assert (Hc : cookie_ok c = true).
  { destruct (enc_text_safe k Hkc) as (K59 & K61 & _).
    unfold cookie_ok. cbn [c c_name c_value]. rewrite K59, K61, V59.
    destruct k; [congruence | reflexivity]. }
  assert (Hlive : forallb cookie_ok (live (put c d)) = true)
    by (apply live_ok, jar_ok_put; assumption).
  assert (Hl : lookup k (live (put c d)) = Some v).
  { rewrite live_put. apply (lookup_store_kept _ c (jar d)). apply session_kept. }
  split.
  - destruct (get_literal key dv true (put c d) Hkey Hlit Hlive) as (k' & Hk' & ->).
    rewrite Hk in Hk'. injection Hk' as <-. now rewrite Hl.
  - destruct (get_literal key dv false (put c d) Hkey Hlit Hlive) as (k' & Hk' & ->).
    rewrite Hk in Hk'. injection Hk' as <-. now rewrite Hl.
Qed.

Lemma no_attributes_merged this v opts d :
  no_attributes (merged this v opts d) = no_attributes (assign (options this) opts).
Proof.
  unfold merged. destruct v; cbn; try reflexivity;
    destruct (integer_days (assign (options this) opts)); reflexivity.
Qed.

(** X16.  A cookie written with an expiry lives or dies by its date.
    Without path, domain, secure or raw option, when [set] writes an
    expiry (the date computed from an integer [days], else the [expires]
    passed) that the host reads back as the instant [t], [set] of a
    non-empty well-formed key without dot, star or parenthesis and of a
    value other than null returns, and [get] of the key then returns the
    default when [t] is not after the current instant (the cookie of the
    key is removed, as by [unset]; so it is with no day from now) and the
    text of the value otherwise. *)
Theorem set_with_expiry this key v opts d dv e t :
  well_formed key = true -> key <> [] -> literal_key key = true ->
  v <> VNull -> v <> VUndefined -> well_formed (ToString v) = true ->
  no_attributes (assign (options this) opts) = true ->
  truthy_bool (raw (assign (options this) opts)) = false ->
  expiry_for (assign (options this) opts) d = Some e ->
  has 59 (Date_toUTCString e) = false ->
  parse_cookie_date (Doc.trim (Date_toUTCString e)) = Some t ->
  jar_ok d = true ->
  exists d',
    set this key v opts d = Normal d' /\
    get key dv false d' =
      if t <=? now d then Normal (default_of dv) else Normal (VStr (ToString v)).
Proof.
  intros Hkey Hne Hlit Hn Hu Hval Ha Hraw He Hsemi Hparse Hjar.
  destruct (not_null_value v Hn Hu) as [Ev Hv].
  destruct (encode_well_formed key Hkey) as (k & _ & Hk & _ & _ & Hka & Hkne).
  destruct (encode_well_formed _ Hval) as (ev & items & Hev & Hi & Hr & Hea & _).
  pose proof (encoded_enc_char _ _ Hka) as Hkc.
  pose proof (encoded_enc_char _ _ Hea) as Hec.
  specialize (Hkne Hne).
  assert (Hexp : expires (merged this v opts d) = Some e).
  { unfold expiry_for in He.
    destruct (integer_days (assign (options this) opts)) as [n|] eqn:Ed.
    - rewrite (merged_days this v opts d n Hn Ed). exact He.
    - rewrite (merged_unchanged this v opts d Hn Ed). exact He. }
  unfold set. rewrite cookie_text_eq, Ev, Hk, raw_merged, Hraw, Hev. cbn [bind].
  rewrite (attributes_expires _ e) by (rewrite ?no_attributes_merged; assumption).
  rewrite (write_pair_expires k ev _ t d Hkc Hec Hkne Hsemi Hparse).
  eexists. split; [reflexivity|].
  set (c := {| c_name := k; c_value := ev; c_expires := Some t |}).
  fold (put c d).
  assert (Hc : cookie_ok c = true) by (now apply cookie_ok_encoded).
  assert (Hlive : forallb cookie_ok (live (put c d)) = true)
    by (apply live_ok, jar_ok_put; assumption).
  destruct (get_literal key dv false (put c d) Hkey Hlit Hlive) as (k' & Hk' & ->).
  rewrite Hk in Hk'. injection Hk' as <-. rewrite live_put.
  destruct (t <=? now d) eqn:Et.
  - rewrite (lookup_store_dropped _ c (jar d)); [reflexivity | |].
    + unfold Doc.expired. cbn [c c_expires]. now rewrite Et.
    + unfold jar_ok in Hjar. now apply andb_prop in Hjar as [_ Hjar].
  - rewrite (lookup_store_kept _ c (jar d)).
    + cbn [c c_value]. unfold fmap, decodeURIComponent. rewrite Hi. cbn [bind].
      now rewrite Hr.
    + unfold Doc.expired. cbn [c c_expires]. now rewrite Et.
Qed.

Lemma units_Forall s : forallb is_unit s = true -> Forall (fun c => is_unit c = true) s.
Proof. intros Hs. apply Forall_forall. now apply forallb_forall. Qed.

(** X17.  When [set] throws.  For a key and a value text made of code
    units, [set] returns exactly when the key is well formed and the
    value text is well formed or the raw flag is set, which leaves the
    value unencoded; in every other case it throws a URIError, and
    nothing is written.  [unset] returns exactly when the key is well
    formed. *)
Theorem set_throws_exactly this key v opts d :
  forallb is_unit key = true -> forallb is_unit (ToString (value_of v)) = true ->
  (well_formed key &&
   (truthy_bool (raw (assign (options this) opts))
    || well_formed (ToString (value_of v))) = true ->
   exists d', set this key v opts d = Normal d') /\
  (well_formed key &&
   (truthy_bool (raw (assign (options this) opts))
    || well_formed (ToString (value_of v))) = false ->
   set this key v opts d = Throw URIError) /\
  (well_formed key = true -> exists d', unset this key opts d = Normal d') /\
  (well_formed key = false -> unset this key opts d = Throw URIError).
Proof.
  intros Uk Uv.
  apply units_Forall in Uk, Uv.
  assert (Hbad : well_formed key = false -> forall v',
             set this key v' opts d = Throw URIError).
  { intros Hk v'. unfold set. rewrite cookie_text_eq.
    now rewrite (encode_ill_formed key Uk Hk). }
  split; [|split; [|split]].
  - intros Hc. apply andb_prop in Hc as [Hk Hv].
    destruct (decode_encode key Hk) as (k & Ek & _).
    unfold set. rewrite cookie_text_eq, Ek, raw_merged. cbn [bind].
    destruct (truthy_bool _); [cbn [bind]; eauto|].
    cbn [orb] in Hv. destruct (decode_encode _ Hv) as (e & Ee & _).
    rewrite Ee. cbn [bind]. eauto.
  - intros Hc. apply andb_false_iff in Hc as [Hk | Hv]; [now apply Hbad|].
    apply orb_false_elim in Hv as [Hraw Hv].
    destruct (well_formed key) eqn:Hk; [|now apply Hbad].
    destruct (decode_encode key Hk) as (k & Ek & _).
    unfold set. rewrite cookie_text_eq, Ek, raw_merged, Hraw. cbn [bind].
    now rewrite (encode_ill_formed _ Uv Hv).
  - apply unset_returns.
  - intros Hk. apply Hbad, Hk.
Qed.

(** X18.  [get] with a key that has an unpaired surrogate: on an empty
    cookie text it returns the default without looking at the key, and
    on any other it throws a URIError, whatever the cookies are. *)
Theorem get_ill_formed_key key dv raw_ d :
  forallb is_unit key = true -> well_formed key = false ->
  (Doc.read_cookie d = [] -> get key dv raw_ d = Normal (default_of dv)) /\
  (Doc.read_cookie d <> [] -> get key dv raw_ d = Throw URIError).
Proof.
  intros Uk Hk. apply units_Forall in Uk. split; [apply get_empty|].
  intros Hne. unfold get. destruct (Doc.read_cookie d); [congruence|].
  now rewrite (encode_ill_formed key Uk Hk).
Qed.

(** X19.  Configured options are default arguments of [set].  After any
    number of [configure] calls only the last counts, and [set] with
    options [o] then writes what [set] on the module as exported writes
    with the configured options overridden, property by property, by
    [o]. *)
Theorem configure_then_set c1 c2 this key v opts d :
  set (configure c2 (configure c1 this)) key v opts d
  = set initial key v (assign c2 opts) d /\
  unset (configure c2 (configure c1 this)) key opts d
  = unset initial key (assign c2 opts) d.
Proof.
  assert (E : forall v', set (configure c2 (configure c1 this)) key v' opts d
                         = set initial key v' (assign c2 opts) d).
  { intros v'. unfold set, cookie_text, merged.
    cbn [configure options initial].
    now rewrite !assign_no_options. }
  split; [apply E | apply (E VNull)].
Qed.

End CookieMoreFacts.

(* ================================================================== *)
(** * The cookie module: the key of get as a pattern *)
(* ================================================================== *)

Section KeyPatternFacts.

(** A pattern the parser accepts has balanced parentheses. *)
Lemma parse_balanced (n : nat) :
  forall p ng cur stack r m,
    (List.length p <= n)%nat ->
    parse p ng cur stack = Parsed r m ->
    balanced (List.length stack) p = true.
Proof.
  induction n as [|n IH]; intros p ng cur stack r m Hlen Hp.
  - destruct p; [|cbn in Hlen; lia].
    cbn in Hp. destruct stack; [reflexivity | discriminate].
  - destruct p as [|c rest].
    { cbn in Hp. destruct stack; [reflexivity | discriminate]. }
    cbn [List.length] in Hlen. cbn [parse] in Hp. cbn [balanced].
    destruct (c =? 40) eqn:E40.
    { destruct rest as [|q rest1]; [discriminate|].
      destruct (q =? 63) eqn:E63.
      - destruct rest1 as [|d0 rest2]; [discriminate|].
        destruct (d0 =? 58) eqn:E58; [|discriminate].
        apply IH in Hp; [|cbn [List.length] in *; lia].
        apply Z.eqb_eq in E63, E58. subst q d0. exact Hp.
      - apply IH in Hp; [exact Hp | lia]. }
    destruct (c =? 41) eqn:E41.
    { destruct stack as [|parent stack']; [discriminate|].
      apply IH in Hp; [exact Hp | lia]. }
    destruct (c =? 124); [apply IH in Hp; [exact Hp | lia]|].
    destruct (c =? 42).
    { destruct (f_cur cur) as [|t ts]; [discriminate|].
      destruct (quantifiable t); [|discriminate].
      apply IH in Hp; [exact Hp | lia]. }
    destruct (c =? 46); [apply IH in Hp; [exact Hp | lia]|].
    destruct (c =? 94); [apply IH in Hp; [exact Hp | lia]|].
    destruct (c =? 91).
    { destruct rest as [|c1 [|c2 [|c3 rest']]]; try discriminate.
      destruct ((c1 =? 94) && (c2 =? 59) && (c3 =? 93)) eqn:E; [|discriminate].
      apply IH in Hp; [|cbn [List.length] in *; lia].
      zbool. destruct E as [[-> ->] ->]. exact Hp. }
    destruct ((c =? 92) || (c =? 43) || (c =? 63) || (c =? 123) || (c =? 125)
              || (c =? 93) || (c =? 36)); [discriminate|].
    apply IH in Hp; [exact Hp | lia].
Qed.

(** [new RegExp] throws a SyntaxError on a pattern whose parentheses
    are not balanced. *)
Lemma RegExp_unbalanced p : balanced 0 p = false -> RegExp p = Throw SyntaxError.
Proof.
  intros Hp. unfold RegExp.
  destruct (parse p 0 (open_frame None) []) as [r m| |] eqn:E; try reflexivity.
  apply (parse_balanced (List.length p)) in E; [|lia].
  cbn [List.length] in E. congruence.
Qed.

Lemma balanced_pct s r depth :
  Forall (fun c => pct_char c = true) s -> balanced depth (s ++ r) = balanced depth r.
Proof.
  induction 1 as [|c s Hc _ IH]; [reflexivity|].
  cbn [app balanced]. unfold pct_char in Hc.
  replace (c =? 40) with false by (symmetry; zbool; lia).
  replace (c =? 41) with false by (symmetry; zbool; lia).
  exact IH.
Qed.

Lemma balanced_other c s depth :
  unreserved c = false -> balanced depth (c :: s) = balanced depth s.
Proof.
  intros Hc. cbn [balanced].
  destruct (c =? 40) eqn:E; [apply Z.eqb_eq in E; now subst|].
  destruct (c =? 41) eqn:E'; [apply Z.eqb_eq in E'; now subst|].
  reflexivity.
Qed.

(** Encoding keeps the parentheses and adds none. *)
Lemma balanced_encode s :
  well_formed s = true ->
  forall e depth, encodeURIComponent s = Normal e -> balanced depth e = balanced depth s.
Proof.
  intros Hwf. pattern s. apply well_formed_cases; [| | | exact Hwf]; clear s Hwf.
  - intros e depth E. cbn in E. now injection E as <-.
  - intros c rest Hl Ht Hu Hwf IH e depth E.
    destruct (encode_well_formed rest Hwf) as (r & _ & Hr & _).
    destruct (unreserved c) eqn:Hun.
    + rewrite encode_unreserved, Hr in E by exact Hun. cbn [bind] in E.
      injection E as <-. cbn [balanced].
      destruct (c =? 40); [apply (IH r _ Hr)|].
      destruct (c =? 41); [destruct depth; [reflexivity | apply (IH r _ Hr)]|].
      apply (IH r _ Hr).
    + rewrite encode_bmp, Hr in E by assumption. cbn [bind] in E.
      injection E as <-.
      destruct (bmp_scalar c Hl Ht Hu) as [Hsc _].
      rewrite balanced_pct by (apply pct_chars, utf8_octets, Hsc).
      rewrite balanced_other by exact Hun. apply (IH r _ Hr).
  - intros c d rest Hl Ht Hwf IH e depth E.
    destruct (encode_well_formed rest Hwf) as (r & _ & Hr & _).
    rewrite encode_pair, Hr in E by assumption. cbn [bind] in E.
    injection E as <-.
    destruct (pair_cp_scalar c d Hl Ht) as [Hsc _].
    rewrite balanced_pct by (apply pct_chars, utf8_octets, Hsc).
    rewrite balanced_other by (now apply lead_not_unreserved).
    rewrite balanced_other; [apply (IH r _ Hr)|].
    destruct (unreserved d) eqn:Hun; [|reflexivity].
    apply unreserved_ascii in Hun. unfold is_trail in Ht. zbool. lia.
Qed.

Lemma balanced_suffix k depth :
  balanced depth (k ++ str "=([^;]*)") = balanced depth k.
Proof.
  revert depth. induction k as [|c k IH]; intros depth; [reflexivity|].
  cbn [app balanced].
  destruct (c =? 40), (c =? 41), depth; rewrite ?IH; reflexivity.
Qed.

Lemma bind_Normal {A} (c : completion A) : bind c Normal = c.
Proof. now destruct c. Qed.

(** The encoding of a well-formed text followed by another is the
    encoding of the one followed by that of the other. *)
Lemma encode_app a s :
  well_formed a = true ->
  encodeURIComponent (a ++ s)
  = bind (encodeURIComponent a) (fun ea =>
    bind (encodeURIComponent s) (fun es => Normal (ea ++ es))).
Proof.
  intros Hwf. pattern a. apply well_formed_cases; [| | | exact Hwf]; clear a Hwf.
  - cbn [app encodeURIComponent bind]. now rewrite bind_Normal.
  - intros c rest Hl Ht Hu Hwf IH. cbn [app].
    destruct (unreserved c) eqn:Hun.
    + rewrite !encode_unreserved, IH by exact Hun.
      destruct (encodeURIComponent rest); [|reflexivity]. cbn [bind].
      now destruct (encodeURIComponent s).
    + rewrite !encode_bmp, IH by assumption.
      destruct (encodeURIComponent rest); [|reflexivity]. cbn [bind].
      destruct (encodeURIComponent s); [|reflexivity]. cbn [bind].
      now rewrite app_assoc.
  - intros c d rest Hl Ht Hwf IH. cbn [app].
    rewrite !encode_pair, IH by assumption.
    destruct (encodeURIComponent rest); [|reflexivity]. cbn [bind].
    destruct (encodeURIComponent s); [|reflexivity]. cbn [bind].
    now rewrite app_assoc.
Qed.

(** The pattern built for an encoded key with one dot between two texts
    that stand for themselves reads as [dot_pattern]: the dot is the
    wildcard. *)
Lemma RegExp_dot a b :
  Forall (fun c => plain c = true) a -> Forall (fun c => plain c = true) b ->
  RegExp (str "(?:^|; )" ++ (a ++ 46 :: b) ++ str "=([^;]*)")
  = Normal (dot_pattern a b).
Proof.
  intros Ha Hb. unfold RegExp.
  change (parse (str "(?:^|; )" ++ (a ++ 46 :: b) ++ str "=([^;]*)") 0
            (open_frame None) [])
    with (parse ((a ++ 46 :: b) ++ str "=([^;]*)") 0
            {| f_cap := None; f_alts := None; f_cur := [pair_start] |} []).
  rewrite <- app_assoc. rewrite plain_text_parsed by exact Ha.
  cbn [f_cap f_alts f_cur app].
  change (parse (46 :: ?p) ?ng ?cur ?stack)
    with (parse p ng (push_term RAny cur) stack).
  rewrite plain_text_parsed by exact Hb.
  cbn [f_cap f_alts f_cur push_term].
  change (parse (str "=([^;]*)") 0 ?cur [])
    with (Parsed (seq_of (value_group :: RChar 61 :: f_cur cur)) 1).
  cbn [f_cur].
  unfold dot_pattern, seq_of. cbn [fold_left].
  rewrite fold_left_app, seq_onto_rev_lit. cbn [fold_left].
  rewrite fold_left_app, seq_onto_rev_lit. cbn [fold_left].
  now rewrite lit_app.
Qed.

Lemma exec_from_unfold rx pos s :
  exec_from rx pos s
  = match rmatch (rx_tree rx)
            {| m_pos := pos; m_rest := s; m_caps := repeat None (rx_groups rx) |}
            Some with
    | Some y => Some (Some (firstn (m_pos y - pos) s) :: m_caps y)
    | None =>
        match s with
        | [] => None
        | _ :: t => exec_from rx (S pos) t
        end
    end.
Proof. destruct s; reflexivity. Qed.

Lemma skipn_exact {A} (a t : list A) : skipn (List.length a) (a ++ t) = t.
Proof. induction a as [|x a IH]; [reflexivity | exact IH]. Qed.

(** At the start of a text that begins with [a], one unit that is no
    line terminator, [b] and an equals sign, the pattern succeeds and
    captures what follows up to the next semicolon. *)
Lemma rmatch_dot a b x v r :
  is_line_terminator x = false -> has 59 v = false ->
  (r = [] \/ exists t, r = 59 :: t) ->
  exists y,
    rmatch (rx_tree (dot_pattern a b))
      {| m_pos := 0; m_rest := (a ++ x :: b) ++ 61 :: v ++ r; m_caps := [None] |}
      Some = Some y /\
    m_caps y = [Some v].
Proof.
  intros Hx Hv Hr.
  set (x0 := {| m_pos := 0%nat; m_rest := (a ++ x :: b) ++ 61 :: v ++ r;
                m_caps := [None] |}).
  assert (E : rmatch (lit a (RSeq RAny (lit (b ++ [61]) (RSeq value_group REmpty))))
                x0 Some
              = Some (set_cap 1 (Some v)
                        (skip (List.length v)
                           (skip (List.length (b ++ [61]))
                              (advance (skip (List.length a) x0)
                                 (b ++ 61 :: v ++ r)))))).
  { rewrite rmatch_lit. unfold x0 at 1. cbn [m_rest].
    rewrite <- app_assoc, prefixb_app.
    cbn [rmatch].
    assert (R : m_rest (skip (List.length a) x0) = x :: b ++ 61 :: v ++ r).
    { unfold skip, x0. cbn [m_rest]. rewrite <- app_assoc. apply skipn_exact. }
    rewrite R, Hx. rewrite rmatch_lit. cbn [advance m_rest].
    replace (b ++ 61 :: v ++ r) with ((b ++ [61]) ++ v ++ r)
      by (now rewrite <- app_assoc).
    rewrite prefixb_app, rmatch_value_group.
    assert (R' : m_rest (skip (List.length (b ++ [61]))
                           (advance (skip (List.length a) x0)
                              ((b ++ [61]) ++ v ++ r)))
                 = v ++ r).
    { unfold skip, advance. cbn [m_rest]. apply skipn_exact. }
    rewrite R'. destruct (span_value v r Hv Hr) as [-> ->]. reflexivity. }
  eexists. split.
  - cbn [dot_pattern rx_tree pair_start rmatch].
    change (m_pos x0 =? 0)%nat with true. cbv iota. rewrite E. reflexivity.
  - reflexivity.
Qed.

End KeyPatternFacts.

Section KeyPatternTheorems.
Context {H : Host}.
Import Cookie.

(** X20.  A key with unbalanced parentheses can be written and never
    read.  The parentheses of a key go through [encodeURIComponent] as
    they are and into the pattern of [get] without an escape: for a
    well-formed key whose parentheses are not balanced, [get] throws a
    SyntaxError on every cookie text that is not empty, while [set]
    returns for the same key and every value with a well-formed text. *)
Theorem get_unbalanced_parentheses key dv raw_ d :
  well_formed key = true -> balanced 0 key = false ->
  Doc.read_cookie d <> [] ->
  get key dv raw_ d = Throw SyntaxError /\
  (forall this v opts,
      well_formed (ToString (value_of v)) = true ->
      exists d', set this key v opts d = Normal d').
Proof.
  intros Hkey Hbal Hne. split.
  - destruct (decode_encode key Hkey) as (k & Hk & _).
    unfold get. destruct (Doc.read_cookie d); [congruence|].
    rewrite Hk. cbn [bind].
    rewrite RegExp_unbalanced; [reflexivity|].
    change (balanced 0 (str "(?:^|; )" ++ k ++ str "=([^;]*)"))
      with (balanced 0 (k ++ str "=([^;]*)")).
    now rewrite balanced_suffix, (balanced_encode key Hkey k 0 Hk).
  - intros this v opts Hv. now apply set_returns.
Qed.

(** X21.  A dot in the key is a wildcard.  For two well-formed texts [a]
    and [b] without dot, star or parenthesis, [get] of the key made of
    [a], a dot and [b] returns the value of the first cookie shown (as
    stored when raw, else decoded) whenever its name is the encoded [a],
    any one unit that is no line terminator, and the encoded [b]: the
    cookie read need not be the one of the key. *)
Theorem get_dot_is_wildcard a b dv :
  well_formed a = true -> well_formed b = true ->
  literal_key a = true -> literal_key b = true ->
  exists ea eb,
    encodeURIComponent a = Normal ea /\
    encodeURIComponent b = Normal eb /\
    encodeURIComponent (a ++ 46 :: b) = Normal (ea ++ 46 :: eb) /\
    forall x c l d,
      is_line_terminator x = false ->
      live d = c :: l -> c_name c = ea ++ x :: eb -> has 59 (c_value c) = false ->
      get (a ++ 46 :: b) dv true d = Normal (VStr (c_value c)) /\
      get (a ++ 46 :: b) dv false d = fmap VStr (decodeURIComponent (c_value c)).
Proof.
  intros Ha Hb La Lb.
  destruct (encode_well_formed a Ha) as (ea & _ & Hea & _ & _ & Haa & _).
  destruct (encode_well_formed b Hb) as (eb & _ & Heb & _ & _ & Hba & _).
  assert (Hkey : encodeURIComponent (a ++ 46 :: b) = Normal (ea ++ 46 :: eb)).
  { rewrite encode_app, Hea by exact Ha. cbn [bind].
    rewrite encode_unreserved, Heb by reflexivity. reflexivity. }
  exists ea, eb. split; [exact Hea|]. split; [exact Heb|]. split; [exact Hkey|].
  intros x c l d Hx Hlive Hname Hval.
  assert (Htext : Doc.read_cookie d
                  = (ea ++ x :: eb) ++ 61 :: c_value c ++ rest_text l).
  { rewrite read_cookie_live, Hlive, join_pairs. unfold Doc.pair_text.
    rewrite Hname, <- !app_assoc. reflexivity. }
  destruct (rmatch_dot ea eb x (c_value c) (rest_text l) Hx Hval (rest_text_shape l))
    as (y & Hy & Hcaps).
  assert (G : forall raw_,
             get (a ++ 46 :: b) dv raw_ d
             = if raw_ then Normal (VStr (c_value c))
               else fmap VStr (decodeURIComponent (c_value c))).
  { intros raw_. unfold get. rewrite Htext.
    destruct ((ea ++ x :: eb) ++ 61 :: c_value c ++ rest_text l) as [|u0 u] eqn:Eu.
    { destruct ea; discriminate. }
    rewrite Hkey. cbn [bind].
    rewrite (RegExp_dot ea eb (encoded_plain _ _ La Haa) (encoded_plain _ _ Lb Hba)).
    cbn [bind]. unfold match_. rewrite exec_from_unfold.
    change (repeat None (rx_groups (dot_pattern ea eb))) with [@None jsstring].
    rewrite Hy, Hcaps. reflexivity. }
  split; [apply (G true) | apply (G false)].
Qed.

End KeyPatternTheorems.

(* ================================================================== *)
(** * The errors that can be thrown *)
(* ================================================================== *)

Section ErrorFacts.

Lemma throws_only_Normal {A} err (a : A) : throws_only err (Normal a).
Proof. intros e E. discriminate. Qed.

Lemma throws_only_Throw {A} err : throws_only (A := A) err (Throw err).
Proof. intros e E. now injection E as <-. Qed.

Lemma throws_only_bind {A B} err (c : completion A) (f : A -> completion B) :
  throws_only err c -> (forall a, throws_only err (f a)) ->
  throws_only err (bind c f).
Proof.
  intros Hc Hf e E. destruct c as [a|e0]; cbn [bind] in E.
  - now apply (Hf a).
  - apply Hc. now injection E as <-.
Qed.

Lemma encode_throws_only s : throws_only URIError (encodeURIComponent s).
Proof.
  remember (List.length s) as n eqn:Hn.
  assert (Hle : (List.length s <= n)%nat) by lia. clear Hn.
  revert s Hle. induction n as [|n IH]; intros s Hle.
  - destruct s; [apply throws_only_Normal | cbn in Hle; lia].
  - destruct s as [|c rest]; [apply throws_only_Normal|].
    cbn [List.length] in Hle. cbn [encodeURIComponent].
    destruct (unreserved c).
    { apply throws_only_bind; [apply IH; lia | intros ?; apply throws_only_Normal]. }
    destruct (is_lead c).
    { destruct rest as [|d rest']; [apply throws_only_Throw|].
      destruct (is_trail d); [|apply throws_only_Throw].
      apply throws_only_bind; [|intros ?; apply throws_only_Normal].
      apply IH. cbn [List.length] in Hle. lia. }
    destruct (is_trail c); [apply throws_only_Throw|].
    apply throws_only_bind; [apply IH; lia | intros ?; apply throws_only_Normal].
Qed.

Lemma unescape_throws_only s : throws_only URIError (unescape s).
Proof.
  remember (List.length s) as n eqn:Hn.
  assert (Hle : (List.length s <= n)%nat) by lia. clear Hn.
  revert s Hle. induction n as [|n IH]; intros s Hle.
  - destruct s; [apply throws_only_Normal | cbn in Hle; lia].
  - destruct s as [|c rest]; [apply throws_only_Normal|].
    cbn [List.length] in Hle. cbn [unescape].
    destruct (c =? 37).
    + destruct rest as [|h1 [|h2 rest']]; try apply throws_only_Throw.
      destruct (hexval h1), (hexval h2); try apply throws_only_Throw.
      apply throws_only_bind; [|intros ?; apply throws_only_Normal].
      apply IH. cbn [List.length] in Hle. lia.
    + apply throws_only_bind; [apply IH; lia | intros ?; apply throws_only_Normal].
Qed.

Lemma read_utf8_throws_only l : throws_only URIError (read_utf8 l).
Proof.
  remember (List.length l) as n eqn:Hn.
  assert (Hle : (List.length l <= n)%nat) by lia. clear Hn.
  revert l Hle. induction n as [|n IH]; intros l Hle.
  - destruct l; [apply throws_only_Normal | cbn in Hle; lia].
  - destruct l as [|i rest]; [apply throws_only_Normal|].
    cbn [List.length] in Hle.
    assert (Hrec : forall rest' A (f : jsstring -> completion A),
               (List.length rest' <= n)%nat ->
               (forall r, throws_only URIError (f r)) ->
               throws_only URIError (bind (read_utf8 rest') f)).
    { intros rest' A f Hl Hf. apply throws_only_bind; [now apply IH | exact Hf]. }
    destruct i as [c|b]; cbn [read_utf8].
    { apply Hrec; [lia | intros ?; apply throws_only_Normal]. }
    destruct (b <? 128).
    { apply Hrec; [lia | intros ?; apply throws_only_Normal]. }
    destruct (b <? 192); [apply throws_only_Throw|].
    destruct (b <? 224).
    { destruct rest as [|[?|b2] rest']; try apply throws_only_Throw.
      destruct (is_cont b2 && valid_cp 2 _); [|apply throws_only_Throw].
      apply Hrec; [cbn [List.length] in Hle; lia | intros ?; apply throws_only_Normal]. }
    destruct (b <? 240).
    { destruct rest as [|[?|b2] [|[?|b3] rest']]; try apply throws_only_Throw.
      destruct (is_cont b2 && is_cont b3 && valid_cp 3 _); [|apply throws_only_Throw].
      apply Hrec; [cbn [List.length] in Hle; lia | intros ?; apply throws_only_Normal]. }
    destruct (b <? 248); [|apply throws_only_Throw].
    destruct rest as [|[?|b2] [|[?|b3] [|[?|b4] rest']]]; try apply throws_only_Throw.
    destruct (is_cont b2 && is_cont b3 && is_cont b4 && valid_cp 4 _);
      [|apply throws_only_Throw].
    apply Hrec; [cbn [List.length] in Hle; lia | intros ?; apply throws_only_Normal].
Qed.

Lemma decode_throws_only s : throws_only URIError (decodeURIComponent s).
Proof.
  unfold decodeURIComponent.
  apply throws_only_bind; [apply unescape_throws_only|].
  intros l. apply read_utf8_throws_only.
Qed.

Lemma RegExp_throws_only p : throws_only SyntaxError (RegExp p).
Proof.
  unfold RegExp. destruct (parse p 0 (open_frame None) []);
    [apply throws_only_Normal | apply throws_only_Throw | apply throws_only_Throw].
Qed.

End ErrorFacts.

Section ErrorTheorems.
Context {C : Calls} {H : Host}.
Import Cookie.

Lemma get_throws key dv raw_ d e :
  get key dv raw_ d = Throw e -> e = URIError \/ e = SyntaxError.
Proof.
  unfold get. destruct (Doc.read_cookie d) as [|u0 u]; [discriminate|].
  destruct (encodeURIComponent key) as [k|e0] eqn:Ek; cbn [bind].
  2:{ intros E. injection E as <-. left. now apply (encode_throws_only key). }
  destruct (RegExp _) as [rx|e0] eqn:Er; cbn [bind].
  2:{ intros E. injection E as <-. right. now apply (RegExp_throws_only _ _ Er). }
  intros E. left. revert E.
  destruct (match_ _ rx) as [result|]; [|discriminate].
  destruct (nth 1 result None); destruct raw_; try discriminate;
    apply throws_only_bind;
    solve [apply decode_throws_only | intros ?; apply throws_only_Normal].
Qed.

Lemma calls_matches_throws w query e :
  BrowserCalls.matches w query = Throw e -> e = TypeError \/ import_throws w e.
Proof.
  unfold BrowserCalls.matches, BrowserCalls.currentVersion,
    BrowserCalls.currentBrowser, import_throws.
  destruct query; try (intros E; injection E as <-; now left).
  destruct (call_browser w) as [b|e0] eqn:Eb; cbn [bind].
  2:{ intros E. injection E as <-. right. now left. }
  destruct (negb _); [discriminate|].
  destruct (_ <=? 1)%nat; [discriminate|].
  destruct (call_version w b) as [ver|e0] eqn:Ev; cbn [bind].
  2:{ intros E. injection E as <-. right. right. left. now exists b. }
  intros E. right. right. right. eauto.
Qed.

Lemma calls_filter_matches_throws w l e :
  BrowserCalls.filter_matches w l = Throw e -> e = TypeError \/ import_throws w e.
Proof.
  induction l as [|x l IH]; [discriminate|].
  cbn [BrowserCalls.filter_matches].
  destruct (BrowserCalls.matches w x) as [b|e0] eqn:Em; cbn [bind].
  2:{ intros E. injection E as <-. now apply (calls_matches_throws w x). }
  destruct (BrowserCalls.filter_matches w l) as [kept|e0]; cbn [bind];
    [discriminate|].
  intros E. injection E as <-. now apply IH.
Qed.

Lemma calls_oneOf_throws w query e :
  BrowserCalls.oneOf w query = Throw e -> e = TypeError \/ import_throws w e.
Proof.
  unfold BrowserCalls.oneOf.
  destruct query; try discriminate; try (intros E; injection E as <-; now left).
  - destruct (BrowserCalls.filter_matches w [VStr s]) as [kept|e0] eqn:Ef;
      cbn [bind]; [discriminate|].
    intros E. injection E as <-. now apply (calls_filter_matches_throws w _ _ Ef).
  - destruct (BrowserCalls.filter_matches w l) as [kept|e0] eqn:Ef;
      cbn [bind]; [discriminate|].
    intros E. injection E as <-. now apply (calls_filter_matches_throws w _ _ Ef).
Qed.

(** X22.  What a caller has to catch.  For a key that is a text, a value
    that is null, undefined, a boolean, a text or a list of these, and
    options whose [expires], when present, is a Date: [set] and [unset]
    throw nothing but a URIError (of [encodeURIComponent]).  The call
    [get(key, argument)] throws nothing but a TypeError, a URIError (of
    the encoding of the key or the decoding of the value) or a
    SyntaxError (of the pattern built from the key), and the TypeError
    exactly when the argument is null.  [matches], [oneOf] and
    [isOutdated] throw nothing but a TypeError of their own, for an
    argument that is no text or list of texts, or what a call to [Search]
    or [compareVersion] throws. *)
Theorem thrown_errors (w : Window) (this : Module_) (key : jsstring)
    (v query : value) (argument : get_argument) (opts : Options)
    (d : Document) (e : error) :
  (set this key v opts d = Throw e -> e = URIError) /\
  (unset this key opts d = Throw e -> e = URIError) /\
  (get_call key argument d = Throw e ->
   e = TypeError \/ e = URIError \/ e = SyntaxError) /\
  (get_call key argument d = Throw TypeError <-> argument = Passed VNull) /\
  (BrowserCalls.matches w query = Throw e -> e = TypeError \/ import_throws w e) /\
  (BrowserCalls.oneOf w query = Throw e -> e = TypeError \/ import_throws w e) /\
  (BrowserCalls.isOutdated w query = Throw e -> e = TypeError \/ import_throws w e).
Proof.
  assert (Hset : forall v', throws_only URIError (set this key v' opts d)).
  { intros v'. unfold set. rewrite cookie_text_eq.
    apply throws_only_bind; [|intros ?; apply throws_only_Normal].
    apply throws_only_bind; [apply encode_throws_only|]. intros k.
    apply throws_only_bind; [|intros ?; apply throws_only_Normal].
    destruct (truthy_bool _); [apply throws_only_Normal | apply encode_throws_only]. }
  assert (Hget : forall e', get_call key argument d = Throw e' ->
                            (e' = TypeError /\ argument = Passed VNull) \/
                            e' = URIError \/ e' = SyntaxError).
  { intros e'. unfold get_call.
    destruct argument as [[| | | |]|dv' raw'];
      try (intros E; right; exact (get_throws _ _ _ _ _ E)).
    intros E. injection E as <-. now left. }
  split; [apply Hset|]. split; [apply (Hset VNull)|]. split.
  { intros E. destruct (Hget e E) as [[-> _] | [-> | ->]]; auto. }
  split.
  { split.
    - intros E. destruct (Hget _ E) as [[_ Ha] | [Hu | Hs]];
        [exact Ha | discriminate | discriminate].
    - now intros ->. }
  split; [apply calls_matches_throws|].
  split; [apply calls_oneOf_throws|].
  unfold BrowserCalls.isOutdated.
  destruct (BrowserCalls.oneOf w query) as [b|e0] eqn:Eo; cbn [bind];
    [discriminate|].
  intros E. injection E as <-. now apply (calls_oneOf_throws w query).
Qed.

End ErrorTheorems.

(* ================================================================== *)
(** * Further concrete runs *)
(* ================================================================== *)

Section MoreRuns.
#[local] Existing Instance Reference.host.
#[local] Existing Instance Reference.imports.

Lemma isAndroid_isMobile_witness : Browser.isMobile android_phone = true.
Proof. apply (isAndroid_isMobile android_phone). reflexivity. Defined.

Lemma isMobile_isTablet_ignore_case_witness :
  Browser.isMobile android_phone = Browser.isMobile android_phone_upper /\
  Browser.isTablet android_phone = Browser.isTablet android_phone_upper.
Proof.
  apply (isMobile_isTablet_ignore_case android_phone android_phone_upper).
  vm_compute. reflexivity.
Defined.

Lemma matches_untrimmed_witness :
  (exists operator rest,
     split_ws (32 :: str "chrome") = [] :: operator :: rest /\
     Browser.matches Reference.chrome62 (VStr (32 :: str "chrome")) =
       Normal (compareVersion (Browser.currentVersion Reference.chrome62)
                 (Some operator) (hd_error rest))) /\
  Browser.matches Reference.chrome62 (VStr (str "chrome" ++ [32])) =
    Normal (if includes
                 (toLowerCase (identity (Browser.currentBrowser Reference.chrome62)))
                 (toLowerCase (str "chrome"))
            then compareVersion (Browser.currentVersion Reference.chrome62)
                   (Some []) None
            else false).
Proof.
  apply (matches_untrimmed Reference.chrome62 32 (str "chrome") (str "chrome"));
    reflexivity.
Defined.

Lemma matches_reads_three_pieces_witness :
  Browser.matches Reference.chrome62 (VStr (str "chrome >= 43 or later"))
  = Browser.matches Reference.chrome62 (VStr (str "chrome >= 43")).
Proof.
  apply (matches_reads_three_pieces Reference.chrome62). reflexivity.
Defined.

Lemma oneOf_non_text_throws_witness :
  Browser.oneOf Reference.chrome62 (VArr [VStr (str "chrome"); VNull])
  = Throw TypeError /\
  Browser.isOutdated Reference.chrome62 (VArr [VStr (str "chrome"); VNull])
  = Throw TypeError.
Proof.
  apply (oneOf_non_text_throws Reference.chrome62 [VStr (str "chrome"); VNull] VNull).
  - simpl. auto.
  - intros q. discriminate.
Defined.

Lemma oneOf_empty_query_witness :
  Browser.matches Reference.chrome62 (VStr []) = Normal true /\
  Browser.oneOf Reference.chrome62 (VArr (map VStr [str "explorer >= 9"; []]))
  = Normal true /\
  Browser.isOutdated Reference.chrome62 (VArr (map VStr [str "explorer >= 9"; []]))
  = Normal false.
Proof.
  apply (oneOf_empty_query Reference.chrome62 [str "explorer >= 9"; []]).
  - reflexivity.
  - simpl. auto.
Defined.

Lemma identity_version_text_witness :
  Identity.platform (BrowserMore.identity Reference.chrome62)
  = identity (Browser.currentPlatform Reference.chrome62) /\
  Identity.browser (BrowserMore.identity Reference.chrome62)
  = identity (Browser.currentBrowser Reference.chrome62) /\
  (Browser.currentVersion Reference.chrome62 = [] ->
   Identity.version (BrowserMore.identity Reference.chrome62) = []) /\
  (Browser.currentVersion Reference.chrome62 <> [] ->
   split_on (fun c => c =? 46)
     (Identity.version (BrowserMore.identity Reference.chrome62))
   = map Number_toString (Browser.currentVersion Reference.chrome62)) /\
  (Identity.version (BrowserMore.identity Reference.chrome62)
   = Identity.version (BrowserMore.identity android_phone) ->
   Browser.currentVersion Reference.chrome62
   = Browser.currentVersion android_phone).
Proof.
  apply (identity_version_text Reference.chrome62 android_phone);
    reflexivity.
Defined.

Lemma set_get_any_value_witness :
  exists d' e,
    Cookie.set Cookie.initial (str "seen") (VBool true) Cookie.no_options
      foo_bar_store = Normal d' /\
    encodeURIComponent (Cookie.ToString (VBool true)) = Normal e /\
    Cookie.get (str "seen") VNull false d' = Normal (VStr (Cookie.ToString (VBool true))) /\
    Cookie.get (str "seen") VNull true d' = Normal (VStr e).
Proof.
  apply (set_get_any_value Cookie.initial (str "seen") (VBool true)
           Cookie.no_options foo_bar_store VNull);
    solve [reflexivity | discriminate].
Defined.

Lemma set_leaves_other_keys_witness :
  exists d',
    Cookie.set Cookie.initial (str "k 1;") (VStr (str "a;b")) Cookie.no_options
      foo_bar_store = Normal d' /\
    Cookie.get (str "foo") VNull false d'
    = Cookie.get (str "foo") VNull false foo_bar_store.
Proof.
  apply (set_leaves_other_keys Cookie.initial (str "k 1;") (VStr (str "a;b"))
           Cookie.no_options foo_bar_store (str "foo") VNull false);
    solve [reflexivity | discriminate].
Defined.

Lemma set_last_write_wins_witness :
  exists d1 d2,
    Cookie.set Cookie.initial (str "foo") (VStr (str "one")) Cookie.no_options
      foo_bar_store = Normal d1 /\
    Cookie.set Cookie.initial (str "foo") (VStr (str "two")) Cookie.no_options d1
    = Normal d2 /\
    Cookie.set Cookie.initial (str "foo") (VStr (str "two")) Cookie.no_options
      foo_bar_store = Normal d2.
Proof.
  apply (set_last_write_wins Cookie.initial (str "foo") (VStr (str "one"))
           (VStr (str "two")) Cookie.no_options foo_bar_store);
    solve [reflexivity | discriminate].
Defined.

Lemma unset_removes_only_key_witness :
  exists d' k,
    Cookie.unset Cookie.initial (str "foo") Cookie.no_options foo_bar_store
    = Normal d' /\
    encodeURIComponent (str "foo") = Normal k /\
    live d' = filter (other_name k) (live foo_bar_store) /\
    (lookup k (live foo_bar_store) = None ->
     Doc.read_cookie d' = Doc.read_cookie foo_bar_store) /\
    (forall key' dv raw_,
        well_formed key' = true -> literal_key key' = true -> key' <> str "foo" ->
        Cookie.get key' dv raw_ d' = Cookie.get key' dv raw_ foo_bar_store).
Proof.
  apply (unset_removes_only_key Cookie.initial (str "foo") Cookie.no_options
           foo_bar_store 1513767459000);
    solve [reflexivity | vm_compute; reflexivity].
Defined.

Lemma set_raw_get_witness :
  exists d',
    Cookie.set Cookie.initial (str "foo") (VStr (str "a%20b")) raw_options
      empty_store = Normal d' /\
    Cookie.get (str "foo") VNull true d' = Normal (VStr (str "a%20b")) /\
    Cookie.get (str "foo") VNull false d'
    = fmap VStr (decodeURIComponent (str "a%20b")).
Proof.
  apply (set_raw_get Cookie.initial (str "foo") (str "a%20b") raw_options
           empty_store VNull);
    solve [reflexivity | discriminate].
Defined.

Lemma set_with_expiry_witness :
  exists d',
    Cookie.set Cookie.initial (str "foo") (VStr (str "week")) week_options
      foo_bar_store = Normal d' /\
    Cookie.get (str "foo") VNull false d' =
      if Reference.instant + 7 * msPerDay <=? now foo_bar_store
      then Normal (default_of VNull)
      else Normal (VStr (Cookie.ToString (VStr (str "week")))).
Proof.
  apply (set_with_expiry Cookie.initial (str "foo") (VStr (str "week"))
           week_options foo_bar_store VNull
           (in_days foo_bar_store 7)
           (Reference.instant + 7 * msPerDay));
    solve [reflexivity | discriminate | vm_compute; reflexivity].
Defined.

(** No day from now: the cookie expires as it is written, and [get]
    returns the default. *)
Example set_today_is_dropped :
  bind (Cookie.set Cookie.initial (str "foo") (VStr (str "v")) today_options
          empty_store)
       (fun d' => Normal (Doc.read_cookie d', Cookie.get (str "foo") VNull false d'))
  = Normal ([], Normal VNull).
Proof. vm_compute. reflexivity. Qed.

Lemma set_throws_exactly_witness :
  Cookie.set Cookie.initial (str "foo") (VStr half_emoji) Cookie.no_options
    empty_store = Throw URIError.
Proof.
  apply (set_throws_exactly Cookie.initial (str "foo") (VStr half_emoji)
           Cookie.no_options empty_store); reflexivity.
Defined.

Lemma get_ill_formed_key_witness :
  (Doc.read_cookie foo_bar_store = [] ->
   Cookie.get half_emoji VNull false foo_bar_store = Normal (default_of VNull)) /\
  (Doc.read_cookie foo_bar_store <> [] ->
   Cookie.get half_emoji VNull false foo_bar_store = Throw URIError).
Proof.
  apply (get_ill_formed_key half_emoji VNull false foo_bar_store); reflexivity.
Defined.

Lemma get_unbalanced_parentheses_witness :
  Cookie.get (str "f(x") VNull false foo_bar_store = Throw SyntaxError /\
  (forall this v opts,
      well_formed (Cookie.ToString (value_of v)) = true ->
      exists d', Cookie.set this (str "f(x") v opts foo_bar_store = Normal d').
Proof.
  apply (get_unbalanced_parentheses (str "f(x") VNull false foo_bar_store);
    solve [reflexivity | discriminate].
Defined.

Lemma get_dot_is_wildcard_witness :
  exists ea eb,
    encodeURIComponent (str "a") = Normal ea /\
    encodeURIComponent (str "b") = Normal eb /\
    encodeURIComponent (str "a" ++ 46 :: str "b") = Normal (ea ++ 46 :: eb) /\
    forall x c l d,
      is_line_terminator x = false ->
      live d = c :: l -> c_name c = ea ++ x :: eb -> has 59 (c_value c) = false ->
      Cookie.get (str "a" ++ 46 :: str "b") VNull true d = Normal (VStr (c_value c)) /\
      Cookie.get (str "a" ++ 46 :: str "b") VNull false d
      = fmap VStr (decodeURIComponent (c_value c)).
Proof.
  apply (get_dot_is_wildcard (str "a") (str "b") VNull); reflexivity.
Defined.

End MoreRuns.
